(** * Oil-spill drift and weathering engine: a shallow embedding

    This development embeds [public/js/simulation.js] (the classes
    [FieldGrid], [OilParticle] and [OilSpillSimulation]) and proves
    properties of the integrator, the grid interpolator, the weathering
    curves and the statistics update.

    Numbers.  JavaScript numbers are idealised as real numbers: every
    arithmetic operator is the exact operator on [R], [Math.sqrt],
    [Math.sin], [Math.cos], [Math.exp], [Math.log] are the functions of the
    standard library of reals, and [Math.floor] is [Zfloor].  Rounding of
    IEEE doubles is therefore not part of the model: a statement that
    turns on the last place of a number (a floor, an equality of sums, a
    bound met exactly) is a statement of exact arithmetic and says so.
    Where the arithmetic of doubles would yield [NaN] or an infinity
    (the square root of a negative number, a division by zero) the model
    has some real number; the statements whose conclusion turns on such
    a value exclude these cases by hypothesis.  The one value the
    model keeps apart from the reals is the [undefined]/[NaN] produced by
    reading a typed array out of range: it is [None] in an [option R].

    State.  The simulation object is split into the fields the engine
    only reads ([Config]) and the fields it writes ([State]); the state
    also carries the stream of [Math.random].  Functions that can fail
    to return a state return an [option]: [None] stands for a Box-Muller
    loop that is not followed to its end, for a [TypeError] on a missing
    particle, and for a wind or current sample that is [NaN]. *)

From Stdlib Require Import Reals Lra Lia ZArith List Sorted Bool String Zfloor.
Import ListNotations.

Local Open Scope R_scope.

(** ** Numeric primitives of the host language *)

Module Js.

(** [a < b], [a <= b], [a === b] on numbers, as booleans. *)
Definition ltb (a b : R) : bool := if Rlt_dec a b then true else false.
Definition leb (a b : R) : bool := if Rle_dec a b then true else false.
Definition eqb (a b : R) : bool := if Req_dec_T a b then true else false.

(** Truncation toward zero and the remainder operator [x % y]
    (the sign of the result follows the dividend). *)
Definition trunc (x : R) : Z :=
  if Rle_dec 0 x then Zfloor x else Zceil x.

Definition rem (x y : R) : R := x - y * IZR (trunc (x / y)).

(** [Math.pow(x, y)]: the model uses it on a positive base with a real
    exponent ([Rpower]) and with the literal exponent 2 ([sqr]). *)
Definition pow (x y : R) : R := Rpower x y.
Definition sqr (x : R) : R := x * x.

(** [Math.atan2(y, x)]. *)
Definition atan2 (y x : R) : R :=
  if Rlt_dec 0 x then atan (y / x)
  else if Rlt_dec x 0 then
         (if Rle_dec 0 y then atan (y / x) + PI else atan (y / x) - PI)
       else if Rlt_dec 0 y then PI / 2
            else if Rlt_dec y 0 then - (PI / 2) else 0.

(** [Math.random()] is a stream of draws; a call returns the head and
    leaves the tail. *)
Definition RNG : Type := nat -> R.

Definition random (g : RNG) : R * RNG := (g 0%nat, fun n => g (S n)).

(** The stream that always returns the same draw. *)
Definition constant (c : R) : RNG := fun _ => c.

End Js.

(** ** Oil property table *)

Inductive OilType : Type := crude | fuel | diesel | gasoline.

(** The entries of the table; [oilViscosity] is the key [viscosity]
    (the particle has a field of the same name), and the display name
    is left out. *)
Record OilProps : Type := mkOilProps {
  density : R;
  oilViscosity : R;
  api : R;
  evapRate : R;
  pourPoint : R;
  volatileFrac : R;
  dispersibility : R
}.

Definition OIL_PROPERTIES (t : OilType) : OilProps :=
  match t with
  | crude    => mkOilProps 860 12 33 0.042 (-15) 0.25 0.5
  | fuel     => mkOilProps 950 180 17 0.015 10 0.08 0.2
  | diesel   => mkOilProps 840 4 37 0.065 (-30) 0.45 0.7
  | gasoline => mkOilProps 740 0.6 60 0.12 (-60) 0.80 0.9
  end.

Definition DEG_TO_RAD : R := PI / 180.
Definition RAD_TO_DEG : R := 180 / PI.
Definition EARTH_RADIUS : R := 6371000.
Definition WIND_DRIFT_FACTOR : R := 0.03.
Definition WIND_DEFLECTION : R := 15 * DEG_TO_RAD.

(** ** Weathering curves *)

(** [_calcEvaporation(props, hours, temp, windSpeed)] *)
Definition calcEvaporation (props : OilProps) (hours temp windSpeed : R) : R :=
  if Js.leb hours 0 then 0
  else
    let K := evapRate props * (1 + 0.045 * (temp - 15)) in
    let evapFrac := K * sqrt hours * (1 + 0.01 * windSpeed) in
    Rmin evapFrac (volatileFrac props).

(** [_calcDispersion(props, windSpeed, hours)] *)
Definition calcDispersion (props : OilProps) (windSpeed hours : R) : R :=
  if Js.leb hours 0 || Js.ltb windSpeed 5 then 0
  else
    let Dba := 0.0034 * dispersibility props in
    let waveEnergy := Js.sqr windSpeed * 0.001 in
    let dispRate := Dba * waveEnergy in
    Rmin (dispRate * hours) 0.3.

(** [_calcEmulsion(hours, windSpeed)] *)
Definition calcEmulsion (hours windSpeed : R) : R :=
  if Js.leb hours 0 || Js.ltb windSpeed 3 then 0
  else
    let Ymax := 0.7 in
    let Ka := 2e-6 * Js.sqr (windSpeed + 1) in
    let Y := Ymax * (1 - exp (- Ka * hours * 3600)) in
    Rmin Y Ymax.

(** ** FieldGrid *)

Module Grid.

(** The preprocessed JSON document handed to the constructor: the two
    axes, the optional time axis, and every other key that holds an
    array (the variables), in key order.  The [shape] key is read by the
    constructor and never used. *)
Record Json : Type := mkJson {
  json_lat : list R;
  json_lon : list R;
  json_time_hours : option (list R);
  json_vars : list (string * list R)
}.

Record t : Type := mk {
  lat : list R;
  lon : list R;
  nLat : Z;
  nLon : Z;
  latMin : R;
  latMax : R;
  lonMin : R;
  lonMax : R;
  dLat : R;
  dLon : R;
  timeHours : option (list R);
  nTime : Z;
  isTimeVarying : bool;
  sliceSize : Z;
  vars : list (string * list R)
}.

(** Reading an axis at an index; the axes of a grid are non-empty arrays
    of numbers, so the reads of the constructor are in range. *)
Definition axis (l : list R) (i : Z) : R := nth (Z.to_nat i) l 0.

(** Reading a [Float32Array] at an integer index: [undefined] ([None])
    below zero and at or above the length. *)
Definition tget (data : list R) (i : Z) : option R :=
  if (i <? 0)%Z then None else nth_error data (Z.to_nat i).

(** [this.vars[key]] among the arrays that the constructor stored: the
    binding written last wins.  The names that [this.vars] inherits as a
    plain object ([constructor], [toString], ...) are not part of the
    model; a statement about a name that is not stored excludes them. *)
Fixpoint lookup (key : string) (vs : list (string * list R)) : option (list R) :=
  match vs with
  | [] => None
  | (k, v) :: rest => if String.eqb key k then Some v else lookup key rest
  end.

Section Constructor.

(** Rounding of a number to the nearest 32-bit float, as done by
    [new Float32Array(arr)]. *)
Variable fround : R -> R.

Definition storeVars (entries : list (string * list R)) : list (string * list R) :=
  fold_left
    (fun acc kv =>
       let '(key, arr) := kv in
       if (0 <? List.length arr)%nat then (key, map fround arr) :: acc else acc)
    entries [].

Definition new (json : Json) : t :=
  let lat := json_lat json in
  let lon := json_lon json in
  let nLat := Z.of_nat (List.length lat) in
  let nLon := Z.of_nat (List.length lon) in
  let latMin := axis lat 0 in
  let latMax := axis lat (nLat - 1) in
  let lonMin := axis lon 0 in
  let lonMax := axis lon (nLon - 1) in
  let dLat := if (1 <? nLat)%Z then (latMax - latMin) / IZR (nLat - 1) else 1 in
  let dLon := if (1 <? nLon)%Z then (lonMax - lonMin) / IZR (nLon - 1) else 1 in
  let timeHours := json_time_hours json in
  let nTime := match timeHours with
               | Some ts => Z.of_nat (List.length ts)
               | None => 0%Z
               end in
  mk lat lon nLat nLon latMin latMax lonMin lonMax dLat dLon
     timeHours nTime (0 <? nTime)%Z (nLat * nLon)%Z
     (storeVars (json_vars json)).

End Constructor.

(** [contains(lat, lng)] *)
Definition contains (g : t) (la ln : R) : bool :=
  Js.leb (latMin g) la && Js.leb la (latMax g) &&
  Js.leb (lonMin g) ln && Js.leb ln (lonMax g).

(** The bilinear combination of four corner reads; an [undefined]
    corner makes the sum [NaN]. *)
Definition bilinear (di dj : R) (v00 v01 v10 v11 : option R) : option R :=
  match v00, v01, v10, v11 with
  | Some a, Some b, Some c, Some d =>
      Some ((1 - di) * (1 - dj) * a + (1 - di) * dj * b +
            di * (1 - dj) * c + di * dj * d)
  | _, _, _, _ => None
  end.

(** The linear scan of the time axis: [k] is the loop counter and
    [todo] the number of iterations left; the result is [ft], which
    keeps its initial value 0 when no interval matches. *)
Fixpoint locate (times : list R) (th : R) (k : nat) (todo : nat) : R :=
  match todo with
  | O => 0
  | S todo' =>
      let tk := nth k times 0 in
      let tk1 := nth (S k) times 0 in
      if Js.leb tk th && Js.leb th tk1
      then INR k + (th - tk) / (tk1 - tk)
      else locate times th (S k) todo'
  end.

Definition timeIndex (g : t) (th : R) : R :=
  let times := match timeHours g with Some ts => ts | None => [] end in
  if Js.leb th (axis times 0) then 0
  else if Js.leb (axis times (nTime g - 1)) th then IZR (nTime g - 1)
  else locate times th 0 (Z.to_nat (nTime g - 1)).

(** [sample(varName, lat, lng, timeHours)]; the last argument is
    [None] when the caller passes three arguments. *)
Definition sample (g : t) (varName : string) (la ln : R)
    (timeHours : option R) : option R :=
  match lookup varName (vars g) with
  | None => Some 0
  | Some data =>
      let fi := (la - latMin g) / dLat g in
      let fj := (ln - lonMin g) / dLon g in
      let fi := Rmax 0 (Rmin fi (IZR (nLat g - 1))) in
      let fj := Rmax 0 (Rmin fj (IZR (nLon g - 1))) in
      let i0 := Z.min (Zfloor fi) (nLat g - 2) in
      let j0 := Z.min (Zfloor fj) (nLon g - 2) in
      let i1 := (i0 + 1)%Z in
      let j1 := (j0 + 1)%Z in
      let di := fi - IZR i0 in
      let dj := fj - IZR j0 in
      if negb (isTimeVarying g) then
        bilinear di dj
          (tget data (i0 * nLon g + j0)) (tget data (i0 * nLon g + j1))
          (tget data (i1 * nLon g + j0)) (tget data (i1 * nLon g + j1))
      else
        let th := match timeHours with Some x => x | None => 0 end in
        let ft := timeIndex g th in
        let t0 := Z.min (Zfloor ft) (nTime g - 2) in
        let t1 := (t0 + 1)%Z in
        let dt_frac := ft - IZR t0 in
        let ss := sliceSize g in
        let off0 := (t0 * ss)%Z in
        let valT0 :=
          bilinear di dj
            (tget data (off0 + i0 * nLon g + j0)) (tget data (off0 + i0 * nLon g + j1))
            (tget data (off0 + i1 * nLon g + j0)) (tget data (off0 + i1 * nLon g + j1)) in
        let off1 := (t1 * ss)%Z in
        let valT1 :=
          bilinear di dj
            (tget data (off1 + i0 * nLon g + j0)) (tget data (off1 + i0 * nLon g + j1))
            (tget data (off1 + i1 * nLon g + j0)) (tget data (off1 + i1 * nLon g + j1)) in
        match valT0, valT1 with
        | Some a, Some b => Some (a * (1 - dt_frac) + b * dt_frac)
        | _, _ => None
        end
  end.

End Grid.

(** ** OilParticle *)

Module Particle.

Record t : Type := mk {
  lat : R;
  lng : R;
  mass : R;
  active : bool;
  beached : bool;
  age : R;
  thickness : R;
  evaporated : R;
  dispersed : R;
  emulsionWater : R;
  viscosity : R
}.

(** [new OilParticle(lat, lng, mass)] *)
Definition new (la ln m : R) : t := mk la ln m true false 0 0.01 0 0 0 0.

(** Field assignments [p.f = v]. *)
Definition set_lat (v : R) (p : t) : t :=
  mk v (lng p) (mass p) (active p) (beached p) (age p) (thickness p)
     (evaporated p) (dispersed p) (emulsionWater p) (viscosity p).
Definition set_lng (v : R) (p : t) : t :=
  mk (lat p) v (mass p) (active p) (beached p) (age p) (thickness p)
     (evaporated p) (dispersed p) (emulsionWater p) (viscosity p).
Definition set_mass (v : R) (p : t) : t :=
  mk (lat p) (lng p) v (active p) (beached p) (age p) (thickness p)
     (evaporated p) (dispersed p) (emulsionWater p) (viscosity p).
Definition set_active (v : bool) (p : t) : t :=
  mk (lat p) (lng p) (mass p) v (beached p) (age p) (thickness p)
     (evaporated p) (dispersed p) (emulsionWater p) (viscosity p).
Definition set_beached (v : bool) (p : t) : t :=
  mk (lat p) (lng p) (mass p) (active p) v (age p) (thickness p)
     (evaporated p) (dispersed p) (emulsionWater p) (viscosity p).
Definition set_age (v : R) (p : t) : t :=
  mk (lat p) (lng p) (mass p) (active p) (beached p) v (thickness p)
     (evaporated p) (dispersed p) (emulsionWater p) (viscosity p).
Definition set_thickness (v : R) (p : t) : t :=
  mk (lat p) (lng p) (mass p) (active p) (beached p) (age p) v
     (evaporated p) (dispersed p) (emulsionWater p) (viscosity p).
Definition set_evaporated (v : R) (p : t) : t :=
  mk (lat p) (lng p) (mass p) (active p) (beached p) (age p) (thickness p)
     v (dispersed p) (emulsionWater p) (viscosity p).
Definition set_dispersed (v : R) (p : t) : t :=
  mk (lat p) (lng p) (mass p) (active p) (beached p) (age p) (thickness p)
     (evaporated p) v (emulsionWater p) (viscosity p).
Definition set_emulsionWater (v : R) (p : t) : t :=
  mk (lat p) (lng p) (mass p) (active p) (beached p) (age p) (thickness p)
     (evaporated p) (dispersed p) v (viscosity p).
Definition set_viscosity (v : R) (p : t) : t :=
  mk (lat p) (lng p) (mass p) (active p) (beached p) (age p) (thickness p)
     (evaporated p) (dispersed p) (emulsionWater p) v.

End Particle.

(** ** OilSpillSimulation *)

Inductive SpillMode : Type := instant | continuous.

(** The fields of the simulation object that the engine reads and never
    writes: the run's configuration and the loaded grids. *)
Record Config : Type := mkConfig {
  timeStep : R;
  maxTime : R;
  playbackSpeed : nat;
  spillLat : R;
  spillLng : R;
  oilVolume : R;
  oilType : OilType;
  particleCount : nat;
  spillMode : SpillMode;
  spillDuration : R;
  windSpeed : R;
  windDir : R;
  currentSpeed : R;
  currentDir : R;
  waterTemp : R;
  windGrid : option Grid.t;
  currentGrid : option Grid.t;
  tempGrid : option Grid.t;
  landMask : option Grid.t;
  useGridData : bool;
  gridTimeOffset : R
}.

(** [this.stats]; the two last keys exist only once a full update has
    run. *)
Record Stats : Type := mkStats {
  st_area : R;
  st_remaining : R;
  st_evaporated : R;
  st_dispersed : R;
  st_centerLat : R;
  st_centerLng : R;
  st_maxDrift : R;
  st_emulsionWater : option R;
  st_viscosity : option R;
  st_beached : nat
}.

Record TrajPoint : Type := mkTraj {
  tr_time : R;
  tr_lat : R;
  tr_lng : R
}.

(** The fields the engine writes, together with the state of
    [Math.random]. *)
Record State : Type := mkState {
  particles : list Particle.t;
  time : R;
  particlesReleased : nat;
  stats : Stats;
  trajectory : list TrajPoint;
  isRunning : bool;
  rng : Js.RNG
}.

Definition oilProps (cfg : Config) : OilProps := OIL_PROPERTIES (oilType cfg).

Definition present {A : Type} (o : option A) : bool :=
  match o with Some _ => true | None => false end.

(** [get hasGridData] *)
Definition hasGridData (cfg : Config) : bool :=
  present (windGrid cfg) || present (currentGrid cfg) || present (tempGrid cfg).

Definition initialStats (cfg : Config) : Stats :=
  mkStats 0 100 0 0 (spillLat cfg) (spillLng cfg) 0 None None 0.

(** A point of the disk of radius [radius] around the spill, from two
    draws (the angle first). *)
Definition diskPoint (cfg : Config) (radius : R) (g : Js.RNG) : R * R * Js.RNG :=
  let '(a, g1) := Js.random g in
  let angle := a * 2 * PI in
  let '(b, g2) := Js.random g1 in
  let r := sqrt b * radius in
  (spillLat cfg + r * cos angle,
   spillLng cfg + r * sin angle / cos (spillLat cfg * DEG_TO_RAD),
   g2).

Fixpoint initInstant (cfg : Config) (massPerParticle : R) (n : nat) (g : Js.RNG)
  : list Particle.t * Js.RNG :=
  match n with
  | O => ([], g)
  | S n' =>
      let '(la, ln, g1) := diskPoint cfg 0.002 g in
      let p := Particle.set_viscosity (oilViscosity (oilProps cfg))
                 (Particle.new la ln massPerParticle) in
      let '(ps, g2) := initInstant cfg massPerParticle n' g1 in
      (p :: ps, g2)
  end.

Definition initContinuous (cfg : Config) (massPerParticle : R) : list Particle.t :=
  repeat
    (Particle.set_active false
       (Particle.set_viscosity (oilViscosity (oilProps cfg))
          (Particle.new (spillLat cfg) (spillLng cfg) massPerParticle)))
    (particleCount cfg).

(** [initialize()], from the state of the random stream. *)
Definition initialize (cfg : Config) (g : Js.RNG) : State :=
  let massPerParticle := oilVolume cfg * 1000 / INR (particleCount cfg) in
  match spillMode cfg with
  | continuous =>
      mkState (initContinuous cfg massPerParticle) 0 0 (initialStats cfg) [] false g
  | instant =>
      let '(ps, g') := initInstant cfg massPerParticle (particleCount cfg) g in
      mkState ps 0 (particleCount cfg) (initialStats cfg) [] false g'
  end.

(** Writing [ps[k]]. *)
Fixpoint setNth (k : nat) (p : Particle.t) (ps : list Particle.t) : list Particle.t :=
  match ps, k with
  | [], _ => []
  | _ :: rest, O => p :: rest
  | q :: rest, S k' => q :: setNth k' p rest
  end.

(** The body of the release loop: particle number [released] is placed
    and activated.  A missing particle is a [TypeError] ([None]). *)
Definition releaseOne (cfg : Config) (ps : list Particle.t) (released : nat)
    (g : Js.RNG) : option (list Particle.t * Js.RNG) :=
  match nth_error ps released with
  | None => None
  | Some p =>
      let '(la, ln, g') := diskPoint cfg 0.001 g in
      let p' := Particle.set_age 0
                  (Particle.set_active true
                     (Particle.set_lng ln (Particle.set_lat la p))) in
      Some (setNth released p' ps, g')
  end.

(** [for (i = 0; i < toRelease && released < particleCount; i++)] with
    [todo] iterations left. *)
Fixpoint releaseLoop (cfg : Config) (todo : nat) (ps : list Particle.t)
    (released : nat) (g : Js.RNG) : option (list Particle.t * nat * Js.RNG) :=
  match todo with
  | O => Some (ps, released, g)
  | S todo' =>
      if (released <? particleCount cfg)%nat then
        match releaseOne cfg ps released g with
        | None => None
        | Some (ps', g') => releaseLoop cfg todo' ps' (S released) g'
        end
      else Some (ps, released, g)
  end.

Definition isContinuous (m : SpillMode) : bool :=
  match m with continuous => true | instant => false end.

(** [targetReleased] of the release block; the floor is taken of the
    exact quotient and product. *)
Definition targetReleased (cfg : Config) (tm : R) : Z :=
  Z.min
    (Zfloor ((tm + timeStep cfg) / (spillDuration cfg * 3600) * INR (particleCount cfg)))
    (Z.of_nat (particleCount cfg)).

(** The release schedule at the head of [_step]. *)
Definition release (cfg : Config) (s : State)
  : option (list Particle.t * nat * Js.RNG) :=
  if isContinuous (spillMode cfg) && (particlesReleased s <? particleCount cfg)%nat then
    let spillDurSec := spillDuration cfg * 3600 in
    if Js.ltb (time s) spillDurSec then
      let toRelease := (targetReleased cfg (time s) - Z.of_nat (particlesReleased s))%Z in
      releaseLoop cfg (Z.to_nat toRelease) (particles s) (particlesReleased s) (rng s)
    else Some (particles s, particlesReleased s, rng s)
  else Some (particles s, particlesReleased s, rng s).

(** The uniform (slider) drift vector, diffusion coefficient and wind
    speed computed once per step; with grids in use the initial values
    are kept. *)
Record Scalars : Type := mkScalars {
  globalTotalU : R;
  globalTotalV : R;
  globalDiffCoeff : R;
  globalWs : R
}.

Definition scalarField (cfg : Config) (tm : R) (useGrid : bool) : Scalars :=
  if negb useGrid then
    let timeVariation := sin (tm * 0.0002) * 0.1 in
    let ws := windSpeed cfg * (1 + timeVariation) in
    let wd := windDir cfg + 5 * sin (tm * 0.0003) in
    let cs := currentSpeed cfg * (1 + 0.05 * sin (tm * 0.0005)) in
    let cd := currentDir cfg + 3 * cos (tm * 0.0004) in
    let windGoRad := Js.rem (wd + 180) 360 * DEG_TO_RAD in
    let currentGoRad := cd * DEG_TO_RAD in
    let windDriftU := ws * WIND_DRIFT_FACTOR * sin (windGoRad + WIND_DEFLECTION) in
    let windDriftV := ws * WIND_DRIFT_FACTOR * cos (windGoRad + WIND_DEFLECTION) in
    let currentU := cs * sin currentGoRad in
    let currentV := cs * cos currentGoRad in
    mkScalars (windDriftU + currentU) (windDriftV + currentV) (1.0 + 0.5 * ws) ws
  else mkScalars 0 0 1.0 (windSpeed cfg).

(** Everything the particle loop reads that is fixed during one step. *)
Record StepEnv : Type := mkEnv {
  env_dt : R;
  env_props : OilProps;
  env_useGrid : bool;
  env_gridT : R;
  env_scalars : Scalars;
  env_repWs : R;
  env_evapFraction : R;
  env_dispersFraction : R;
  env_emulsionWater : R
}.

Definition stepEnv (cfg : Config) (tm : R) : StepEnv :=
  let dt := timeStep cfg in
  let props := oilProps cfg in
  let useGrid := useGridData cfg && hasGridData cfg in
  let gridT := tm / 3600 + gridTimeOffset cfg in
  let hoursElapsed := tm / 3600 in
  let sc := scalarField cfg tm useGrid in
  let repWs := if useGrid then 5.0 else globalWs sc in
  mkEnv dt props useGrid gridT sc repWs
    (calcEvaporation props hoursElapsed (waterTemp cfg) repWs)
    (calcDispersion props repWs hoursElapsed)
    (calcEmulsion hoursElapsed repWs).

(** The two components sampled from one grid at the particle, or zero
    when the grid is missing or does not cover the particle.  A [NaN]
    sample would make the particle's position [NaN]; the model stops
    there ([None]). *)
Definition gridVector (og : option Grid.t) (varU varV : string)
    (p : Particle.t) (gridT : R) : option (R * R) :=
  match og with
  | None => Some (0, 0)
  | Some g =>
      if Grid.contains g (Particle.lat p) (Particle.lng p) then
        match Grid.sample g varU (Particle.lat p) (Particle.lng p) (Some gridT),
              Grid.sample g varV (Particle.lat p) (Particle.lng p) (Some gridT) with
        | Some u, Some v => Some (u, v)
        | _, _ => None
        end
      else Some (0, 0)
  end.

(** [totalU], [totalV] and [diffCoeff] of one particle. *)
Definition drift (cfg : Config) (env : StepEnv) (p : Particle.t) : option (R * R * R) :=
  if env_useGrid env then
    match gridVector (windGrid cfg) "u10" "v10" p (env_gridT env),
          gridVector (currentGrid cfg) "uo" "vo" p (env_gridT env) with
    | Some (u10, v10), Some (uo, vo) =>
        let windSpeed := sqrt (u10 * u10 + v10 * v10) in
        let windAngle := Js.atan2 u10 v10 in
        let driftU := windSpeed * WIND_DRIFT_FACTOR * sin (windAngle + WIND_DEFLECTION) in
        let driftV := windSpeed * WIND_DRIFT_FACTOR * cos (windAngle + WIND_DEFLECTION) in
        Some (driftU + uo, driftV + vo, 1.0 + 0.5 * windSpeed)
    | _, _ => None
    end
  else
    Some (globalTotalU (env_scalars env), globalTotalV (env_scalars env),
          globalDiffCoeff (env_scalars env)).

(** The land-mask test on a particle that has just been moved by
    [(dLat, dLng)]. *)
Definition grounding (cfg : Config) (dLat dLng : R) (p : Particle.t) : Particle.t :=
  match landMask cfg with
  | None => p
  | Some m =>
      if Grid.contains m (Particle.lat p) (Particle.lng p) then
        match Grid.sample m "lsm" (Particle.lat p) (Particle.lng p) None with
        | Some lsm =>
            if Js.ltb 0.5 lsm then
              Particle.set_beached true
                (Particle.set_active false
                   (Particle.set_lng (Particle.lng p - dLng)
                      (Particle.set_lat (Particle.lat p - dLat) p)))
            else p
        | None => p
        end
      else p
  end.

Section Engine.

(** The number of rounds of the Box-Muller rejection loop that the
    model follows; a loop that needs more is not followed ([None]). *)
Variable rounds : nat.

Fixpoint gaussLoop (todo : nat) (g : Js.RNG) : option (R * Js.RNG) :=
  match todo with
  | O => None
  | S todo' =>
      let '(a, g1) := Js.random g in
      let u := a * 2 - 1 in
      let '(b, g2) := Js.random g1 in
      let v := b * 2 - 1 in
      let s := u * u + v * v in
      if Js.leb 1 s || Js.eqb s 0 then gaussLoop todo' g2
      else Some (u * sqrt (-2 * ln s / s), g2)
  end.

(** [_gaussRandom()] *)
Definition gaussRandom (g : Js.RNG) : option (R * Js.RNG) := gaussLoop rounds g.

(** The weathering assignments of the loop body, up to the residual
    mass test. *)
Definition weather (env : StepEnv) (p : Particle.t) : Particle.t :=
  let p := Particle.set_age (Particle.age p + env_dt env) p in
  let p := Particle.set_evaporated
             (Rmin (env_evapFraction env) (volatileFrac (env_props env))) p in
  let p := Particle.set_dispersed (Rmin (env_dispersFraction env) 0.3) p in
  let p := Particle.set_emulsionWater (env_emulsionWater env) p in
  let viscMult := exp (5 * Particle.evaporated p) *
                  (1 / Js.pow (1 - Particle.emulsionWater p) 2.5) in
  Particle.set_viscosity (oilViscosity (env_props env) * viscMult) p.

Definition remainFrac (p : Particle.t) : R :=
  1 - Particle.evaporated p - Particle.dispersed p.

(** Mass and Fay thickness of a particle that stays in the water. *)
Definition spread (cfg : Config) (p : Particle.t) : Particle.t :=
  let p := Particle.set_mass
             (oilVolume cfg * 1000 / INR (particleCount cfg) * remainFrac p) p in
  let tHours := Particle.age p / 3600 in
  if Js.ltb 0 tHours
  then Particle.set_thickness (0.01 * Js.pow tHours (-0.33)) p
  else p.

(** The displacement in degrees of a particle, from its drift vector
    and two Gaussian draws. *)
Definition displacement (cfg : Config) (env : StepEnv) (p : Particle.t)
    (g : Js.RNG) : option (R * R * Js.RNG) :=
  match drift cfg env p with
  | None => None
  | Some (totalU, totalV, diffCoeff) =>
      match gaussRandom g with
      | None => None
      | Some (n1, g1) =>
          match gaussRandom g1 with
          | None => None
          | Some (n2, g2) =>
              let dt := env_dt env in
              let randomU := n1 * sqrt (2 * diffCoeff * dt) in
              let randomV := n2 * sqrt (2 * diffCoeff * dt) in
              let du := totalU * dt + randomU in
              let dv := totalV * dt + randomV in
              let dLat := dv / EARTH_RADIUS * RAD_TO_DEG in
              let dLng := du / (EARTH_RADIUS * cos (Particle.lat p * DEG_TO_RAD))
                          * RAD_TO_DEG in
              Some (dLat, dLng, g2)
          end
      end
  end.

Definition move (dLat dLng : R) (p : Particle.t) : Particle.t :=
  Particle.set_lng (Particle.lng p + dLng)
    (Particle.set_lat (Particle.lat p + dLat) p).

(** One iteration of the particle loop of [_step]. *)
Definition stepParticle (cfg : Config) (env : StepEnv) (p : Particle.t)
    (g : Js.RNG) : option (Particle.t * Js.RNG) :=
  if negb (Particle.active p) then Some (p, g)
  else
    let p := weather env p in
    if Js.ltb (remainFrac p) 0.05 then Some (Particle.set_active false p, g)
    else
      let p := spread cfg p in
      match displacement cfg env p g with
      | None => None
      | Some (dLat, dLng, g') =>
          Some (grounding cfg dLat dLng (move dLat dLng p), g')
      end.

Fixpoint stepParticles (cfg : Config) (env : StepEnv) (ps : list Particle.t)
    (g : Js.RNG) : option (list Particle.t * Js.RNG) :=
  match ps with
  | [] => Some ([], g)
  | p :: rest =>
      match stepParticle cfg env p g with
      | None => None
      | Some (p', g1) =>
          match stepParticles cfg env rest g1 with
          | None => None
          | Some (rest', g2) => Some (p' :: rest', g2)
          end
      end
  end.

Definition activeParticles (ps : list Particle.t) : list Particle.t :=
  filter Particle.active ps.

Definition sumOf (f : Particle.t -> R) (ps : list Particle.t) : R :=
  fold_left (fun s p => s + f p) ps 0.

(** The hourly trajectory sample at the end of [_step]. *)
Definition sampleTrajectory (dt tm : R) (ps : list Particle.t)
    (traj : list TrajPoint) : list TrajPoint :=
  if Js.ltb (Js.rem tm 3600) dt then
    let act := activeParticles ps in
    if (0 <? List.length act)%nat then
      let cLat := sumOf Particle.lat act / INR (List.length act) in
      let cLng := sumOf Particle.lng act / INR (List.length act) in
      traj ++ [mkTraj tm cLat cLng]
    else traj
  else traj.

(** [_step()] *)
Definition step (cfg : Config) (s : State) : option State :=
  let env := stepEnv cfg (time s) in
  match release cfg s with
  | None => None
  | Some (ps1, released, g1) =>
      match stepParticles cfg env ps1 g1 with
      | None => None
      | Some (ps2, g2) =>
          let tm := time s + timeStep cfg in
          Some (mkState ps2 tm released (stats s)
                  (sampleTrajectory (timeStep cfg) tm ps2 (trajectory s))
                  (isRunning s) g2)
      end
  end.

(** [_haversineDistance(lat1, lng1, lat2, lng2)] *)
Definition haversineDistance (lat1 lng1 lat2 lng2 : R) : R :=
  let dLat := (lat2 - lat1) * DEG_TO_RAD in
  let dLng := (lng2 - lng1) * DEG_TO_RAD in
  let a := Js.sqr (sin (dLat / 2)) +
           cos (lat1 * DEG_TO_RAD) * cos (lat2 * DEG_TO_RAD) *
           Js.sqr (sin (dLng / 2)) in
  2 * EARTH_RADIUS * Js.atan2 (sqrt a) (sqrt (1 - a)).

Definition beachedCount (ps : list Particle.t) : nat :=
  List.length (filter Particle.beached ps).

Definition setBeached (n : nat) (st : Stats) : Stats :=
  mkStats (st_area st) (st_remaining st) (st_evaporated st) (st_dispersed st)
    (st_centerLat st) (st_centerLng st) (st_maxDrift st)
    (st_emulsionWater st) (st_viscosity st) n.

(** The statistics object built when some particle is active; [rep] is
    the first active particle. *)
Definition fullStats (cfg : Config) (rep : Particle.t) (act : list Particle.t)
    (nBeached : nat) : Stats :=
  let n := INR (List.length act) in
  let cLat := sumOf Particle.lat act / n in
  let cLng := sumOf Particle.lng act / n in
  let latStd := sqrt (sumOf (fun p => Js.sqr (Particle.lat p - cLat)) act / n) in
  let lngStd := sqrt (sumOf (fun p => Js.sqr (Particle.lng p - cLng)) act / n) in
  let latKm := latStd * 111.32 in
  let lngKm := lngStd * 111.32 * cos (cLat * DEG_TO_RAD) in
  let area := PI * latKm * lngKm * 4 in
  let maxDrift :=
    fold_left
      (fun m p => Rmax m (haversineDistance (spillLat cfg) (spillLng cfg)
                            (Particle.lat p) (Particle.lng p)))
      act 0 in
  mkStats area
    ((1 - Particle.evaporated rep - Particle.dispersed rep) * 100)
    (Particle.evaporated rep * 100)
    (Particle.dispersed rep * 100)
    cLat cLng (maxDrift / 1000)
    (Some (Particle.emulsionWater rep * 100))
    (Some (Particle.viscosity rep))
    nBeached.

(** [_updateStats()] *)
Definition updateStatsOf (cfg : Config) (ps : list Particle.t) (st : Stats) : Stats :=
  let act := activeParticles ps in
  let nBeached := beachedCount ps in
  if (List.length act =? 0)%nat && (nBeached =? 0)%nat then st
  else
    let st := setBeached nBeached st in
    match act with
    | [] => st
    | rep :: _ => fullStats cfg rep act nBeached
    end.

Definition updateStats (cfg : Config) (s : State) : State :=
  mkState (particles s) (time s) (particlesReleased s)
    (updateStatsOf cfg (particles s) (stats s))
    (trajectory s) (isRunning s) (rng s).

Definition setRunning (b : bool) (s : State) : State :=
  mkState (particles s) (time s) (particlesReleased s) (stats s)
    (trajectory s) b (rng s).

(** The [for] loop of [_tick]: at most [todo] steps; the flag tells
    whether the horizon was met, which ends the run before the
    statistics update. *)
Fixpoint tickLoop (cfg : Config) (todo : nat) (s : State) : option (State * bool) :=
  match todo with
  | O => Some (s, false)
  | S todo' =>
      if Js.leb (maxTime cfg) (time s) then Some (setRunning false s, true)
      else
        match step cfg s with
        | None => None
        | Some s' => tickLoop cfg todo' s'
        end
  end.

(** One frame of [_tick()] whose 50 ms interval has elapsed. *)
Definition tick (cfg : Config) (s : State) : option State :=
  if negb (isRunning s) then Some s
  else
    match tickLoop cfg (playbackSpeed cfg) s with
    | None => None
    | Some (s', true) => Some s'
    | Some (s', false) => Some (updateStats cfg s')
    end.

(** [start()] on a freshly initialised simulation, without the first
    frame. *)
Definition start (s : State) : State := setRunning true s.

(** [n] frames. *)
Fixpoint frames (cfg : Config) (n : nat) (s : State) : option State :=
  match n with
  | O => Some s
  | S n' =>
      match tick cfg s with
      | None => None
      | Some s' => frames cfg n' s'
      end
  end.

End Engine.

(** ** Relations and predicates of the statements *)

(** The evaporation fraction as the specification words it. *)
Definition evaporationFraction (P : OilProps) (h T W : R) : R :=
  if Rle_dec h 0 then 0
  else Rmin (evapRate P * (1 + 0.045 * (T - 15)) * sqrt h * (1 + 0.01 * W))
            (volatileFrac P).

(** Every two consecutive draws fall strictly inside the unit disk and
    away from its centre. *)
Definition accepting (g : Js.RNG) : Prop :=
  forall n : nat,
    let u := g n * 2 - 1 in
    let v := g (S n) * 2 - 1 in
    u * u + v * v < 1 /\ u * u + v * v <> 0.

(** Fields that [spread], [move] and [grounding] leave alone. *)
Definition sameWeathering (p q : Particle.t) : Prop :=
  Particle.evaporated q = Particle.evaporated p /\
  Particle.dispersed q = Particle.dispersed p /\
  Particle.emulsionWater q = Particle.emulsionWater p /\
  Particle.age q = Particle.age p.

(** The two outcomes of the land-mask test. *)
Definition grounded (dLat dLng : R) (p : Particle.t) : Particle.t :=
  Particle.set_beached true
    (Particle.set_active false
       (Particle.set_lng (Particle.lng p - dLng)
          (Particle.set_lat (Particle.lat p - dLat) p))).

(** The mask covers the particle and reads more than 0.5 there. *)
Definition overLand (m : Grid.t) (p : Particle.t) : bool :=
  Grid.contains m (Particle.lat p) (Particle.lng p) &&
  match Grid.sample m "lsm" (Particle.lat p) (Particle.lng p) None with
  | Some lsm => Js.ltb 0.5 lsm
  | None => false
  end.

Definition onLand (cfg : Config) (p : Particle.t) : bool :=
  match landMask cfg with
  | None => false
  | Some m => overLand m p
  end.

(** What an iteration of the loop does to a particle, by cases. *)
Inductive particleStep (rounds : nat) (cfg : Config) (env : StepEnv) (p : Particle.t)
  : Particle.t -> Prop :=
| ps_skipped :
    Particle.active p = false -> particleStep rounds cfg env p p
| ps_exhausted :
    Particle.active p = true ->
    remainFrac (weather env p) < 0.05 ->
    particleStep rounds cfg env p (Particle.set_active false (weather env p))
| ps_advected g dLat dLng g' :
    Particle.active p = true ->
    0.05 <= remainFrac (weather env p) ->
    displacement rounds cfg env (spread cfg (weather env p)) g = Some (dLat, dLng, g') ->
    particleStep rounds cfg env p
      (grounding cfg dLat dLng (move dLat dLng (spread cfg (weather env p)))).

Definition placed (la ln : R) (p : Particle.t) : Particle.t :=
  Particle.set_age 0
    (Particle.set_active true (Particle.set_lng ln (Particle.set_lat la p))).

(** A particle across the release loop: untouched, or placed on the
    disk and activated. *)
Inductive releaseStep (p : Particle.t) : Particle.t -> Prop :=
| rs_kept : releaseStep p p
| rs_placed la ln : releaseStep p (placed la ln p).

(** A particle across a whole step: released or kept, then one
    iteration of the particle loop. *)
Definition acrossStep (rounds : nat) (cfg : Config) (env : StepEnv) (p p' : Particle.t) : Prop :=
  exists q, releaseStep p q /\ particleStep rounds cfg env q p'.

Definition gridNumeric (og : option Grid.t) : Prop :=
  forall g, og = Some g ->
  forall var la ln th, Grid.sample g var la ln th <> None.

(** The wind and current grids never return [NaN]. *)
Definition numericGrids (cfg : Config) : Prop :=
  gridNumeric (windGrid cfg) /\ gridNumeric (currentGrid cfg).

(** The states of a run: [initialize], then any sequence of [start],
    steps, statistics updates and the end-of-run flag. *)
Inductive reachable (rounds : nat) (cfg : Config) : State -> Prop :=
| reach_init g : reachable rounds cfg (initialize cfg g)
| reach_running b s : reachable rounds cfg s -> reachable rounds cfg (setRunning b s)
| reach_step s s' :
    reachable rounds cfg s -> step rounds cfg s = Some s' -> reachable rounds cfg s'
| reach_stats s : reachable rounds cfg s -> reachable rounds cfg (updateStats cfg s).

Definition weatheringBounds (P : OilProps) (p : Particle.t) : Prop :=
  0 <= Particle.evaporated p <= volatileFrac P /\
  0 <= Particle.dispersed p <= 0.3 /\
  0 <= Particle.emulsionWater p <= 0.7.

(** The bounds that hold whatever the temperature and the wind. *)
Definition weatheringCaps (P : OilProps) (p : Particle.t) : Prop :=
  Particle.evaporated p <= volatileFrac P /\
  0 <= Particle.dispersed p <= 0.3 /\
  0 <= Particle.emulsionWater p <= 0.7.

(** The water is not colder than −65/9 °C (so that the evaporation
    coefficient K is not negative) and the wind speed is not negative. *)
Definition mildConditions (cfg : Config) : Prop :=
  - 65 / 9 <= waterTemp cfg /\ 0 <= windSpeed cfg.



(** [sim.useGridData = b] *)
Definition setUseGridData (b : bool) (cfg : Config) : Config :=
  mkConfig (timeStep cfg) (maxTime cfg) (playbackSpeed cfg) (spillLat cfg)
    (spillLng cfg) (oilVolume cfg) (oilType cfg) (particleCount cfg)
    (spillMode cfg) (spillDuration cfg) (windSpeed cfg) (windDir cfg)
    (currentSpeed cfg) (currentDir cfg) (waterTemp cfg) (windGrid cfg)
    (currentGrid cfg) (tempGrid cfg) (landMask cfg) b (gridTimeOffset cfg).

(** [n] steps in a row. *)
Fixpoint steps (rounds : nat) (cfg : Config) (n : nat) (s : State) : option State :=
  match n with
  | O => Some s
  | S n' =>
      match step rounds cfg s with
      | None => None
      | Some s' => steps rounds cfg n' s'
      end
  end.

(** The state of [Math.random] when the particle loop reaches index
    [i]: the one left by its first [i] iterations. *)
Definition streamAt (rounds : nat) (cfg : Config) (env : StepEnv)
    (ps : list Particle.t) (g : Js.RNG) (i : nat) : option Js.RNG :=
  match stepParticles rounds cfg env (firstn i ps) g with
  | Some (_, g0) => Some g0
  | None => None
  end.

(** The particle [p] as the release block leaves it when it draws the
    release point from the stream [g]. *)
Definition releasedFrom (cfg : Config) (g : Js.RNG) (p : Particle.t) : Particle.t :=
  let '(la, ln, _) := diskPoint cfg 0.001 g in placed la ln p.

(** The particle [q] put at the position [(la, ln)]. *)
Definition at_ (la ln : R) (q : Particle.t) : Particle.t :=
  Particle.set_lng ln (Particle.set_lat la q).

(** What a step at time [tm] makes of the particle [q] that it advects
    in scalar mode with the mask [m] loaded, the two Gaussian draws being
    [n1] and [n2]: weathering from the time-perturbed scalar wind, the
    displacement from the scalar drift vector, then the mask test at the
    new position. *)
Definition scalarOutcome (cfg : Config) (m : Grid.t) (tm : R) (q : Particle.t)
    (n1 n2 : R) (p' : Particle.t) : Prop :=
  let dt := timeStep cfg in
  let ws := windSpeed cfg * (1 + sin (tm * 0.0002) * 0.1) in
  let sc := scalarField cfg tm false in
  let D := 1.0 + 0.5 * ws in
  let dLat := (globalTotalV sc * dt + n2 * sqrt (2 * D * dt)) / EARTH_RADIUS * RAD_TO_DEG in
  let dLng := (globalTotalU sc * dt + n1 * sqrt (2 * D * dt))
              / (EARTH_RADIUS * cos (Particle.lat q * DEG_TO_RAD)) * RAD_TO_DEG in
  let e := Rmin (calcEvaporation (oilProps cfg) (tm / 3600) (waterTemp cfg) ws)
             (volatileFrac (oilProps cfg)) in
  let d := Rmin (calcDispersion (oilProps cfg) ws (tm / 3600)) 0.3 in
  Particle.age p' = Particle.age q + dt /\
  Particle.evaporated p' = e /\
  Particle.dispersed p' = d /\
  Particle.emulsionWater p' = calcEmulsion (tm / 3600) ws /\
  Particle.mass p' = oilVolume cfg * 1000 / INR (particleCount cfg) * (1 - e - d) /\
  if overLand m (at_ (Particle.lat q + dLat) (Particle.lng q + dLng) q)
  then Particle.active p' = false /\ Particle.beached p' = true /\
       Particle.lat p' = Particle.lat q /\ Particle.lng p' = Particle.lng q
  else Particle.active p' = true /\ Particle.beached p' = Particle.beached q /\
       Particle.lat p' = Particle.lat q + dLat /\
       Particle.lng p' = Particle.lng q + dLng.

(** The fraction that remains of a particle weathered in scalar mode at
    time [tm]. *)
Definition scalarRemain (cfg : Config) (tm : R) : R :=
  let ws := windSpeed cfg * (1 + sin (tm * 0.0002) * 0.1) in
  1 - Rmin (calcEvaporation (oilProps cfg) (tm / 3600) (waterTemp cfg) ws)
        (volatileFrac (oilProps cfg))
    - Rmin (calcDispersion (oilProps cfg) ws (tm / 3600)) 0.3.





(** The release runs over the whole horizon. *)
Definition releaseOverHorizon (cfg : Config) : Prop :=
  spillMode cfg = continuous /\ spillDuration cfg * 3600 = maxTime cfg.

(** The counter never passes the particle count, and it has reached
    it once the horizon is met; a run that is no longer running has met
    the horizon. *)
Definition scheduleInv (cfg : Config) (s : State) : Prop :=
  (particlesReleased s <= particleCount cfg)%nat /\
  0 <= time s /\
  (maxTime cfg <= time s -> particlesReleased s = particleCount cfg) /\
  (isRunning s = true \/ maxTime cfg <= time s).

(** States from which every step runs to its end. *)
Definition steady (cfg : Config) (s : State) : Prop :=
  accepting (rng s) /\ (particleCount cfg <= List.length (particles s))%nat.

(** The value of the Box-Muller transform on two draws. *)
Definition gaussOf (a b : R) : R :=
  let u := a * 2 - 1 in
  let v := b * 2 - 1 in
  let s := u * u + v * v in
  u * sqrt (-2 * ln s / s).

Definition skip (k : nat) (g : Js.RNG) : Js.RNG := fun n => g (k + n)%nat.

(** The displacement in degrees from a drift vector and four draws. *)
Definition displacementOf (totalU totalV diffCoeff dt la : R) (g : Js.RNG) : R * R :=
  let randomU := gaussOf (g 0%nat) (g 1%nat) * sqrt (2 * diffCoeff * dt) in
  let randomV := gaussOf (g 2%nat) (g 3%nat) * sqrt (2 * diffCoeff * dt) in
  let du := totalU * dt + randomU in
  let dv := totalV * dt + randomV in
  (dv / EARTH_RADIUS * RAD_TO_DEG,
   du / (EARTH_RADIUS * cos (la * DEG_TO_RAD)) * RAD_TO_DEG).

(** An axis of at least two points, strictly ascending from its first
    to its last point and uniformly spaced. *)
Definition uniformAxis (l : list R) : Prop :=
  (2 <= List.length l)%nat /\
  nth 0 l 0 < nth (List.length l - 1) l 0 /\
  forall i : nat, (i < List.length l)%nat ->
    nth i l 0 =
    nth 0 l 0 +
    INR i * ((nth (List.length l - 1) l 0 - nth 0 l 0) / INR (List.length l - 1)).

(** A time axis whose points strictly ascend. *)
Definition ascending (l : list R) : Prop :=
  forall a b : nat, (a < b < List.length l)%nat -> nth a l 0 < nth b l 0.

(** ** Concrete configurations *)

(** A one-particle instantaneous crude spill in scalar mode, with step
    [dt] and water temperature [T]; no grid is loaded. *)
Definition scalarRun (dt T : R) : Config :=
  mkConfig dt (48 * 3600) 2 38.5 119.0 500 crude 1 instant 12
    5.0 180 0.3 90 T None None None None true 0.

(** Every draw is 3/4. *)
Definition steadyDraws : Js.RNG := Js.constant (3 / 4).

(** A continuous one-particle release at the origin over one hour, in
    still air and water, with a land mask that is land everywhere on
    [-1, 1] x [-1, 1]. *)
Definition coastJson : Grid.Json :=
  Grid.mkJson [-1; 1] [-1; 1] None [("lsm"%string, [1; 1; 1; 1])].

Definition coastMask : Grid.t := Grid.new (fun x => x) coastJson.

Definition coastRun : Config :=
  mkConfig 3600 3600 1 0 0 500 crude 1 continuous 1
    0 180 0 90 18 None None None (Some coastMask) true 0.

(** An instant one-particle spill at the origin in still air, with a
    current of 1 m/s that sets due north at time 0 and the same land
    mask. *)
Definition shoreRun : Config :=
  mkConfig 3600 (48 * 3600) 1 0 0 500 crude 1 instant 12
    0 180 1 (-3) 18 None None None (Some coastMask) true 0.

(** The draws alternate between 1/2 and 3/4. *)
Definition alternatingDraws : Js.RNG :=
  fun n => if Nat.even n then 1 / 2 else 3 / 4.

Definition coastStart : State := initialize coastRun alternatingDraws.

(** The lower cell index of a clamped coordinate on an axis of [n]
    points. *)
Definition cellIndex (x : R) (n : Z) : Z :=
  Z.min (Zfloor (Rmax 0 (Rmin x (IZR (n - 1))))) (n - 2).

(** A static grid with one latitude and a time-varying grid with one
    time slice. *)
Definition singleRowJson : Grid.Json :=
  Grid.mkJson [0] [0; 1] None [("u10"%string, [3; 4])].

Definition singleSliceJson : Grid.Json :=
  Grid.mkJson [0; 1] [0; 1] (Some [0]) [("u10"%string, [1; 2; 3; 4])].

(** The first pair of draws is rejected by the Box-Muller loop, every
    later one accepted. *)
Definition lateDraws : Js.RNG := fun n => if (n <? 2)%nat then 1 else 3 / 4.

(** A steady wind of 3 m/s eastward and 4 m/s northward over
    [-1, 1] x [-1, 1], and a run that uses it. *)
Definition galeJson : Grid.Json :=
  Grid.mkJson [-1; 1] [-1; 1] None
    [("u10"%string, [3; 3; 3; 3]); ("v10"%string, [4; 4; 4; 4])].

Definition galeGrid : Grid.t := Grid.new (fun x => x) galeJson.

Definition galeRun : Config :=
  mkConfig 3600 (48 * 3600) 1 0 0 500 crude 1 instant 12
    5.0 180 0.3 90 18 (Some galeGrid) None None None true 0.

(** Two active particles on one parallel. *)
Definition pairState : State :=
  mkState [Particle.new 1 2 250000; Particle.new 1 4 250000] 0 2
    (initialStats (scalarRun 7200 18)) [] false steadyDraws.


(** ** Further notions *)


(** A non-empty axis whose last point lies above its first one when it
    has at least two points. *)
Definition axisSpan (l : list R) : Prop :=
  (1 <= List.length l)%nat /\
  ((2 <= List.length l)%nat -> nth 0 l 0 < nth (List.length l - 1) l 0).

(** A static 2 x 2 x 2 grid in time: the field [uo] is 0 at hour 0 and
    10 at hour 6. *)
Definition tideJson : Grid.Json :=
  Grid.mkJson [0; 1] [0; 1] (Some [0; 6])
    [("uo"%string, [0; 0; 0; 0; 10; 10; 10; 10])].


(** [massPerParticle] of [initialize]. *)
Definition massPerParticle (cfg : Config) : R :=
  oilVolume cfg * 1000 / INR (particleCount cfg).

(** A particle of continuous mode that has not been released: as
    [initialize] allocated it. *)
Definition pristine (cfg : Config) : Particle.t :=
  Particle.set_active false
    (Particle.set_viscosity (oilViscosity (oilProps cfg))
       (Particle.new (spillLat cfg) (spillLng cfg) (massPerParticle cfg))).

(** A beached particle is inactive, and the mass of a particle that is
    active or beached is the initial mass times its remaining fraction. *)
Definition coherent (cfg : Config) (p : Particle.t) : Prop :=
  (Particle.beached p = true -> Particle.active p = false) /\
  (Particle.active p = true \/ Particle.beached p = true ->
   Particle.mass p = massPerParticle cfg * remainFrac p).

(** The particle array has its configured length, the release counter
    has not passed it, every particle is coherent and the particles
    from the counter on are pristine. *)
Definition arrayInv (cfg : Config) (s : State) : Prop :=
  List.length (particles s) = particleCount cfg /\
  (particlesReleased s <= particleCount cfg)%nat /\
  (spillMode cfg = instant -> particlesReleased s = particleCount cfg) /\
  forall i p, nth_error (particles s) i = Some p ->
    coherent cfg p /\ ((particlesReleased s <= i)%nat -> p = pristine cfg).

(** Every draw lies in the unit interval. *)
Definition unitDraws (g : Js.RNG) : Prop := forall n : nat, 0 <= g n <= 1.


(** The pair of draws [(a, b)] ends the Box-Muller loop. *)
Definition accepted (a b : R) : Prop :=
  let u := a * 2 - 1 in
  let v := b * 2 - 1 in
  u * u + v * v < 1 /\ u * u + v * v <> 0.

(** The grid is loaded and its bounding box contains the particle. *)
Definition covers (og : option Grid.t) (p : Particle.t) : bool :=
  match og with
  | Some g => Grid.contains g (Particle.lat p) (Particle.lng p)
  | None => false
  end.



(** The quantity [a] of [_haversineDistance], whose square root and
    complement's square root are taken. *)
Definition haversineArg (lat1 lng1 lat2 lng2 : R) : R :=
  Js.sqr (sin ((lat2 - lat1) * DEG_TO_RAD / 2)) +
  cos (lat1 * DEG_TO_RAD) * cos (lat2 * DEG_TO_RAD) *
  Js.sqr (sin ((lng2 - lng1) * DEG_TO_RAD / 2)).

(** The distance in km from the spill to a particle. *)
Definition driftKm (cfg : Config) (p : Particle.t) : R :=
  haversineDistance (spillLat cfg) (spillLng cfg) (Particle.lat p) (Particle.lng p)
  / 1000.

(** The property names that every plain object inherits from
    [Object.prototype]: [this.vars[name]] finds a value for them although
    no array is stored under them. *)
Definition objectPrototypeNames : list string :=
  ["constructor"; "__defineGetter__"; "__defineSetter__"; "hasOwnProperty";
   "__lookupGetter__"; "__lookupSetter__"; "isPrototypeOf";
   "propertyIsEnumerable"; "toString"; "valueOf"; "__proto__";
   "toLocaleString"]%string.

(** A latitude in degrees. *)
Definition latitude (la : R) : Prop := -90 <= la <= 90.


(** * Properties *)

(** ** Comparisons of the host language *)

Module JsFacts.

Lemma ltb_true a b : a < b -> Js.ltb a b = true.
Proof. unfold Js.ltb; intros H; destruct (Rlt_dec a b); [reflexivity | contradiction]. Qed.

Lemma ltb_false a b : b <= a -> Js.ltb a b = false.
Proof. unfold Js.ltb; intros H; destruct (Rlt_dec a b); [lra | reflexivity]. Qed.

Lemma leb_true a b : a <= b -> Js.leb a b = true.
Proof. unfold Js.leb; intros H; destruct (Rle_dec a b); [reflexivity | contradiction]. Qed.

Lemma leb_false a b : b < a -> Js.leb a b = false.
Proof. unfold Js.leb; intros H; destruct (Rle_dec a b); [lra | reflexivity]. Qed.


Lemma leb_spec a b : Js.leb a b = true <-> a <= b.
Proof. unfold Js.leb; destruct (Rle_dec a b); split; intros; auto; discriminate. Qed.

Lemma eqb_spec a b : Js.eqb a b = true <-> a = b.
Proof. unfold Js.eqb; destruct (Req_dec_T a b); split; intros; auto; discriminate. Qed.

End JsFacts.

(** ** Weathering *)

Lemma sqrt_48_ge_6 : 6 <= sqrt 48.
Proof.
  replace 6 with (sqrt (6 * 6)) at 1 by (apply sqrt_square; lra).
  apply sqrt_le_1_alt; lra.
Qed.

(** C7: for every oil record, elapsed hours, water temperature and wind
    speed, [_calcEvaporation] returns min(K·√h·(1 + 0.01·W), volatile_frac)
    with K = evap_rate·(1 + 0.045·(T − 15)), and 0 when h ≤ 0; for crude
    oil at 15 °C, 5 m/s and 48 h it returns 0.25. *)
Theorem calcEvaporation_spec :
  (forall P h T W, calcEvaporation P h T W = evaporationFraction P h T W) /\
  calcEvaporation (OIL_PROPERTIES crude) 48 15 5 = 0.25.
Proof.
  split.
  - intros P h T W. unfold calcEvaporation, evaporationFraction, Js.leb.
    destruct (Rle_dec h 0); reflexivity.
  - unfold calcEvaporation. rewrite JsFacts.leb_false by lra. simpl.
    apply Rmin_right. pose proof sqrt_48_ge_6. nra.
Qed.

(** ** Random streams on which the rejection loop stops at once *)

Lemma accepting_constant : accepting (Js.constant (3 / 4)).
Proof. intros n. unfold Js.constant. simpl. split; lra. Qed.

Lemma gaussLoop_accepting todo g :
  accepting g ->
  exists x, gaussLoop (S todo) g = Some (x, fun n => g (S (S n))).
Proof.
  intros H. destruct (H 0%nat) as [Hlt Hne]. simpl.
  rewrite JsFacts.leb_false by exact Hlt.
  unfold Js.eqb. destruct (Req_dec_T _ 0) as [E | _]; [contradiction |].
  simpl. eexists; reflexivity.
Qed.

Lemma diskPoint_accepting cfg radius g la ln g' :
  diskPoint cfg radius g = (la, ln, g') -> accepting g -> accepting g'.
Proof.
  unfold diskPoint. simpl. intros E H. inversion E; subst.
  intros n. exact (H (S (S n))).
Qed.

(** ** The particle loop, particle by particle *)

Lemma weather_lat env p : Particle.lat (weather env p) = Particle.lat p.
Proof. reflexivity. Qed.
Lemma weather_lng env p : Particle.lng (weather env p) = Particle.lng p.
Proof. reflexivity. Qed.
Lemma weather_active env p : Particle.active (weather env p) = Particle.active p.
Proof. reflexivity. Qed.
Lemma weather_beached env p : Particle.beached (weather env p) = Particle.beached p.
Proof. reflexivity. Qed.
Lemma weather_age env p : Particle.age (weather env p) = Particle.age p + env_dt env.
Proof. reflexivity. Qed.
Lemma weather_evaporated env p :
  Particle.evaporated (weather env p) =
  Rmin (env_evapFraction env) (volatileFrac (env_props env)).
Proof. reflexivity. Qed.
Lemma weather_dispersed env p :
  Particle.dispersed (weather env p) = Rmin (env_dispersFraction env) 0.3.
Proof. reflexivity. Qed.
Lemma weather_emulsionWater env p :
  Particle.emulsionWater (weather env p) = env_emulsionWater env.
Proof. reflexivity. Qed.

Lemma spread_sameWeathering cfg p : sameWeathering p (spread cfg p).
Proof. unfold spread. destruct (Js.ltb 0 _); repeat split. Qed.

Lemma spread_position cfg p :
  Particle.lat (spread cfg p) = Particle.lat p /\
  Particle.lng (spread cfg p) = Particle.lng p /\
  Particle.active (spread cfg p) = Particle.active p /\
  Particle.beached (spread cfg p) = Particle.beached p.
Proof. unfold spread. destruct (Js.ltb 0 _); repeat split. Qed.

Lemma spread_thickness cfg p :
  0 < Particle.age p ->
  Particle.thickness (spread cfg p) = 0.01 * Rpower (Particle.age p / 3600) (-0.33).
Proof.
  intros H. unfold spread. simpl. rewrite JsFacts.ltb_true by lra. reflexivity.
Qed.

Lemma grounding_onLand cfg dLat dLng p :
  grounding cfg dLat dLng p = if onLand cfg p then grounded dLat dLng p else p.
Proof.
  unfold grounding, onLand, overLand. destruct (landMask cfg) as [m |]; [| reflexivity].
  destruct (Grid.contains m _ _); simpl; [| reflexivity].
  destruct (Grid.sample m _ _ _ _) as [lsm |]; [| reflexivity].
  destruct (Js.ltb 0.5 lsm); reflexivity.
Qed.

Lemma grounding_sameWeathering cfg dLat dLng p :
  sameWeathering p (grounding cfg dLat dLng p) /\
  Particle.thickness (grounding cfg dLat dLng p) = Particle.thickness p.
Proof.
  rewrite grounding_onLand. destruct (onLand cfg p); repeat split.
Qed.

Section Facts.

Variable rounds : nat.

Lemma stepParticle_cases cfg env p g p' g' :
  stepParticle rounds cfg env p g = Some (p', g') -> particleStep rounds cfg env p p'.
Proof.
  unfold stepParticle. destruct (Particle.active p) eqn:Ea; simpl.
  - unfold Js.ltb. destruct (Rlt_dec (remainFrac (weather env p)) 0.05) as [Hlt | Hge].
    + intros E; inversion E; subst. now apply ps_exhausted.
    + destruct (displacement _ _ _ _) as [[[dLat dLng] g1] |] eqn:Ed; [| discriminate].
      intros E; inversion E; subst.
      eapply ps_advected; eauto. lra.
  - intros E; inversion E; subst. now apply ps_skipped.
Qed.

Lemma stepParticles_Forall2 cfg env ps : forall g ps' g',
  stepParticles rounds cfg env ps g = Some (ps', g') ->
  Forall2 (particleStep rounds cfg env) ps ps'.
Proof.
  induction ps as [| p rest IH]; simpl; intros g ps' g' E.
  - inversion E; constructor.
  - destruct (stepParticle rounds cfg env p g) as [[p1 g1] |] eqn:E1; [| discriminate].
    destruct (stepParticles rounds cfg env rest g1) as [[rest' g2] |] eqn:E2; [| discriminate].
    inversion E; subst. constructor.
    + eapply stepParticle_cases; eauto.
    + eapply IH; eauto.
Qed.

(** ** The release schedule *)

Lemma releaseStep_trans p q r :
  releaseStep p q -> releaseStep q r -> releaseStep p r.
Proof.
  intros [| la ln] H; [exact H |].
  inversion H; subst; [constructor |].
  apply (rs_placed p la0 ln0).
Qed.

Lemma Forall2_releaseStep_refl ps : Forall2 releaseStep ps ps.
Proof. induction ps; constructor; auto using rs_kept. Qed.

Lemma Forall2_releaseStep_trans ps : forall qs rs,
  Forall2 releaseStep ps qs -> Forall2 releaseStep qs rs ->
  Forall2 releaseStep ps rs.
Proof.
  induction ps as [| p ps IH]; intros qs rs H1 H2.
  - inversion H1; subst. inversion H2; subst. constructor.
  - inversion H1; subst. inversion H2; subst. constructor.
    + eapply releaseStep_trans; eauto.
    + eapply IH; eauto.
Qed.

Lemma setNth_releaseStep ps : forall k p la ln,
  nth_error ps k = Some p ->
  Forall2 releaseStep ps (setNth k (placed la ln p) ps).
Proof.
  induction ps as [| q ps IH]; intros k p la ln E.
  - destruct k; discriminate.
  - destruct k as [| k]; simpl in *.
    + inversion E; subst. constructor; [apply rs_placed | apply Forall2_releaseStep_refl].
    + constructor; [apply rs_kept | apply IH; assumption].
Qed.

Lemma releaseOne_spec cfg ps k g ps' g' :
  releaseOne cfg ps k g = Some (ps', g') ->
  Forall2 releaseStep ps ps' /\ (accepting g -> accepting g').
Proof.
  unfold releaseOne. destruct (nth_error ps k) as [p |] eqn:E; [| discriminate].
  destruct (diskPoint cfg 0.001 g) as [[la ln] g1] eqn:Ed.
  intros H; inversion H; subst. split.
  - apply setNth_releaseStep; assumption.
  - eapply diskPoint_accepting; eauto.
Qed.

Lemma releaseOne_total cfg ps k g :
  (k < List.length ps)%nat -> exists ps' g', releaseOne cfg ps k g = Some (ps', g').
Proof.
  intros H. unfold releaseOne.
  destruct (nth_error ps k) as [p |] eqn:E.
  - destruct (diskPoint cfg 0.001 g) as [[la ln] g1]. eauto.
  - apply nth_error_None in E. lia.
Qed.

Lemma releaseLoop_spec cfg todo : forall ps r g ps' r' g',
  releaseLoop cfg todo ps r g = Some (ps', r', g') ->
  Forall2 releaseStep ps ps' /\
  (accepting g -> accepting g') /\
  ((r <= particleCount cfg)%nat -> r' = Nat.min (r + todo) (particleCount cfg)).
Proof.
  induction todo as [| todo IH]; simpl; intros ps r g ps' r' g' E.
  - inversion E; subst.
    split; [apply Forall2_releaseStep_refl | split; [auto | lia]].
  - destruct (r <? particleCount cfg)%nat eqn:Er.
    + apply Nat.ltb_lt in Er.
      destruct (releaseOne cfg ps r g) as [[ps1 g1] |] eqn:E1; [| discriminate].
      apply releaseOne_spec in E1. destruct E1 as [F1 A1].
      apply IH in E. destruct E as (F2 & A2 & C2).
      split; [| split].
      * eapply Forall2_releaseStep_trans; eauto.
      * auto.
      * intros _. rewrite C2 by lia. lia.
    + apply Nat.ltb_ge in Er. inversion E; subst.
      split; [apply Forall2_releaseStep_refl | split; [auto | lia]].
Qed.

Lemma Forall2_length_eq {A B} (P : A -> B -> Prop) l l' :
  Forall2 P l l' -> List.length l = List.length l'.
Proof. induction 1; simpl; congruence. Qed.

Lemma releaseLoop_total cfg todo : forall ps r g,
  (particleCount cfg <= List.length ps)%nat ->
  exists out, releaseLoop cfg todo ps r g = Some out.
Proof.
  induction todo as [| todo IH]; simpl; intros ps r g Hlen; [eauto |].
  destruct (r <? particleCount cfg)%nat eqn:Er; [| eauto].
  apply Nat.ltb_lt in Er.
  destruct (releaseOne_total cfg ps r g) as (ps1 & g1 & E1); [lia |].
  rewrite E1. apply IH.
  apply releaseOne_spec in E1. destruct E1 as [F _].
  apply Forall2_length_eq in F. lia.
Qed.

Lemma release_spec cfg s ps' r' g' :
  release cfg s = Some (ps', r', g') ->
  Forall2 releaseStep (particles s) ps' /\
  (accepting (rng s) -> accepting g') /\
  (particlesReleased s <= r')%nat /\
  ((particlesReleased s <= particleCount cfg)%nat -> (r' <= particleCount cfg)%nat).
Proof.
  unfold release.
  destruct (isContinuous (spillMode cfg) && _) eqn:Ec.
  2:{ intros E; inversion E; subst.
      split; [apply Forall2_releaseStep_refl | split; [auto | split; auto]]. }
  apply andb_true_iff in Ec. destruct Ec as [_ Er]. apply Nat.ltb_lt in Er.
  destruct (Js.ltb (time s) _).
  2:{ intros E; inversion E; subst.
      split; [apply Forall2_releaseStep_refl | split; [auto | split; auto]]. }
  intros E. apply releaseLoop_spec in E. destruct E as (F & A & C).
  split; [assumption | split; [assumption |]].
  rewrite C by lia. split; lia.
Qed.

Lemma release_total cfg s :
  (particleCount cfg <= List.length (particles s))%nat ->
  exists out, release cfg s = Some out.
Proof.
  intros H. unfold release.
  destruct (isContinuous (spillMode cfg) && _); [| eauto].
  destruct (Js.ltb (time s) _); [| eauto].
  apply releaseLoop_total; assumption.
Qed.

(** ** One step, taken apart *)

Lemma step_inv cfg s s' :
  step rounds cfg s = Some s' ->
  exists ps1 g1,
    release cfg s = Some (ps1, particlesReleased s', g1) /\
    stepParticles rounds cfg (stepEnv cfg (time s)) ps1 g1 =
      Some (particles s', rng s') /\
    time s' = time s + timeStep cfg /\
    stats s' = stats s /\
    isRunning s' = isRunning s /\
    trajectory s' =
      sampleTrajectory (timeStep cfg) (time s + timeStep cfg) (particles s')
        (trajectory s).
Proof.
  unfold step.
  destruct (release cfg s) as [[[ps1 r] g1] |]; [| discriminate].
  destruct (stepParticles rounds cfg _ ps1 g1) as [[ps2 g2] |] eqn:E2; [| discriminate].
  intros E; inversion E; subst; simpl.
  exists ps1, g1. repeat split; assumption.
Qed.

Lemma Forall2_compose {A B C} (P : A -> B -> Prop) (Q : B -> C -> Prop) l :
  forall m n, Forall2 P l m -> Forall2 Q m n ->
  Forall2 (fun a c => exists b, P a b /\ Q b c) l n.
Proof.
  induction l as [| a l IH]; intros m n H1 H2.
  - inversion H1; subst. inversion H2; subst. constructor.
  - inversion H1; subst. inversion H2; subst. constructor; eauto.
Qed.

Lemma step_particles cfg s s' :
  step rounds cfg s = Some s' ->
  Forall2 (acrossStep rounds cfg (stepEnv cfg (time s))) (particles s) (particles s').
Proof.
  intros E. apply step_inv in E. destruct E as (ps1 & g1 & Er & Ep & _).
  apply release_spec in Er. destruct Er as (F & _).
  apply stepParticles_Forall2 in Ep.
  unfold acrossStep. eapply Forall2_compose; eauto.
Qed.

Lemma Forall2_nth_error {A B} (P : A -> B -> Prop) l l' :
  Forall2 P l l' ->
  forall i b, nth_error l' i = Some b -> exists a, nth_error l i = Some a /\ P a b.
Proof.
  induction 1 as [| a b l l' H F IH]; intros i c E.
  - destruct i; discriminate.
  - destruct i as [| i]; simpl in *.
    + inversion E; subst. eauto.
    + eauto.
Qed.

(** ** Steps that run to their end *)

Lemma gridVector_total og varU varV p gridT :
  gridNumeric og -> exists uv, gridVector og varU varV p gridT = Some uv.
Proof.
  intros H. unfold gridVector. destruct og as [g |]; [| eauto].
  destruct (Grid.contains g _ _); [| eauto].
  pose proof (H g eq_refl varU (Particle.lat p) (Particle.lng p) (Some gridT)) as Hu.
  pose proof (H g eq_refl varV (Particle.lat p) (Particle.lng p) (Some gridT)) as Hv.
  destruct (Grid.sample g varU _ _ _); [| congruence].
  destruct (Grid.sample g varV _ _ _); [| congruence].
  eauto.
Qed.

Lemma drift_total cfg env p :
  numericGrids cfg -> exists d, drift cfg env p = Some d.
Proof.
  intros [Hw Hc]. unfold drift. destruct (env_useGrid env); [| eauto].
  destruct (gridVector_total (windGrid cfg) "u10" "v10" p (env_gridT env) Hw)
    as [[u10 v10] ->].
  destruct (gridVector_total (currentGrid cfg) "uo" "vo" p (env_gridT env) Hc)
    as [[uo vo] ->].
  eauto.
Qed.

Lemma displacement_total cfg env p g :
  (0 < rounds)%nat -> numericGrids cfg -> accepting g ->
  exists dLat dLng g',
    displacement rounds cfg env p g = Some (dLat, dLng, g') /\ accepting g'.
Proof.
  intros Hr Hn Hg. unfold displacement, gaussRandom.
  destruct (drift_total cfg env p Hn) as [[[tu tv] dc] ->].
  destruct rounds as [| r]; [lia |].
  destruct (gaussLoop_accepting r g Hg) as [n1 ->].
  assert (Hg1 : accepting (fun n => g (S (S n)))) by (intros n; exact (Hg (S (S n)))).
  destruct (gaussLoop_accepting r _ Hg1) as [n2 ->].
  do 3 eexists. split; [reflexivity |].
  intros n. exact (Hg (S (S (S (S n))))).
Qed.

Lemma stepParticle_total cfg env p g :
  (0 < rounds)%nat -> numericGrids cfg -> accepting g ->
  exists p' g', stepParticle rounds cfg env p g = Some (p', g') /\ accepting g'.
Proof.
  intros Hr Hn Hg. unfold stepParticle.
  destruct (negb (Particle.active p)); [eauto |].
  destruct (Js.ltb _ 0.05); [eauto |].
  destruct (displacement_total cfg env (spread cfg (weather env p)) g Hr Hn Hg)
    as (dLat & dLng & g' & -> & Hg').
  eauto.
Qed.

Lemma stepParticles_total cfg env ps : forall g,
  (0 < rounds)%nat -> numericGrids cfg -> accepting g ->
  exists ps' g', stepParticles rounds cfg env ps g = Some (ps', g') /\ accepting g'.
Proof.
  induction ps as [| p ps IH]; intros g Hr Hn Hg; simpl; [eauto |].
  destruct (stepParticle_total cfg env p g Hr Hn Hg) as (p' & g1 & -> & Hg1).
  destruct (IH g1 Hr Hn Hg1) as (ps' & g2 & -> & Hg2).
  eauto.
Qed.

Lemma step_total cfg s :
  (0 < rounds)%nat -> numericGrids cfg -> accepting (rng s) ->
  (particleCount cfg <= List.length (particles s))%nat ->
  exists s', step rounds cfg s = Some s' /\ accepting (rng s').
Proof.
  intros Hr Hn Hg Hlen. unfold step.
  destruct (release_total cfg s Hlen) as [[[ps1 r] g1] Er]. rewrite Er.
  apply release_spec in Er. destruct Er as (_ & Ha & _).
  destruct (stepParticles_total cfg (stepEnv cfg (time s)) ps1 g1 Hr Hn (Ha Hg))
    as (ps2 & g2 & -> & Hg2).
  eexists; split; [reflexivity | exact Hg2].
Qed.

Lemma step_length cfg s s' :
  step rounds cfg s = Some s' ->
  List.length (particles s') = List.length (particles s).
Proof.
  intros E. apply step_particles in E. apply Forall2_length_eq in E. congruence.
Qed.

(** ** Which particles a step releases *)

Lemma setNth_other ps : forall k p i,
  i <> k -> nth_error (setNth k p ps) i = nth_error ps i.
Proof.
  induction ps as [| q ps IH]; intros k p i Hne; [destruct k; reflexivity |].
  destruct k as [| k]; destruct i as [| i]; simpl; try reflexivity; try lia.
  apply IH. lia.
Qed.

Lemma setNth_same ps : forall k p q,
  nth_error ps k = Some q -> nth_error (setNth k p ps) k = Some p.
Proof.
  induction ps as [| a ps IH]; intros k p q E; [destruct k; discriminate |].
  destruct k as [| k]; simpl in *; [reflexivity | eapply IH; eauto].
Qed.

Lemma releaseLoop_outside cfg todo : forall ps r g ps' r' g',
  releaseLoop cfg todo ps r g = Some (ps', r', g') ->
  (r <= r')%nat /\
  forall i, (i < r \/ r' <= i)%nat -> nth_error ps' i = nth_error ps i.
Proof.
  induction todo as [| todo IH]; simpl; intros ps r g ps' r' g' E.
  - inversion E; subst. split; [lia | reflexivity].
  - destruct (r <? particleCount cfg)%nat.
    + destruct (releaseOne cfg ps r g) as [[ps1 g1] |] eqn:E1; [| discriminate].
      apply IH in E. destruct E as [Hle Hout].
      split; [lia |]. intros i Hi. rewrite Hout by lia.
      unfold releaseOne in E1.
      destruct (nth_error ps r); [| discriminate].
      destruct (diskPoint cfg 0.001 g) as [[la ln] g2].
      inversion E1; subst. apply setNth_other. lia.
    + inversion E; subst. split; [lia | reflexivity].
Qed.

Lemma release_outside cfg s ps' r' g' :
  release cfg s = Some (ps', r', g') ->
  forall i, ~ (particlesReleased s <= i < r')%nat ->
  nth_error ps' i = nth_error (particles s) i.
Proof.
  unfold release.
  destruct (isContinuous (spillMode cfg) && _).
  2:{ intros E; inversion E; reflexivity. }
  destruct (Js.ltb (time s) _).
  2:{ intros E; inversion E; reflexivity. }
  intros E i Hi. apply releaseLoop_outside in E. destruct E as [_ Hout].
  apply Hout. lia.
Qed.

(** ** Fay thickness *)

Lemma particleStep_active_thickness cfg env q p' :
  particleStep rounds cfg env q p' ->
  Particle.active p' = true -> 0 < Particle.age p' ->
  Particle.thickness p' = 0.01 * Rpower (Particle.age p' / 3600) (-0.33).
Proof.
  intros H Ha Hage. destruct H as [Hq | Hq Hlow | g dLat dLng g' Hq Hrem Hd].
  - congruence.
  - simpl in Ha. discriminate.
  - set (w := spread cfg (weather env q)) in *.
    destruct (grounding_sameWeathering cfg dLat dLng (move dLat dLng w))
      as [(_ & _ & _ & Eage) Eth].
    rewrite Eth, Eage in *. simpl in Hage |- *.
    destruct (spread_sameWeathering cfg (weather env q)) as (_ & _ & _ & Eage').
    fold w in Eage'. rewrite Eage' in *.
    unfold w. apply spread_thickness. exact Hage.
Qed.

Lemma step_active_thickness cfg s s' i p' :
  step rounds cfg s = Some s' ->
  nth_error (particles s') i = Some p' ->
  Particle.active p' = true -> 0 < Particle.age p' ->
  Particle.thickness p' = 0.01 * Rpower (Particle.age p' / 3600) (-0.33).
Proof.
  intros E Hn Ha Hage. apply step_particles in E.
  destruct (Forall2_nth_error _ _ _ E i p' Hn) as (p & _ & q & _ & Hq).
  eapply particleStep_active_thickness; eauto.
Qed.

(** C1 (corrected): after a step, every particle that is active and has
    age > 0 has thickness 0.01·(age/3600)^(−0.33): the exponent of the Fay
    film thickness is the literal −0.33. *)
Theorem fay_thickness_exponent cfg s s' i p' :
  step rounds cfg s = Some s' ->
  nth_error (particles s') i = Some p' ->
  Particle.active p' = true ->
  0 < Particle.age p' ->
  Particle.thickness p' = 0.01 * Js.pow (Particle.age p' / 3600) (-0.33).
Proof. exact (step_active_thickness cfg s s' i p'). Qed.

(** ** Grounding *)

Lemma particleStep_beached cfg env q p' :
  particleStep rounds cfg env q p' ->
  Particle.beached q = false -> Particle.beached p' = true ->
  Particle.active p' = false /\
  Particle.lat p' = Particle.lat q /\ Particle.lng p' = Particle.lng q.
Proof.
  intros H Hb Hb'. destruct H as [Hq | Hq Hlow | g dLat dLng g' Hq Hrem Hd].
  - congruence.
  - simpl in Hb'. congruence.
  - set (w := spread cfg (weather env q)) in *.
    rewrite grounding_onLand in *.
    destruct (onLand cfg (move dLat dLng w)).
    + simpl. destruct (spread_position cfg (weather env q)) as (El & En & _).
      fold w in El, En. rewrite El, En. simpl.
      repeat split; ring.
    + simpl in Hb'.
      destruct (spread_position cfg (weather env q)) as (_ & _ & _ & Eb).
      fold w in Eb. rewrite Eb in Hb'. simpl in Hb'. congruence.
Qed.

Lemma releaseStep_beached p q : releaseStep p q -> Particle.beached q = Particle.beached p.
Proof. intros [| la ln]; reflexivity. Qed.

Lemma releasedFrom_beached cfg g p :
  Particle.beached (releasedFrom cfg g p) = Particle.beached p.
Proof.
  unfold releasedFrom. destruct (diskPoint cfg 0.001 g) as [[la ln] g']. reflexivity.
Qed.

(** The particle that the release loop places at index [i] is the one
    it found there, put at a point drawn from the stream. *)
Lemma releaseLoop_placed cfg todo : forall ps r g ps' r' g',
  releaseLoop cfg todo ps r g = Some (ps', r', g') ->
  forall i p, (r <= i < r')%nat -> nth_error ps i = Some p ->
  exists gk, nth_error ps' i = Some (releasedFrom cfg gk p).
Proof.
  induction todo as [| todo IH]; intros ps r g ps' r' g' E i p Hi Hp;
    cbn [releaseLoop] in E.
  - inversion E; subst. lia.
  - destruct (r <? particleCount cfg)%nat; [| inversion E; subst; lia].
    destruct (releaseOne cfg ps r g) as [[ps1 g1] |] eqn:E1; [| discriminate].
    unfold releaseOne in E1.
    destruct (nth_error ps r) as [q |] eqn:Eq; [| discriminate].
    destruct (diskPoint cfg 0.001 g) as [[la ln] g2] eqn:Ed.
    inversion E1; subst ps1 g1. clear E1.
    destruct (Nat.eq_dec i r) as [-> | Hne].
    + destruct (releaseLoop_outside _ _ _ _ _ _ _ _ E) as [_ Hout].
      exists g. rewrite Hout by lia.
      rewrite (setNth_same _ _ _ _ Eq).
      assert (q = p) by congruence. subst q.
      unfold releasedFrom, placed. rewrite Ed. reflexivity.
    + apply (IH _ _ _ _ _ _ E i p); [lia |].
      rewrite setNth_other by exact Hne. exact Hp.
Qed.

Lemma release_placed cfg s ps' r' g' i p :
  release cfg s = Some (ps', r', g') ->
  nth_error (particles s) i = Some p ->
  ((particlesReleased s <= i < r')%nat ->
   exists gk, nth_error ps' i = Some (releasedFrom cfg gk p)) /\
  (~ (particlesReleased s <= i < r')%nat -> nth_error ps' i = Some p).
Proof.
  intros E Hp. split.
  - intros Hi. unfold release in E.
    destruct (isContinuous (spillMode cfg) && _); [| inversion E; subst; lia].
    destruct (Js.ltb (time s) _); [| inversion E; subst; lia].
    exact (releaseLoop_placed cfg _ _ _ _ _ _ _ E i p Hi Hp).
  - intros Hi. rewrite (release_outside _ _ _ _ _ E i Hi). exact Hp.
Qed.

(** The particle at index [i] after the particle loop is the result of
    one iteration on the particle at index [i] before it, run on the
    stream that the first [i] iterations have left. *)
Lemma stepParticles_nth cfg env : forall ps g ps' g' i p',
  stepParticles rounds cfg env ps g = Some (ps', g') ->
  nth_error ps' i = Some p' ->
  exists q g0 g0',
    nth_error ps i = Some q /\
    streamAt rounds cfg env ps g i = Some g0 /\
    stepParticle rounds cfg env q g0 = Some (p', g0').
Proof.
  unfold streamAt.
  induction ps as [| a rest IH]; intros g ps' g' i p' E Hp'; cbn [stepParticles] in E.
  - inversion E; subst. destruct i; discriminate.
  - destruct (stepParticle rounds cfg env a g) as [[a' g1] |] eqn:Ea; [| discriminate].
    destruct (stepParticles rounds cfg env rest g1) as [[rest' g2] |] eqn:Er;
      [| discriminate].
    inversion E; subst ps' g'. clear E.
    destruct i as [| i]; cbn [nth_error firstn] in *.
    + inversion Hp'; subst a'. exists a, g, g1. auto.
    + destruct (IH g1 rest' g2 i p' Er Hp') as (q & g0 & g0' & Hq & Hs & Hstep).
      exists q, g0, g0'. split; [exact Hq |]. split; [| exact Hstep].
      cbn [stepParticles]. rewrite Ea.
      destruct (stepParticles rounds cfg env (firstn i rest) g1) as [[front gf] |];
        [exact Hs | discriminate].
Qed.

(** A step, particle by particle: the release block, then one iteration
    of the particle loop. *)
Lemma step_trace cfg s s' i p p' :
  step rounds cfg s = Some s' ->
  nth_error (particles s) i = Some p ->
  nth_error (particles s') i = Some p' ->
  exists ps1 g1 q g0 g0',
    release cfg s = Some (ps1, particlesReleased s', g1) /\
    nth_error ps1 i = Some q /\
    ((particlesReleased s <= i < particlesReleased s')%nat ->
     exists gk, q = releasedFrom cfg gk p) /\
    (~ (particlesReleased s <= i < particlesReleased s')%nat -> q = p) /\
    streamAt rounds cfg (stepEnv cfg (time s)) ps1 g1 i = Some g0 /\
    stepParticle rounds cfg (stepEnv cfg (time s)) q g0 = Some (p', g0').
Proof.
  intros E Hp Hp'.
  destruct (step_inv _ _ _ E) as (ps1 & g1 & Er & Eps & _).
  destruct (stepParticles_nth _ _ _ _ _ _ _ _ Eps Hp') as (q & g0 & g0' & Hq & Hs & Hstep).
  destruct (release_placed _ _ _ _ _ _ _ Er Hp) as [Hin Hout].
  exists ps1, g1, q, g0, g0'.
  split; [exact Er |]. split; [exact Hq |]. split; [| split; [| split]].
  - intros Hi. destruct (Hin Hi) as [gk Hk]. exists gk. congruence.
  - intros Hi. specialize (Hout Hi). congruence.
  - exact Hs.
  - exact Hstep.
Qed.

Lemma stepParticle_beached cfg env q g0 p' g0' :
  stepParticle rounds cfg env q g0 = Some (p', g0') ->
  Particle.beached q = false -> Particle.beached p' = true ->
  exists dLat dLng,
    let w := spread cfg (weather env q) in
    Particle.active q = true /\
    displacement rounds cfg env w g0 = Some (dLat, dLng, g0') /\
    onLand cfg (move dLat dLng w) = true /\
    p' = grounded dLat dLng (move dLat dLng w).
Proof.
  intros E Hb Hb'. unfold stepParticle in E.
  destruct (Particle.active q) eqn:Ha; cbn [negb] in E;
    [| inversion E; subst; congruence].
  destruct (Js.ltb (remainFrac (weather env q)) 0.05).
  { inversion E; subst. simpl in Hb'. congruence. }
  destruct (displacement rounds cfg env (spread cfg (weather env q)) g0)
    as [[[dLat dLng] g2] |] eqn:Ed; [| discriminate].
  inversion E; subst p' g0'. clear E.
  exists dLat, dLng. cbv zeta. rewrite grounding_onLand in *.
  destruct (onLand cfg (move dLat dLng (spread cfg (weather env q)))).
  - auto.
  - exfalso. simpl in Hb'.
    destruct (spread_position cfg (weather env q)) as (_ & _ & _ & Eb).
    rewrite Eb in Hb'. simpl in Hb'. congruence.
Qed.

(** C4 (corrected): a particle that becomes beached during a step was
    active when the particle loop reached it, the displacement drawn for
    it took it to a position that the land mask covers and where lsm
    exceeds 0.5, and the step leaves it beached, inactive and (in exact
    arithmetic) at the position it had just before that displacement:
    its position at the start of the step, unless the step itself
    released it, in which case it is the release point drawn by this
    step. *)
Theorem grounding_reverts_position cfg s s' i p p' :
  step rounds cfg s = Some s' ->
  nth_error (particles s) i = Some p ->
  nth_error (particles s') i = Some p' ->
  Particle.beached p = false ->
  Particle.beached p' = true ->
  exists ps1 g1 q g0 dLat dLng g2,
    let env := stepEnv cfg (time s) in
    let w := spread cfg (weather env q) in
    release cfg s = Some (ps1, particlesReleased s', g1) /\
    nth_error ps1 i = Some q /\
    ((particlesReleased s <= i < particlesReleased s')%nat ->
     exists gk, q = releasedFrom cfg gk p) /\
    (~ (particlesReleased s <= i < particlesReleased s')%nat -> q = p) /\
    Particle.active q = true /\
    streamAt rounds cfg env ps1 g1 i = Some g0 /\
    displacement rounds cfg env w g0 = Some (dLat, dLng, g2) /\
    onLand cfg (move dLat dLng w) = true /\
    p' = grounded dLat dLng (move dLat dLng w) /\
    Particle.active p' = false /\
    Particle.lat p' = Particle.lat q /\ Particle.lng p' = Particle.lng q.
Proof.
  intros E Hp Hp' Hb Hb'.
  destruct (step_trace cfg s s' i p p' E Hp Hp')
    as (ps1 & g1 & q & g0 & g0' & Er & Hq & Hin & Hout & Hs & Hstep).
  assert (Hbq : Particle.beached q = false).
  { destruct (Nat.le_gt_cases (particlesReleased s) i) as [H1 | H1];
      [destruct (Nat.le_gt_cases (particlesReleased s') i) as [H2 | H2] |].
    - rewrite (Hout ltac:(lia)). exact Hb.
    - destruct (Hin ltac:(lia)) as [gk ->]. rewrite releasedFrom_beached. exact Hb.
    - rewrite (Hout ltac:(lia)). exact Hb. }
  destruct (stepParticle_beached _ _ _ _ _ _ Hstep Hbq Hb')
    as (dLat & dLng & Ha & Hd & Hland & Ep').
  exists ps1, g1, q, g0, dLat, dLng, g0'. cbv zeta.
  split; [exact Er |]. split; [exact Hq |]. split; [exact Hin |].
  split; [exact Hout |]. split; [exact Ha |]. split; [exact Hs |].
  split; [exact Hd |]. split; [exact Hland |]. split; [exact Ep' |].
  destruct (spread_position cfg (weather (stepEnv cfg (time s)) q)) as (El & En & _).
  rewrite Ep'. simpl. rewrite El, En. simpl. repeat split; ring.
Qed.

(** ** Reachable states *)

Lemma initInstant_Forall (P : Particle.t -> Prop) cfg m :
  (forall la ln,
      P (Particle.set_viscosity (oilViscosity (oilProps cfg)) (Particle.new la ln m))) ->
  forall n g, Forall P (fst (initInstant cfg m n g)).
Proof.
  intros HP. induction n as [| n IH]; intros g; simpl; [constructor |].
  destruct (initInstant cfg m n _) as [ps g2] eqn:E.
  simpl. constructor; [apply HP |].
  specialize (IH (fun k => g (S (S k)))). unfold Js.random in E. simpl in E.
  rewrite E in IH. exact IH.
Qed.

Lemma initialize_Forall (P : Particle.t -> Prop) cfg g :
  (forall la ln m b,
      P (Particle.set_active b
           (Particle.set_viscosity (oilViscosity (oilProps cfg)) (Particle.new la ln m)))) ->
  Forall P (particles (initialize cfg g)).
Proof.
  intros HP. unfold initialize. destruct (spillMode cfg).
  - pose proof (initInstant_Forall P cfg
                  (oilVolume cfg * 1000 / INR (particleCount cfg))) as H.
    specialize (H (fun la ln => HP la ln _ true) (particleCount cfg) g).
    destruct (initInstant cfg _ (particleCount cfg) g) as [ps g']. exact H.
  - simpl. unfold initContinuous. apply Forall_forall. intros p Hin.
    apply repeat_spec in Hin. subst p. apply HP.
Qed.

Lemma Forall2_preserves {A} (P : A -> Prop) (Q : A -> A -> Prop) l l' :
  (forall a b, P a -> Q a b -> P b) ->
  Forall2 Q l l' -> Forall P l -> Forall P l'.
Proof.
  intros H F. induction F as [| a b l l' Hab F IH]; intros HP; [constructor |].
  inversion HP; subst. constructor; eauto.
Qed.

(** A property of the particles that holds after [initialize] and that
    no step breaks holds in every reachable state. *)
Lemma reachable_Forall (P : Particle.t -> Prop) cfg :
  (forall g, Forall P (particles (initialize cfg g))) ->
  (forall tm p p', P p -> acrossStep rounds cfg (stepEnv cfg tm) p p' -> P p') ->
  forall s, reachable rounds cfg s -> Forall P (particles s).
Proof.
  intros Hinit Hstep s H. induction H as [g | b s H IH | s s' H IH E | s H IH].
  - apply Hinit.
  - exact IH.
  - apply step_particles in E.
    eapply Forall2_preserves; [| exact E | exact IH].
    intros a b Ha Hab. eapply Hstep; eauto.
  - exact IH.
Qed.

(** ** Bounds on the weathering fractions *)

Lemma oil_table_positive t :
  0 < evapRate (OIL_PROPERTIES t) /\ 0 < volatileFrac (OIL_PROPERTIES t) /\
  0 < dispersibility (OIL_PROPERTIES t).
Proof. destruct t; simpl; repeat split; lra. Qed.

Lemma exp_neg_le_1 x : 0 <= x -> exp (- x) <= 1.
Proof.
  intros [H | <-].
  - left. rewrite <- exp_0. apply exp_increasing. lra.
  - rewrite Ropp_0, exp_0. lra.
Qed.

Lemma calcEvaporation_nonneg t h T W :
  0 <= 1 + 0.045 * (T - 15) -> 0 <= 1 + 0.01 * W ->
  0 <= calcEvaporation (OIL_PROPERTIES t) h T W.
Proof.
  intros HT HW. unfold calcEvaporation.
  destruct (Js.leb h 0); [lra |].
  destruct (oil_table_positive t) as (He & Hv & _).
  apply Rmin_glb; [| lra].
  apply Rmult_le_pos; [| exact HW].
  apply Rmult_le_pos; [| apply sqrt_pos].
  apply Rmult_le_pos; lra.
Qed.

Lemma calcDispersion_bounds t W h :
  0 <= calcDispersion (OIL_PROPERTIES t) W h <= 0.3.
Proof.
  unfold calcDispersion.
  destruct (Js.leb h 0) eqn:Eh; simpl; [lra |].
  destruct (Js.ltb W 5); [lra |].
  destruct (oil_table_positive t) as (_ & _ & Hd).
  assert (0 < h).
  { destruct (Rlt_dec 0 h); [assumption |].
    rewrite JsFacts.leb_true in Eh by lra. discriminate. }
  split; [| apply Rmin_r].
  apply Rmin_glb; [| lra].
  unfold Js.sqr. apply Rmult_le_pos; [| lra].
  apply Rmult_le_pos; [lra |].
  apply Rmult_le_pos; [| lra]. nra.
Qed.

Lemma calcEmulsion_bounds h W : 0 <= calcEmulsion h W <= 0.7.
Proof.
  unfold calcEmulsion.
  destruct (Js.leb h 0) eqn:Eh; simpl; [lra |].
  destruct (Js.ltb W 3); [lra |].
  assert (0 < h).
  { destruct (Rlt_dec 0 h); [assumption |].
    rewrite JsFacts.leb_true in Eh by lra. discriminate. }
  split; [| apply Rmin_r].
  apply Rmin_glb; [| lra].
  assert (Hx : 0 <= 2e-6 * Js.sqr (W + 1) * h * 3600).
  { unfold Js.sqr. apply Rmult_le_pos; [| lra].
    apply Rmult_le_pos; [| lra].
    pose proof (Rle_0_sqr (W + 1)) as Hs. unfold Rsqr in Hs.
    apply Rmult_le_pos; [lra | exact Hs]. }
  pose proof (exp_neg_le_1 _ Hx) as He.
  replace (- (2e-6 * Js.sqr (W + 1)) * h * 3600)
    with (- (2e-6 * Js.sqr (W + 1) * h * 3600)) by ring.
  lra.
Qed.

Lemma repWs_nonneg cfg tm : 0 <= windSpeed cfg -> 0 <= env_repWs (stepEnv cfg tm).
Proof.
  intros H. unfold stepEnv. simpl.
  destruct (useGridData cfg && hasGridData cfg); simpl; [lra |].
  pose proof (SIN_bound (tm * 0.0002)) as [Hlo Hhi]. nra.
Qed.

Lemma stepEnv_bounds cfg tm :
  mildConditions cfg ->
  let env := stepEnv cfg tm in
  0 <= Rmin (env_evapFraction env) (volatileFrac (env_props env))
    <= volatileFrac (oilProps cfg) /\
  0 <= Rmin (env_dispersFraction env) 0.3 <= 0.3 /\
  0 <= env_emulsionWater env <= 0.7.
Proof.
  intros [HT HW]. pose proof (repWs_nonneg cfg tm HW) as Hrep.
  simpl. unfold oilProps.
  destruct (oil_table_positive (oilType cfg)) as (_ & Hv & _).
  split; [| split].
  - split; [| apply Rmin_r].
    apply Rmin_glb; [| lra].
    apply calcEvaporation_nonneg; [lra |].
    unfold stepEnv in Hrep; simpl in Hrep. lra.
  - pose proof (calcDispersion_bounds (oilType cfg)
                  (env_repWs (stepEnv cfg tm)) (tm / 3600)) as Hd.
    unfold stepEnv in Hd; simpl in Hd.
    split; [apply Rmin_glb; lra | apply Rmin_r].
  - apply calcEmulsion_bounds.
Qed.

Lemma particleStep_weathering cfg env q p' :
  particleStep rounds cfg env q p' ->
  (Particle.evaporated p' = Particle.evaporated q /\
   Particle.dispersed p' = Particle.dispersed q /\
   Particle.emulsionWater p' = Particle.emulsionWater q) \/
  (Particle.evaporated p' = Rmin (env_evapFraction env) (volatileFrac (env_props env)) /\
   Particle.dispersed p' = Rmin (env_dispersFraction env) 0.3 /\
   Particle.emulsionWater p' = env_emulsionWater env).
Proof.
  intros [Hq | Hq Hlow | g dLat dLng g' Hq Hrem Hd].
  - left. repeat split.
  - right. repeat split.
  - right.
    destruct (grounding_sameWeathering cfg dLat dLng
                (move dLat dLng (spread cfg (weather env q))))
      as [(E1 & E2 & E3 & _) _].
    destruct (spread_sameWeathering cfg (weather env q)) as (F1 & F2 & F3 & _).
    rewrite E1, E2, E3. simpl. rewrite F1, F2, F3. repeat split.
Qed.

Lemma acrossStep_bounds cfg tm p p' :
  mildConditions cfg ->
  weatheringBounds (oilProps cfg) p ->
  acrossStep rounds cfg (stepEnv cfg tm) p p' ->
  weatheringBounds (oilProps cfg) p'.
Proof.
  intros Hm Hb (q & Hrel & Hstep).
  assert (Hq : weatheringBounds (oilProps cfg) q)
    by (destruct Hrel; exact Hb).
  destruct (particleStep_weathering _ _ _ _ Hstep) as [(E1 & E2 & E3) | (E1 & E2 & E3)];
    unfold weatheringBounds; rewrite E1, E2, E3.
  - exact Hq.
  - exact (stepEnv_bounds cfg tm Hm).
Qed.

Lemma reachable_weatheringBounds cfg s p :
  mildConditions cfg -> reachable rounds cfg s -> In p (particles s) ->
  weatheringBounds (oilProps cfg) p.
Proof.
  intros Hm Hr Hin.
  assert (F : Forall (weatheringBounds (oilProps cfg)) (particles s)).
  { apply (reachable_Forall (weatheringBounds (oilProps cfg)) cfg); [| | exact Hr].
    - intros g. apply initialize_Forall. intros la ln m b.
      unfold weatheringBounds, oilProps. simpl.
      destruct (oil_table_positive (oilType cfg)) as (_ & Hv & _). lra.
    - intros tm a b Ha Hab. eapply acrossStep_bounds; eauto. }
  rewrite Forall_forall in F. auto.
Qed.

Lemma stepEnv_caps cfg tm :
  let env := stepEnv cfg tm in
  Rmin (env_evapFraction env) (volatileFrac (env_props env))
    <= volatileFrac (oilProps cfg) /\
  0 <= Rmin (env_dispersFraction env) 0.3 <= 0.3 /\
  0 <= env_emulsionWater env <= 0.7.
Proof.
  simpl. split; [apply Rmin_r | split].
  - pose proof (calcDispersion_bounds (oilType cfg)
                  (env_repWs (stepEnv cfg tm)) (tm / 3600)) as Hd.
    unfold stepEnv in Hd; simpl in Hd. unfold oilProps.
    split; [apply Rmin_glb; lra | apply Rmin_r].
  - apply calcEmulsion_bounds.
Qed.

Lemma acrossStep_caps cfg tm p p' :
  weatheringCaps (oilProps cfg) p ->
  acrossStep rounds cfg (stepEnv cfg tm) p p' ->
  weatheringCaps (oilProps cfg) p'.
Proof.
  intros Hb (q & Hrel & Hstep).
  assert (Hq : weatheringCaps (oilProps cfg) q)
    by (destruct Hrel; exact Hb).
  destruct (particleStep_weathering _ _ _ _ Hstep) as [(E1 & E2 & E3) | (E1 & E2 & E3)];
    unfold weatheringCaps; rewrite E1, E2, E3.
  - exact Hq.
  - exact (stepEnv_caps cfg tm).
Qed.

Lemma reachable_weatheringCaps cfg s p :
  reachable rounds cfg s -> In p (particles s) ->
  weatheringCaps (oilProps cfg) p.
Proof.
  intros Hr Hin.
  assert (F : Forall (weatheringCaps (oilProps cfg)) (particles s)).
  { apply (reachable_Forall (weatheringCaps (oilProps cfg)) cfg); [| | exact Hr].
    - intros g. apply initialize_Forall. intros la ln m b.
      unfold weatheringCaps, oilProps. simpl.
      destruct (oil_table_positive (oilType cfg)) as (_ & Hv & _). lra.
    - intros tm a b Ha Hab. eapply acrossStep_caps; eauto. }
  rewrite Forall_forall in F. auto.
Qed.

(** C6 (corrected): every particle of every reachable state has
    evaporated ≤ volatile_frac, 0 ≤ dispersed ≤ 0.3 and
    0 ≤ emulsion_water ≤ 0.7, whatever the temperature and the wind;
    0 ≤ evaporated holds when the water temperature is at least −65/9 °C
    and the wind speed is not negative. *)
Theorem weathering_fractions_bounded cfg s p :
  reachable rounds cfg s ->
  In p (particles s) ->
  (Particle.evaporated p <= volatileFrac (oilProps cfg) /\
   0 <= Particle.dispersed p <= 0.3 /\
   0 <= Particle.emulsionWater p <= 0.7) /\
  (mildConditions cfg -> 0 <= Particle.evaporated p).
Proof.
  intros Hr Hin. split; [exact (reachable_weatheringCaps cfg s p Hr Hin) |].
  intros Hm. exact (proj1 (proj1 (reachable_weatheringBounds cfg s p Hm Hr Hin))).
Qed.

(** ** Statistics *)

Lemma acrossStep_beached cfg env p p' :
  acrossStep rounds cfg env p p' ->
  Particle.beached p = true -> Particle.beached p' = true.
Proof.
  intros (q & Hrel & Hstep) Hb.
  rewrite <- (releaseStep_beached _ _ Hrel) in Hb.
  destruct Hstep as [Hq | Hq Hlow | g dLat dLng g' Hq Hrem Hd]; try exact Hb.
  rewrite grounding_onLand. destruct (onLand cfg _); [reflexivity |].
  simpl. destruct (spread_position cfg (weather env q)) as (_ & _ & _ & E).
  rewrite E. exact Hb.
Qed.

Lemma beachedCount_mono l l' :
  Forall2 (fun p p' => Particle.beached p = true -> Particle.beached p' = true) l l' ->
  (beachedCount l <= beachedCount l')%nat.
Proof.
  unfold beachedCount. induction 1 as [| p p' l l' H F IH]; simpl; [lia |].
  destruct (Particle.beached p).
  - rewrite H by reflexivity. simpl. lia.
  - destruct (Particle.beached p'); simpl; lia.
Qed.

Lemma step_beachedCount cfg s s' :
  step rounds cfg s = Some s' ->
  (beachedCount (particles s) <= beachedCount (particles s'))%nat.
Proof.
  intros E. apply step_particles in E. apply beachedCount_mono.
  eapply Forall2_impl; [| exact E].
  intros a b Hab. eapply acrossStep_beached; eauto.
Qed.

Lemma updateStatsOf_beached cfg ps st :
  (st_beached st <= beachedCount ps)%nat ->
  (st_beached (updateStatsOf cfg ps st) <= beachedCount ps)%nat.
Proof.
  intros H. unfold updateStatsOf.
  destruct (_ && _); [exact H |].
  destruct (activeParticles ps); simpl; lia.
Qed.

(** The beached counter of the statistics never runs ahead of the
    particles. *)
Lemma reachable_stats_beached cfg s :
  reachable rounds cfg s -> (st_beached (stats s) <= beachedCount (particles s))%nat.
Proof.
  induction 1 as [g | b s H IH | s s' H IH E | s H IH].
  - unfold initialize. destruct (spillMode cfg); [| simpl; lia].
    destruct (initInstant cfg _ _ g); simpl; lia.
  - exact IH.
  - pose proof (step_beachedCount _ _ _ E) as Hm.
    apply step_inv in E. destruct E as (_ & _ & _ & _ & _ & Es & _).
    rewrite Es. lia.
  - simpl. apply updateStatsOf_beached. exact IH.
Qed.

Lemma updateStatsOf_no_active cfg ps st :
  activeParticles ps = [] ->
  (st_beached st <= beachedCount ps)%nat ->
  updateStatsOf cfg ps st = setBeached (beachedCount ps) st.
Proof.
  intros Ha Hb. unfold updateStatsOf. rewrite Ha. simpl.
  destruct (beachedCount ps) as [| n] eqn:En; simpl; [| reflexivity].
  destruct st as [a r e d cla cln md ew v b]. simpl in *.
  assert (b = 0%nat) by lia. subst b. reflexivity.
Qed.

(** C8: when the statistics update runs in a reachable state with no
    active particle, centerLat, centerLng, area and maxDrift keep their
    values, the beached count becomes the number of beached particles,
    and no other field of the statistics changes. *)
Theorem updateStats_without_active cfg s :
  reachable rounds cfg s ->
  activeParticles (particles s) = [] ->
  let st := stats s in
  let st' := stats (updateStats cfg s) in
  st_centerLat st' = st_centerLat st /\
  st_centerLng st' = st_centerLng st /\
  st_area st' = st_area st /\
  st_maxDrift st' = st_maxDrift st /\
  st_beached st' = List.length (filter Particle.beached (particles s)) /\
  st_remaining st' = st_remaining st /\
  st_evaporated st' = st_evaporated st /\
  st_dispersed st' = st_dispersed st /\
  st_emulsionWater st' = st_emulsionWater st /\
  st_viscosity st' = st_viscosity st.
Proof.
  intros Hr Ha. simpl.
  rewrite (updateStatsOf_no_active cfg _ _ Ha (reachable_stats_beached cfg s Hr)).
  simpl. repeat split.
Qed.

(** ** Trajectory *)



















(** ** The grid switch without grids *)

Lemma stepEnv_switch b cfg tm :
  hasGridData cfg = false ->
  stepEnv (setUseGridData b cfg) tm = stepEnv (setUseGridData false cfg) tm.
Proof.
  intros H. unfold stepEnv. simpl.
  change (hasGridData (setUseGridData b cfg)) with (hasGridData cfg).
  change (hasGridData (setUseGridData false cfg)) with (hasGridData cfg).
  rewrite H, andb_false_r. reflexivity.
Qed.

Lemma releaseLoop_switch b cfg todo : forall ps r g,
  releaseLoop (setUseGridData b cfg) todo ps r g = releaseLoop cfg todo ps r g.
Proof.
  induction todo as [| todo IH]; intros ps r g; simpl; [reflexivity |].
  destruct (r <? particleCount cfg)%nat; [| reflexivity].
  change (releaseOne (setUseGridData b cfg) ps r g) with (releaseOne cfg ps r g).
  destruct (releaseOne cfg ps r g) as [[ps1 g1] |]; [apply IH | reflexivity].
Qed.

Lemma release_switch b cfg s :
  release (setUseGridData b cfg) s = release cfg s.
Proof.
  unfold release. simpl.
  destruct (isContinuous (spillMode cfg) && _); [| reflexivity].
  destruct (Js.ltb (time s) _); [| reflexivity].
  apply releaseLoop_switch.
Qed.

Lemma stepParticles_switch b cfg env ps : forall g,
  stepParticles rounds (setUseGridData b cfg) env ps g =
  stepParticles rounds cfg env ps g.
Proof.
  induction ps as [| p ps IH]; intros g; simpl; [reflexivity |].
  change (stepParticle rounds (setUseGridData b cfg) env p g)
    with (stepParticle rounds cfg env p g).
  destruct (stepParticle rounds cfg env p g) as [[p1 g1] |]; [| reflexivity].
  rewrite IH. reflexivity.
Qed.

Lemma step_switch b cfg s :
  hasGridData cfg = false ->
  step rounds (setUseGridData b cfg) s = step rounds (setUseGridData false cfg) s.
Proof.
  intros H. unfold step.
  rewrite !release_switch, (stepEnv_switch b cfg (time s) H).
  destruct (release cfg s) as [[[ps1 r] g1] |]; [| reflexivity].
  rewrite !stepParticles_switch. reflexivity.
Qed.

Lemma tickLoop_switch b cfg todo : forall s,
  hasGridData cfg = false ->
  tickLoop rounds (setUseGridData b cfg) todo s =
  tickLoop rounds (setUseGridData false cfg) todo s.
Proof.
  induction todo as [| todo IH]; intros s H; simpl; [reflexivity |].
  destruct (Js.leb (maxTime cfg) (time s)); [reflexivity |].
  rewrite (step_switch b cfg s H).
  destruct (step rounds (setUseGridData false cfg) s); [apply IH; exact H | reflexivity].
Qed.

Lemma tick_switch b cfg s :
  hasGridData cfg = false ->
  tick rounds (setUseGridData b cfg) s = tick rounds (setUseGridData false cfg) s.
Proof.
  intros H. unfold tick. simpl. rewrite (tickLoop_switch b cfg _ s H). reflexivity.
Qed.

Lemma frames_switch b cfg n : forall s,
  hasGridData cfg = false ->
  frames rounds (setUseGridData b cfg) n s =
  frames rounds (setUseGridData false cfg) n s.
Proof.
  induction n as [| n IH]; intros s H; simpl; [reflexivity |].
  rewrite (tick_switch b cfg s H).
  destruct (tick rounds (setUseGridData false cfg) s); [apply IH; exact H | reflexivity].
Qed.

Lemma steps_switch b cfg n : forall s,
  hasGridData cfg = false ->
  steps rounds (setUseGridData b cfg) n s = steps rounds (setUseGridData false cfg) n s.
Proof.
  induction n as [| n IH]; intros s H; simpl; [reflexivity |].
  rewrite (step_switch b cfg s H).
  destruct (step rounds (setUseGridData false cfg) s); [apply IH; exact H | reflexivity].
Qed.

Lemma initialize_switch b cfg g :
  initialize (setUseGridData b cfg) g = initialize cfg g.
Proof.
  unfold initialize. simpl. destruct (spillMode cfg); [| reflexivity].
  assert (E : forall m n g0,
             initInstant (setUseGridData b cfg) m n g0 = initInstant cfg m n g0).
  { intros m n. induction n as [| n IH]; intros g0; simpl; [reflexivity |].
    rewrite IH. reflexivity. }
  rewrite E. reflexivity.
Qed.

(** C5: with no grid loaded and the same random stream, a run with
    use_grid_data = true and the run with use_grid_data = false go through
    the same states (particles, trajectory, statistics, time, counters),
    step by step and frame by frame. *)
Theorem useGridData_without_grids cfg g :
  windGrid cfg = None ->
  currentGrid cfg = None ->
  tempGrid cfg = None ->
  landMask cfg = None ->
  initialize (setUseGridData true cfg) g = initialize (setUseGridData false cfg) g /\
  (forall n s, steps rounds (setUseGridData true cfg) n s =
               steps rounds (setUseGridData false cfg) n s) /\
  (forall n s, frames rounds (setUseGridData true cfg) n s =
               frames rounds (setUseGridData false cfg) n s) /\
  (forall s, updateStats (setUseGridData true cfg) s =
             updateStats (setUseGridData false cfg) s).
Proof.
  intros Hw Hc Ht _.
  assert (H : hasGridData cfg = false)
    by (unfold hasGridData; rewrite Hw, Hc, Ht; reflexivity).
  split; [| split; [| split]].
  - rewrite !initialize_switch. reflexivity.
  - intros n s. apply steps_switch. exact H.
  - intros n s. apply frames_switch. exact H.
  - intros s. reflexivity.
Qed.

(** ** The land mask as the only grid *)

Lemma setUseGridData_same cfg : setUseGridData (useGridData cfg) cfg = cfg.
Proof. destruct cfg; reflexivity. Qed.

Lemma stepEnv_scalar cfg tm :
  hasGridData cfg = false ->
  let ws := windSpeed cfg * (1 + sin (tm * 0.0002) * 0.1) in
  stepEnv cfg tm =
  mkEnv (timeStep cfg) (oilProps cfg) false (tm / 3600 + gridTimeOffset cfg)
    (scalarField cfg tm false) ws
    (calcEvaporation (oilProps cfg) (tm / 3600) (waterTemp cfg) ws)
    (calcDispersion (oilProps cfg) ws (tm / 3600))
    (calcEmulsion (tm / 3600) ws).
Proof. intros H. unfold stepEnv. rewrite H, andb_false_r. reflexivity. Qed.

Lemma spread_mass_value cfg p :
  Particle.mass (spread cfg p) =
  oilVolume cfg * 1000 / INR (particleCount cfg) * remainFrac p.
Proof. unfold spread. destruct (Js.ltb 0 _); reflexivity. Qed.

Lemma overLand_position m p q :
  Particle.lat p = Particle.lat q -> Particle.lng p = Particle.lng q ->
  overLand m p = overLand m q.
Proof. intros El En. unfold overLand. rewrite El, En. reflexivity. Qed.

(** One iteration of the particle loop on an active particle that is
    not exhausted, in scalar mode with the mask [m] loaded. *)
Lemma stepParticle_scalar cfg m tm q g0 p' g0' :
  hasGridData cfg = false ->
  landMask cfg = Some m ->
  Particle.active q = true ->
  0.05 <= scalarRemain cfg tm ->
  stepParticle rounds cfg (stepEnv cfg tm) q g0 = Some (p', g0') ->
  exists n1 ga n2,
    gaussRandom rounds g0 = Some (n1, ga) /\
    gaussRandom rounds ga = Some (n2, g0') /\
    scalarOutcome cfg m tm q n1 n2 p'.
Proof.
  intros H Hm Ha Hrem E.
  rewrite (stepEnv_scalar cfg tm H) in E. cbv zeta in E.
  unfold scalarOutcome. cbv zeta.
  set (ws := windSpeed cfg * (1 + sin (tm * 0.0002) * 0.1)) in *.
  assert (HD : globalDiffCoeff (scalarField cfg tm false) = 1.0 + 0.5 * ws)
    by reflexivity.
  remember (scalarField cfg tm false) as sc eqn:Hsc.
  set (env := mkEnv _ _ _ _ _ _ _ _ _) in *.
  assert (Hr : remainFrac (weather env q) = scalarRemain cfg tm) by reflexivity.
  unfold stepParticle in E. rewrite Ha in E. cbn [negb] in E.
  rewrite JsFacts.ltb_false in E by (rewrite Hr; exact Hrem).
  set (w := spread cfg (weather env q)) in *.
  destruct (spread_position cfg (weather env q)) as (El & En & Eact & Ebe).
  fold w in El, En, Eact, Ebe.
  rewrite weather_lat in El. rewrite weather_lng in En.
  rewrite weather_active in Eact. rewrite weather_beached in Ebe.
  destruct (spread_sameWeathering cfg (weather env q)) as (F1 & F2 & F3 & F4).
  fold w in F1, F2, F3, F4.
  pose proof (spread_mass_value cfg (weather env q)) as Fm. fold w in Fm.
  unfold displacement, drift in E.
  change (env_useGrid env) with false in E. cbv iota in E.
  change (env_scalars env) with sc in E.
  change (env_dt env) with (timeStep cfg) in E.
  destruct (gaussRandom rounds g0) as [[n1 ga] |] eqn:Hg1; [| discriminate].
  destruct (gaussRandom rounds ga) as [[n2 gb] |] eqn:Hg2; [| discriminate].
  cbv zeta in E. rewrite El, HD in E.
  exists n1, ga, n2. split; [reflexivity |].
  split; [rewrite Hg2; congruence |].
  match goal with
  | |- context [overLand m (at_ (_ + ?a) (_ + ?b) q)] =>
      set (dLat := a); set (dLng := b)
  end.
  assert (Ep : p' = grounding cfg dLat dLng (move dLat dLng w))
    by (inversion E; reflexivity).
  clear E. subst p'.
  rewrite grounding_onLand. unfold onLand. rewrite Hm.
  rewrite (overLand_position m (move dLat dLng w)
             (at_ (Particle.lat q + dLat) (Particle.lng q + dLng) q))
    by (simpl; congruence).
  destruct (overLand m (at_ (Particle.lat q + dLat) (Particle.lng q + dLng) q));
    simpl; rewrite F1, F2, F3, F4, Fm, El, En, ?Eact, ?Ebe.
  - repeat split; ring.
  - repeat split; assumption.
Qed.

(** C10: with the land mask as the only grid and use_grid_data = true,
    hasGridData is false; every step computes weathering from the
    time-perturbed scalar wind and drift and diffusion from the scalar
    fields, exactly as with use_grid_data = false; and every particle
    that is active when the particle loop reaches it and is not
    exhausted gets the scalar weathering values, is displaced by the
    scalar drift vector and its two Gaussian draws, and is then tested
    against the land mask at its new position: grounded and put back
    where lsm exceeds 0.5, left at the new position otherwise (in exact
    arithmetic, for a wind speed and a step size that are not negative
    and a particle away from the poles). *)
Theorem landMask_alone_keeps_scalar_mode cfg m :
  windGrid cfg = None ->
  currentGrid cfg = None ->
  tempGrid cfg = None ->
  landMask cfg = Some m ->
  useGridData cfg = true ->
  hasGridData cfg = false /\
  (forall tm,
     let ws := windSpeed cfg * (1 + sin (tm * 0.0002) * 0.1) in
     let env := stepEnv cfg tm in
     env_useGrid env = false /\
     env_repWs env = ws /\
     env_evapFraction env = calcEvaporation (oilProps cfg) (tm / 3600) (waterTemp cfg) ws /\
     env_dispersFraction env = calcDispersion (oilProps cfg) ws (tm / 3600) /\
     env_emulsionWater env = calcEmulsion (tm / 3600) ws /\
     forall p,
       drift cfg env p =
       Some (globalTotalU (scalarField cfg tm false),
             globalTotalV (scalarField cfg tm false),
             1.0 + 0.5 * ws)) /\
  (forall s, step rounds cfg s = step rounds (setUseGridData false cfg) s) /\
  (0 <= windSpeed cfg -> 0 <= timeStep cfg ->
   forall s s' i p',
     step rounds cfg s = Some s' ->
     nth_error (particles s') i = Some p' ->
     exists ps1 g1 q,
       release cfg s = Some (ps1, particlesReleased s', g1) /\
       nth_error ps1 i = Some q /\
       (Particle.active q = false -> p' = q) /\
       (Particle.active q = true ->
        cos (Particle.lat q * DEG_TO_RAD) <> 0 ->
        0.05 <= scalarRemain cfg (time s) ->
        exists g0 n1 ga n2 gb,
          streamAt rounds cfg (stepEnv cfg (time s)) ps1 g1 i = Some g0 /\
          gaussRandom rounds g0 = Some (n1, ga) /\
          gaussRandom rounds ga = Some (n2, gb) /\
          scalarOutcome cfg m (time s) q n1 n2 p')).
Proof.
  intros Hw Hc Ht Hm Hu.
  assert (H : hasGridData cfg = false)
    by (unfold hasGridData; rewrite Hw, Hc, Ht; reflexivity).
  split; [exact H |]. split; [| split].
  - intros tm. unfold stepEnv, drift. simpl. rewrite H, andb_false_r. simpl.
    repeat split.
  - intros s. rewrite <- (setUseGridData_same cfg) at 1. rewrite Hu.
    apply step_switch. exact H.
  - intros _ _ s s' i p' E Hp'.
    destruct (step_inv _ _ _ E) as (ps1 & g1 & Er & Eps & _).
    destruct (stepParticles_nth _ _ _ _ _ _ _ _ Eps Hp')
      as (q & g0 & g0' & Hq & Hs & Hstep).
    exists ps1, g1, q. split; [exact Er |]. split; [exact Hq |]. split.
    + intros Ha. unfold stepParticle in Hstep. rewrite Ha in Hstep.
      cbn [negb] in Hstep. congruence.
    + intros Ha _ Hrem.
      destruct (stepParticle_scalar cfg m (time s) q g0 p' g0' H Hm Ha Hrem Hstep)
        as (n1 & ga & n2 & G1 & G2 & Hout).
      exists g0, n1, ga, n2, g0'. auto.
Qed.

(** ** Continuous release up to the horizon *)

Lemma targetReleased_at_horizon cfg tm :
  0 < spillDuration cfg * 3600 ->
  spillDuration cfg * 3600 <= tm + timeStep cfg ->
  targetReleased cfg tm = Z.of_nat (particleCount cfg).
Proof.
  intros HD Hh. unfold targetReleased. apply Z.min_r.
  apply Zfloor_lub. rewrite <- INR_IZR_INZ.
  assert (1 <= (tm + timeStep cfg) / (spillDuration cfg * 3600)).
  { apply (Rmult_le_reg_r (spillDuration cfg * 3600)); [exact HD |].
    unfold Rdiv. rewrite Rmult_assoc, Rinv_l by lra. lra. }
  pose proof (pos_INR (particleCount cfg)). nra.
Qed.

Lemma step_schedule cfg s s' :
  releaseOverHorizon cfg -> 0 < timeStep cfg ->
  time s < maxTime cfg ->
  (particlesReleased s <= particleCount cfg)%nat -> 0 <= time s ->
  step rounds cfg s = Some s' ->
  (particlesReleased s' <= particleCount cfg)%nat /\
  0 <= time s' /\
  (maxTime cfg <= time s' -> particlesReleased s' = particleCount cfg).
Proof.
  intros [Hmode HD] Hdt Hlt Hle H0 E.
  destruct (step_inv _ _ _ E) as (ps1 & g1 & Er & _ & Et & _).
  pose proof (release_spec _ _ _ _ _ Er) as (_ & _ & Hmono & Hbound).
  split; [auto |]. split; [lra |].
  intros Hh. rewrite Et in Hh.
  unfold release in Er. rewrite Hmode in Er. simpl in Er.
  destruct (particlesReleased s <? particleCount cfg)%nat eqn:Ec.
  - rewrite JsFacts.ltb_true in Er by lra.
    rewrite targetReleased_at_horizon in Er by lra.
    apply releaseLoop_spec in Er. destruct Er as (_ & _ & C).
    rewrite C by exact Hle. apply Nat.ltb_lt in Ec. lia.
  - apply Nat.ltb_ge in Ec. inversion Er; subst. lia.
Qed.

Lemma tickLoop_schedule cfg todo : forall s s' fl,
  releaseOverHorizon cfg -> 0 < timeStep cfg ->
  scheduleInv cfg s -> isRunning s = true ->
  tickLoop rounds cfg todo s = Some (s', fl) ->
  scheduleInv cfg s' /\ (fl = false -> isRunning s' = true).
Proof.
  induction todo as [| todo IH]; simpl; intros s s' fl Hh Hdt Hinv Hrun E.
  - inversion E; subst. auto.
  - destruct Hinv as (Hle & H0 & Hfull & Hend).
    unfold Js.leb in E. destruct (Rle_dec (maxTime cfg) (time s)) as [Hmet | Hnot].
    + inversion E; subst. split; [| discriminate].
      unfold scheduleInv. simpl. auto.
    + destruct (step rounds cfg s) as [s1 |] eqn:E1; [| discriminate].
      assert (Hlt : time s < maxTime cfg) by lra.
      destruct (step_schedule cfg s s1 Hh Hdt Hlt Hle H0 E1) as (Hle1 & H01 & Hfull1).
      apply (IH s1 s' fl Hh Hdt); [| | exact E].
      * unfold scheduleInv. repeat split; auto.
        left. apply step_inv in E1. destruct E1 as (_ & _ & _ & _ & _ & _ & Er & _).
        congruence.
      * apply step_inv in E1. destruct E1 as (_ & _ & _ & _ & _ & _ & Er & _).
        congruence.
Qed.

Lemma tick_schedule cfg s s' :
  releaseOverHorizon cfg -> 0 < timeStep cfg ->
  scheduleInv cfg s -> tick rounds cfg s = Some s' -> scheduleInv cfg s'.
Proof.
  intros Hh Hdt Hinv. unfold tick.
  destruct (isRunning s) eqn:Hrun; simpl.
  2:{ intros E; inversion E; subst. exact Hinv. }
  destruct (tickLoop rounds cfg (playbackSpeed cfg) s) as [[s1 fl] |] eqn:E1;
    [| discriminate].
  destruct (tickLoop_schedule cfg _ s s1 fl Hh Hdt Hinv Hrun E1) as [Hinv1 _].
  destruct fl; intros E; inversion E; subst; exact Hinv1.
Qed.

Lemma frames_schedule cfg n : forall s s',
  releaseOverHorizon cfg -> 0 < timeStep cfg ->
  scheduleInv cfg s -> frames rounds cfg n s = Some s' -> scheduleInv cfg s'.
Proof.
  induction n as [| n IH]; simpl; intros s s' Hh Hdt Hinv E.
  - inversion E; subst. exact Hinv.
  - destruct (tick rounds cfg s) as [s1 |] eqn:E1; [| discriminate].
    apply (IH s1 s' Hh Hdt); [| exact E].
    apply (tick_schedule cfg s s1 Hh Hdt Hinv E1).
Qed.

Lemma start_schedule cfg g :
  releaseOverHorizon cfg -> 0 < maxTime cfg ->
  scheduleInv cfg (start (initialize cfg g)).
Proof.
  intros [Hmode _] Hmax. unfold initialize. rewrite Hmode.
  unfold scheduleInv. simpl.
  split; [lia | split; [lra | split; [lra | left; reflexivity]]].
Qed.

Lemma step_steady cfg s :
  (0 < rounds)%nat -> numericGrids cfg -> steady cfg s ->
  exists s', step rounds cfg s = Some s' /\ steady cfg s'.
Proof.
  intros Hr Hn [Ha Hl].
  destruct (step_total cfg s Hr Hn Ha Hl) as (s' & E & Ha').
  exists s'. split; [exact E |]. split; [exact Ha' |].
  rewrite (step_length _ _ _ E). exact Hl.
Qed.

Lemma tickLoop_steady cfg todo : forall s,
  (0 < rounds)%nat -> numericGrids cfg -> steady cfg s ->
  exists s' fl,
    tickLoop rounds cfg todo s = Some (s', fl) /\ steady cfg s' /\
    (fl = true -> isRunning s' = false) /\
    (fl = false ->
       time s' = time s + INR todo * timeStep cfg /\ isRunning s' = isRunning s).
Proof.
  induction todo as [| todo IH]; intros s Hr Hn Hs.
  - exists s, false. simpl.
    split; [reflexivity | split; [exact Hs | split; [discriminate |]]].
    intros _. split; [ring | reflexivity].
  - cbn [tickLoop]. destruct (Js.leb (maxTime cfg) (time s)).
    + exists (setRunning false s), true.
      split; [reflexivity | split; [exact Hs | split; [reflexivity | discriminate]]].
    + destruct (step_steady cfg s Hr Hn Hs) as (s1 & E1 & Hs1). rewrite E1.
      destruct (IH s1 Hr Hn Hs1) as (s' & fl & E & Hs' & Ht & Hf).
      exists s', fl. split; [exact E |]. split; [exact Hs' |]. split; [exact Ht |].
      intros Hfl. destruct (Hf Hfl) as [Htime Hrun].
      apply step_inv in E1. destruct E1 as (_ & _ & _ & _ & Et & _ & Er & _).
      rewrite Htime, Et, Hrun, Er, S_INR. split; [ring | reflexivity].
Qed.

Lemma frames_finish cfg (b : nat) : forall s,
  (0 < rounds)%nat -> numericGrids cfg -> (0 < playbackSpeed cfg)%nat ->
  0 < timeStep cfg ->
  steady cfg s -> isRunning s = true ->
  maxTime cfg - time s <= INR b * timeStep cfg ->
  exists n s', frames rounds cfg n s = Some s' /\ isRunning s' = false.
Proof.
  induction b as [| b IH]; intros s Hr Hn Hp Hdt Hs Hrun Hb.
  - exists 1%nat. simpl. unfold tick. rewrite Hrun. simpl.
    destruct (playbackSpeed cfg) as [| k]; [lia |]. simpl.
    simpl in Hb. rewrite JsFacts.leb_true by lra.
    eexists; split; reflexivity.
  - destruct (tickLoop_steady cfg (playbackSpeed cfg) s Hr Hn Hs)
      as (s1 & fl & E & Hs1 & Ht & Hf).
    destruct fl.
    + exists 1%nat, s1. simpl. unfold tick. rewrite Hrun. simpl. rewrite E.
      split; [reflexivity | auto].
    + destruct (Hf eq_refl) as [Htime Hrun1].
      assert (Hb1 : maxTime cfg - time (updateStats cfg s1) <= INR b * timeStep cfg).
      { simpl. rewrite Htime. rewrite S_INR in Hb.
        assert (1 <= INR (playbackSpeed cfg)).
        { change 1 with (INR 1). apply le_INR. lia. }
        nra. }
      destruct (IH (updateStats cfg s1) Hr Hn Hp Hdt) as (n & s' & En & Hdone);
        [exact Hs1 | simpl; congruence | exact Hb1 |].
      exists (S n), s'. simpl. unfold tick. rewrite Hrun. simpl. rewrite E.
      split; [exact En | exact Hdone].
Qed.

Lemma initialize_length cfg g :
  List.length (particles (initialize cfg g)) = particleCount cfg.
Proof.
  unfold initialize. destruct (spillMode cfg).
  - assert (E : forall m n g0, List.length (fst (initInstant cfg m n g0)) = n).
    { intros m n. induction n as [| n IH]; intros g0; simpl; [reflexivity |].
      specialize (IH (fun k => g0 (S (S k)))). unfold Js.random. simpl.
      destruct (initInstant cfg m n _). simpl in *. congruence. }
    specialize (E (oilVolume cfg * 1000 / INR (particleCount cfg)) (particleCount cfg) g).
    destruct (initInstant cfg _ _ g). exact E.
  - simpl. apply repeat_length.
Qed.

Lemma initialize_accepting cfg g :
  accepting g -> accepting (rng (initialize cfg g)).
Proof.
  intros Hg. unfold initialize. destruct (spillMode cfg); [| exact Hg].
  assert (E : forall m n g0, accepting g0 -> accepting (snd (initInstant cfg m n g0))).
  { intros m n. induction n as [| n IH]; intros g0 H0; simpl; [exact H0 |].
    assert (H2 : accepting (fun k => g0 (S (S k)))) by (intros k; exact (H0 (S (S k)))).
    specialize (IH _ H2). unfold Js.random. simpl.
    destruct (initInstant cfg m n _). exact IH. }
  specialize (E (oilVolume cfg * 1000 / INR (particleCount cfg)) (particleCount cfg) g Hg).
  destruct (initInstant cfg _ _ g). exact E.
Qed.

Lemma release_complete_at_horizon cfg g :
  releaseOverHorizon cfg -> 0 < timeStep cfg -> 0 < maxTime cfg ->
  (forall n s,
     frames rounds cfg n (start (initialize cfg g)) = Some s ->
     isRunning s = false ->
     maxTime cfg <= time s /\ particlesReleased s = particleCount cfg) /\
  ((0 < rounds)%nat -> numericGrids cfg -> (0 < playbackSpeed cfg)%nat ->
   accepting g ->
   exists n s,
     frames rounds cfg n (start (initialize cfg g)) = Some s /\
     isRunning s = false /\
     maxTime cfg <= time s /\ particlesReleased s = particleCount cfg).
Proof.
  intros Hh Hdt Hmax.
  assert (Hall : forall n s,
             frames rounds cfg n (start (initialize cfg g)) = Some s ->
             isRunning s = false ->
             maxTime cfg <= time s /\ particlesReleased s = particleCount cfg).
  { intros n s E Hstop.
    pose proof (frames_schedule cfg n _ s Hh Hdt (start_schedule cfg g Hh Hmax) E)
      as (_ & _ & Hfull & Hend).
    destruct Hend as [Hrun | Hmet]; [congruence |]. auto. }
  split; [exact Hall |].
  intros Hr Hn Hp Hg.
  destruct (INR_unbounded (maxTime cfg / timeStep cfg)) as [b Hb].
  destruct (frames_finish cfg b (start (initialize cfg g)) Hr Hn Hp Hdt)
    as (n & s & E & Hstop).
  - split; simpl.
    + apply initialize_accepting. exact Hg.
    + rewrite initialize_length. lia.
  - reflexivity.
  - assert (Ht0 : time (start (initialize cfg g)) = 0).
    { unfold initialize. destruct (spillMode cfg); [| reflexivity].
      destruct (initInstant cfg _ _ g). reflexivity. }
    rewrite Ht0.
    assert (maxTime cfg = maxTime cfg / timeStep cfg * timeStep cfg) by (field; lra).
    nra.
  - exists n, s. destruct (Hall n s E Hstop). auto.
Qed.

(** C3: in continuous mode with spill_duration · 3600 = max_time, for
    every positive step size and a positive horizon, a run that has
    stopped has reached the horizon with every particle released; and
    on a random stream whose Box-Muller draws are accepted the run does
    stop. *)
Theorem continuous_release_completes cfg g :
  spillMode cfg = continuous ->
  spillDuration cfg * 3600 = maxTime cfg ->
  0 < timeStep cfg ->
  0 < maxTime cfg ->
  (forall n s,
     frames rounds cfg n (start (initialize cfg g)) = Some s ->
     isRunning s = false ->
     maxTime cfg <= time s /\ particlesReleased s = particleCount cfg) /\
  ((0 < rounds)%nat -> numericGrids cfg -> (0 < playbackSpeed cfg)%nat ->
   accepting g ->
   exists n s,
     frames rounds cfg n (start (initialize cfg g)) = Some s /\
     isRunning s = false /\
     maxTime cfg <= time s /\ particlesReleased s = particleCount cfg).
Proof.
  intros Hmode HD. apply release_complete_at_horizon. split; assumption.
Qed.

(** ** Steps in scalar mode on an accepting stream, in closed form *)

Lemma accepting_skip k g : accepting g -> accepting (skip k g).
Proof.
  intros H n. unfold skip. replace (k + S n)%nat with (S (k + n)) by lia.
  exact (H (k + n)%nat).
Qed.

Lemma gaussRandom_accepting g :
  (0 < rounds)%nat -> accepting g ->
  gaussRandom rounds g = Some (gaussOf (g 0%nat) (g 1%nat), skip 2 g).
Proof.
  intros Hr H. unfold gaussRandom. destruct rounds as [| r]; [lia |].
  destruct (H 0%nat) as [Hlt Hne]. simpl.
  rewrite JsFacts.leb_false by exact Hlt.
  unfold Js.eqb. destruct (Req_dec_T _ 0) as [E | _]; [contradiction |].
  reflexivity.
Qed.

Lemma displacement_scalar cfg env p g :
  (0 < rounds)%nat -> accepting g -> env_useGrid env = false ->
  displacement rounds cfg env p g =
  let sc := env_scalars env in
  let '(dLat, dLng) :=
    displacementOf (globalTotalU sc) (globalTotalV sc) (globalDiffCoeff sc)
      (env_dt env) (Particle.lat p) g in
  Some (dLat, dLng, skip 4 g).
Proof.
  intros Hr Hg Hu. unfold displacement, drift. rewrite Hu.
  rewrite (gaussRandom_accepting g Hr Hg).
  rewrite (gaussRandom_accepting (skip 2 g) Hr (accepting_skip 2 g Hg)).
  reflexivity.
Qed.

Lemma stepParticle_advected cfg env q g :
  Particle.active q = true ->
  0.05 <= remainFrac (weather env q) ->
  stepParticle rounds cfg env q g =
  match displacement rounds cfg env (spread cfg (weather env q)) g with
  | None => None
  | Some (dLat, dLng, g') =>
      Some (grounding cfg dLat dLng (move dLat dLng (spread cfg (weather env q))), g')
  end.
Proof.
  intros Ha Hrem. unfold stepParticle. rewrite Ha. simpl.
  rewrite JsFacts.ltb_false by exact Hrem. reflexivity.
Qed.

(** Crude oil never weathers below the 5 % threshold. *)
Lemma crude_remainFrac cfg tm q :
  oilType cfg = crude -> 0.05 <= remainFrac (weather (stepEnv cfg tm) q).
Proof.
  intros Ho. unfold remainFrac. rewrite weather_evaporated, weather_dispersed.
  assert (Hv : volatileFrac (env_props (stepEnv cfg tm)) = 0.25).
  { unfold stepEnv, oilProps. simpl. rewrite Ho. reflexivity. }
  rewrite Hv.
  pose proof (Rmin_r (env_evapFraction (stepEnv cfg tm)) 0.25).
  pose proof (Rmin_r (env_dispersFraction (stepEnv cfg tm)) 0.3).
  lra.
Qed.

(** Without grids, without a land mask and with crude oil, an active
    particle stays active, ages by one step and takes the step's
    evaporation fraction. *)
Lemma crude_particleStep cfg tm q p' :
  oilType cfg = crude -> landMask cfg = None ->
  particleStep rounds cfg (stepEnv cfg tm) q p' ->
  Particle.active q = true ->
  Particle.active p' = true /\
  Particle.age p' = Particle.age q + timeStep cfg /\
  Particle.evaporated p' = Rmin (env_evapFraction (stepEnv cfg tm)) 0.25.
Proof.
  intros Ho Hm H Ha.
  pose proof (crude_remainFrac cfg tm q Ho) as Hrem.
  destruct H as [Hq | Hq Hlow | g dLat dLng g' Hq _ Hd]; [congruence | lra |].
  rewrite grounding_onLand. unfold onLand. rewrite Hm.
  set (w := weather (stepEnv cfg tm) q).
  destruct (spread_position cfg w) as (_ & _ & Eact & _).
  destruct (spread_sameWeathering cfg w) as (Eev & _ & _ & Eage).
  simpl. rewrite Eact, Eage, Eev. unfold w.
  rewrite weather_active, weather_age, weather_evaporated.
  split; [exact Ha | split; [reflexivity |]].
  assert (Hv : volatileFrac (env_props (stepEnv cfg tm)) = 0.25).
  { unfold stepEnv, oilProps. simpl. rewrite Ho. reflexivity. }
  rewrite Hv. reflexivity.
Qed.

Lemma release_instant cfg s :
  spillMode cfg = instant ->
  release cfg s = Some (particles s, particlesReleased s, rng s).
Proof. intros H. unfold release. rewrite H. reflexivity. Qed.

Lemma crude_step cfg s :
  oilType cfg = crude -> landMask cfg = None -> spillMode cfg = instant ->
  (0 < rounds)%nat -> numericGrids cfg -> steady cfg s ->
  Forall (fun p => Particle.active p = true) (particles s) ->
  exists s',
    step rounds cfg s = Some s' /\ steady cfg s' /\
    time s' = time s + timeStep cfg /\
    trajectory s' =
      sampleTrajectory (timeStep cfg) (time s + timeStep cfg) (particles s')
        (trajectory s) /\
    Forall (fun p => Particle.active p = true) (particles s') /\
    Forall2
      (fun p p' =>
         Particle.age p' = Particle.age p + timeStep cfg /\
         Particle.evaporated p' = Rmin (env_evapFraction (stepEnv cfg (time s))) 0.25)
      (particles s) (particles s').
Proof.
  intros Ho Hm Hi Hr Hn Hs Hact.
  destruct (step_steady cfg s Hr Hn Hs) as (s' & E & Hs').
  exists s'. split; [exact E |]. split; [exact Hs' |].
  destruct (step_inv _ _ _ E) as (ps1 & g1 & Er & Ep & Et & _ & _ & Etr).
  split; [exact Et |]. split; [exact Etr |].
  rewrite (release_instant cfg s Hi) in Er. inversion Er; subst ps1 g1.
  apply stepParticles_Forall2 in Ep.
  assert (F : Forall2
                (fun p p' =>
                   Particle.active p' = true /\
                   Particle.age p' = Particle.age p + timeStep cfg /\
                   Particle.evaporated p' =
                     Rmin (env_evapFraction (stepEnv cfg (time s))) 0.25)
                (particles s) (particles s')).
  { clear - Ep Hact Ho Hm.
    induction Ep as [| p p' l l' Hpp F IH]; [constructor |].
    inversion Hact; subst. constructor; [| apply IH; assumption].
    eapply crude_particleStep; eauto. }
  split.
  - clear - F. induction F as [| p p' l l' H F IH]; constructor; [apply H | exact IH].
  - eapply Forall2_impl; [| exact F]. simpl. intros a b (_ & Hage & Hev). auto.
Qed.



End Facts.

(** * Concrete runs *)

Lemma scalarRun_numeric dt T : numericGrids (scalarRun dt T).
Proof. split; intros g E; discriminate. Qed.

Lemma scalarRun_initial dt T :
  exists p0,
    initialize (scalarRun dt T) steadyDraws =
      mkState [p0] 0 1 (initialStats (scalarRun dt T)) [] false steadyDraws /\
    Particle.active p0 = true /\ Particle.age p0 = 0.
Proof. eexists. split; [reflexivity | split; reflexivity]. Qed.

(** The first two steps of the run. *)
Lemma scalarRun_two_steps dt T :
  let cfg := scalarRun dt T in
  let s0 := initialize cfg steadyDraws in
  exists s1 s2 p1 p2,
    step 1 cfg s0 = Some s1 /\ step 1 cfg s1 = Some s2 /\
    particles s1 = [p1] /\ particles s2 = [p2] /\
    Particle.active p1 = true /\ Particle.active p2 = true /\
    Particle.age p1 = 0 + dt /\ Particle.age p2 = 0 + dt + dt /\
    time s1 = 0 + dt /\ time s2 = 0 + dt + dt /\
    trajectory s1 = sampleTrajectory dt (0 + dt) [p1] [] /\
    trajectory s2 = sampleTrajectory dt (0 + dt + dt) [p2] (trajectory s1) /\
    Particle.evaporated p2 = Rmin (env_evapFraction (stepEnv cfg (0 + dt))) 0.25.
Proof.
  intros cfg s0.
  destruct (scalarRun_initial dt T) as (p0 & E0 & Ha0 & Hage0).
  fold cfg in E0. fold s0 in E0.
  assert (Hs0 : steady cfg s0).
  { rewrite E0. split; [exact accepting_constant | simpl; lia]. }
  assert (Hact0 : Forall (fun p => Particle.active p = true) (particles s0)).
  { rewrite E0. simpl. constructor; [exact Ha0 | constructor]. }
  destruct (crude_step 1 cfg s0 eq_refl eq_refl eq_refl (Nat.lt_0_1)
              (scalarRun_numeric dt T) Hs0 Hact0)
    as (s1 & E1 & Hs1 & Ht1 & Etr1 & Hact1 & F1).
  destruct (crude_step 1 cfg s1 eq_refl eq_refl eq_refl (Nat.lt_0_1)
              (scalarRun_numeric dt T) Hs1 Hact1)
    as (s2 & E2 & Hs2 & Ht2 & Etr2 & Hact2 & F2).
  change (timeStep cfg) with dt in *.
  rewrite E0 in F1, Ht1, Etr1. simpl in F1, Ht1, Etr1.
  inversion F1 as [| a p1 l l1 [Hage1 _] F1' Ea El]; subst.
  inversion F1'; subst.
  match goal with H : _ = particles s1 |- _ => symmetry in H; rename H into Ep1 end.
  rewrite Ep1 in F2, Hact1, Etr1.
  inversion F2 as [| a p2 l l2 [Hage2 Hev2] F2' Ea El]; subst.
  inversion F2'; subst.
  match goal with H : _ = particles s2 |- _ => symmetry in H; rename H into Ep2 end.
  rewrite Ep2 in Hact2, Etr2.
  inversion Hact1; subst. inversion Hact2; subst.
  exists s1, s2, p1, p2.
  rewrite Ht1 in Ht2, Etr2, Hev2.
  repeat split; try assumption; lra.
Qed.

Lemma Rpower_2_exponents : Rpower 2 (-0.33) <> Rpower 2 (- 1 / 3).
Proof.
  unfold Rpower. intros E. apply exp_inv in E.
  assert (0 < ln 2) by (rewrite <- ln_1; apply ln_increasing; lra).
  lra.
Qed.

(** C1, as stated, fails: after the first two-hour step of a run the
    particle is active with age 7200 s, and its thickness is not
    0.01·2^(−1/3). *)
Lemma fay_thickness_not_one_third :
  exists s' p',
    step 1 (scalarRun 7200 18) (initialize (scalarRun 7200 18) steadyDraws) = Some s' /\
    nth_error (particles s') 0 = Some p' /\
    Particle.active p' = true /\
    0 < Particle.age p' /\
    Particle.thickness p' <> 0.01 * Js.pow (Particle.age p' / 3600) (- 1 / 3).
Proof.
  destruct (scalarRun_two_steps 7200 18)
    as (s1 & s2 & p1 & p2 & E1 & _ & Ep1 & _ & Ha1 & _ & Hage1 & _).
  exists s1, p1.
  assert (Hn : nth_error (particles s1) 0 = Some p1) by (rewrite Ep1; reflexivity).
  split; [exact E1 |]. split; [exact Hn |]. split; [exact Ha1 |].
  split; [lra |].
  rewrite (step_active_thickness 1 _ _ _ 0%nat p1 E1 Hn Ha1) by lra.
  unfold Js.pow. rewrite Hage1.
  replace ((0 + 7200) / 3600) with 2 by lra.
  pose proof Rpower_2_exponents. lra.
Qed.

Lemma fay_thickness_exponent_witness :
  exists s' p',
    step 1 (scalarRun 7200 18) (initialize (scalarRun 7200 18) steadyDraws) = Some s' /\
    nth_error (particles s') 0 = Some p' /\
    Particle.active p' = true /\
    0 < Particle.age p' /\
    Particle.thickness p' = 0.01 * Js.pow (Particle.age p' / 3600) (-0.33).
Proof.
  destruct (scalarRun_two_steps 7200 18)
    as (s1 & s2 & p1 & p2 & E1 & _ & Ep1 & _ & Ha1 & _ & Hage1 & _).
  exists s1, p1.
  assert (Hn : nth_error (particles s1) 0 = Some p1) by (rewrite Ep1; reflexivity).
  assert (Hage : 0 < Particle.age p1) by lra.
  split; [exact E1 |]. split; [exact Hn |]. split; [exact Ha1 |].
  split; [exact Hage |].
  exact (fay_thickness_exponent 1 _ _ _ 0%nat p1 E1 Hn Ha1 Hage).
Defined.

(** C6, as stated, fails: with water at −10 °C the particle of a
    reachable state has a negative evaporated fraction. *)
Lemma evaporated_negative_in_cold_water :
  exists s p,
    reachable 1 (scalarRun 7200 (-10)) s /\
    In p (particles s) /\
    Particle.evaporated p < 0.
Proof.
  destruct (scalarRun_two_steps 7200 (-10))
    as (s1 & s2 & p1 & p2 & E1 & E2 & _ & Ep2 & _ & _ & _ & _ & _ & _ & _ & _ & Hev).
  exists s2, p2. split; [| split].
  - eapply reach_step; [| exact E2]. eapply reach_step; [| exact E1]. apply reach_init.
  - rewrite Ep2. left. reflexivity.
  - rewrite Hev. eapply Rle_lt_trans; [apply Rmin_l |].
    unfold stepEnv. cbn [env_evapFraction]. unfold calcEvaporation.
    rewrite JsFacts.leb_false by (cbn [timeStep scalarRun]; lra).
    eapply Rle_lt_trans; [apply Rmin_l |].
    cbn [evapRate oilProps oilType scalarRun OIL_PROPERTIES waterTemp useGridData
         hasGridData windGrid currentGrid tempGrid present andb orb scalarField negb
         globalWs windSpeed].
    assert (Hs : 0 < sqrt ((0 + 7200) / 3600)) by (apply sqrt_lt_R0; lra).
    pose proof (SIN_bound ((0 + 7200) * 0.0002)) as [Hlo Hhi].
    assert (Hk : 0.042 * (1 + 0.045 * (-10 - 15)) = - 0.00525) by lra.
    rewrite Hk.
    assert (Hw : 0 < 1 + 0.01 * (5.0 * (1 + sin ((0 + 7200) * 0.0002) * 0.1))) by lra.
    assert (0 < sqrt ((0 + 7200) / 3600) *
                (1 + 0.01 * (5.0 * (1 + sin ((0 + 7200) * 0.0002) * 0.1))))
      by (apply Rmult_lt_0_compat; assumption).
    nra.
Qed.

Lemma scalarRun_mild : mildConditions (scalarRun 7200 18).
Proof. unfold mildConditions. simpl. lra. Qed.

Lemma weathering_fractions_bounded_witness :
  exists s p,
    reachable 1 (scalarRun 7200 18) s /\
    In p (particles s) /\
    mildConditions (scalarRun 7200 18) /\
    0 <= Particle.evaporated p <= volatileFrac (oilProps (scalarRun 7200 18)) /\
    0 <= Particle.dispersed p <= 0.3 /\
    0 <= Particle.emulsionWater p <= 0.7.
Proof.
  destruct (scalarRun_two_steps 7200 18)
    as (s1 & s2 & p1 & p2 & E1 & E2 & _ & Ep2 & _).
  assert (Hr : reachable 1 (scalarRun 7200 18) s2).
  { eapply reach_step; [| exact E2]. eapply reach_step; [| exact E1]. apply reach_init. }
  assert (Hin : In p2 (particles s2)) by (rewrite Ep2; left; reflexivity).
  destruct (weathering_fractions_bounded 1 _ s2 p2 Hr Hin) as ((He & Hd & Hw) & Hlow).
  exists s2, p2. split; [exact Hr |]. split; [exact Hin |].
  split; [exact scalarRun_mild |].
  split; [exact (conj (Hlow scalarRun_mild) He) |]. split; [exact Hd | exact Hw].
Defined.



Lemma useGridData_without_grids_witness :
  initialize (setUseGridData true (scalarRun 7200 18)) steadyDraws =
  initialize (setUseGridData false (scalarRun 7200 18)) steadyDraws /\
  frames 1 (setUseGridData true (scalarRun 7200 18)) 3
    (start (initialize (scalarRun 7200 18) steadyDraws)) =
  frames 1 (setUseGridData false (scalarRun 7200 18)) 3
    (start (initialize (scalarRun 7200 18) steadyDraws)).
Proof.
  destruct (useGridData_without_grids 1 (scalarRun 7200 18) steadyDraws
              eq_refl eq_refl eq_refl eq_refl) as (Hi & _ & Hf & _).
  split; [exact Hi | apply Hf].
Defined.

Lemma accepting_alternating : accepting alternatingDraws.
Proof.
  intros n. unfold alternatingDraws. rewrite Nat.even_succ, <- Nat.negb_even.
  destruct (Nat.even n); simpl; split; lra.
Qed.

Lemma coastRun_numeric : numericGrids coastRun.
Proof. split; intros g E; discriminate. Qed.

Lemma floor_clamp_low y : Z.min (Zfloor (Rmax 0 y)) 0 = 0%Z.
Proof. apply Z.min_r. apply Zfloor_lub. apply Rmax_l. Qed.

Lemma coastMask_sample la ln : Grid.sample coastMask "lsm" la ln None = Some 1.
Proof.
  unfold Grid.sample.
  cbn [coastMask Grid.new Grid.vars Grid.storeVars coastJson Grid.json_vars
       fold_left List.length Nat.ltb Nat.leb map Grid.lookup String.eqb Ascii.eqb
       Bool.eqb Grid.isTimeVarying negb Grid.json_time_hours Z.ltb Z.compare
       Grid.nLat Grid.nLon Grid.json_lat Grid.json_lon].
  change (Z.of_nat 2 - 2)%Z with 0%Z.
  rewrite !floor_clamp_low.
  change (Grid.tget [1; 1; 1; 1] (0 * Z.of_nat 2 + 0)) with (Some 1).
  change (Grid.tget [1; 1; 1; 1] (0 * Z.of_nat 2 + (0 + 1))) with (Some 1).
  change (Grid.tget [1; 1; 1; 1] ((0 + 1) * Z.of_nat 2 + 0)) with (Some 1).
  change (Grid.tget [1; 1; 1; 1] ((0 + 1) * Z.of_nat 2 + (0 + 1))) with (Some 1).
  unfold Grid.bilinear. f_equal. ring.
Qed.

Lemma coastMask_covers la ln :
  -1 <= la <= 1 -> -1 <= ln <= 1 -> Grid.contains coastMask la ln = true.
Proof.
  intros [H1 H2] [H3 H4]. unfold Grid.contains.
  cbn [coastMask Grid.new Grid.latMin Grid.latMax Grid.lonMin Grid.lonMax
       coastJson Grid.json_lat Grid.json_lon List.length].
  change (Grid.axis [-1; 1] 0) with (-1).
  change (Grid.axis [-1; 1] (Z.of_nat 2 - 1)) with 1.
  rewrite !JsFacts.leb_true by assumption. reflexivity.
Qed.

Lemma coastMask_land p :
  -1 <= Particle.lat p <= 1 -> -1 <= Particle.lng p <= 1 ->
  overLand coastMask p = true.
Proof.
  intros Hla Hln. unfold overLand.
  rewrite coastMask_covers by assumption. rewrite coastMask_sample.
  apply JsFacts.ltb_true. lra.
Qed.

Lemma sqrt_three_quarters : 0 < sqrt (3 / 4) <= 1.
Proof.
  split; [apply sqrt_lt_R0; lra |].
  rewrite <- sqrt_1. apply sqrt_le_1_alt. lra.
Qed.

Lemma coastRun_release :
  exists q g1,
    release coastRun coastStart = Some ([q], 1%nat, g1) /\
    accepting g1 /\ g1 0%nat = 1 / 2 /\ g1 2%nat = 1 / 2 /\
    Particle.active q = true /\ Particle.beached q = false /\
    Particle.lat q = - (sqrt (3 / 4) * 0.001) /\ Particle.lng q = 0.
Proof.
  unfold release.
  change (isContinuous (spillMode coastRun) &&
          (particlesReleased coastStart <? particleCount coastRun)%nat) with true.
  cbv iota.
  rewrite JsFacts.ltb_true by (simpl; lra).
  rewrite targetReleased_at_horizon by (simpl; lra).
  change (Z.to_nat (Z.of_nat (particleCount coastRun) -
                    Z.of_nat (particlesReleased coastStart))) with 1%nat.
  eexists. eexists. split; [reflexivity |].
  split; [intros n; exact (accepting_alternating (S (S n))) |].
  split; [reflexivity |]. split; [reflexivity |].
  split; [reflexivity |]. split; [reflexivity |].
  cbn [Particle.lat Particle.lng placed Particle.set_age Particle.set_active
       Particle.set_lng Particle.set_lat spillLat spillLng coastRun
       alternatingDraws Nat.even].
  change (rng coastStart 1%nat) with (3 / 4).
  change (rng coastStart 0%nat) with (1 / 2).
  replace (1 / 2 * 2 * PI) with PI by lra.
  rewrite cos_PI, sin_PI. split; unfold Rdiv; ring.
Qed.

Lemma coastRun_still tm la g :
  g 0%nat = 1 / 2 -> g 2%nat = 1 / 2 ->
  let sc := env_scalars (stepEnv coastRun tm) in
  displacementOf (globalTotalU sc) (globalTotalV sc) (globalDiffCoeff sc)
    (env_dt (stepEnv coastRun tm)) la g = (0, 0).
Proof.
  intros H0 H2. unfold displacementOf, gaussOf. rewrite H0, H2.
  replace (1 / 2 * 2 - 1) with 0 by lra.
  unfold stepEnv, scalarField.
  cbn [env_scalars env_dt useGridData hasGridData windGrid currentGrid tempGrid
       coastRun present andb orb negb globalTotalU globalTotalV globalDiffCoeff
       windSpeed currentSpeed timeStep].
  f_equal; unfold Rdiv; ring.
Qed.

Lemma coastRun_first_step :
  exists s' p0 p',
    step 1 coastRun coastStart = Some s' /\
    particles coastStart = [p0] /\ particles s' = [p'] /\
    particlesReleased coastStart = 0%nat /\ particlesReleased s' = 1%nat /\
    Particle.beached p0 = false /\ Particle.lat p0 = 0 /\
    Particle.beached p' = true /\ Particle.active p' = false /\
    Particle.lat p' = - (sqrt (3 / 4) * 0.001).
Proof.
  destruct coastRun_release as (q & g1 & Er & Hacc & Hg0 & Hg2 & Ha & Hb & Hla & Hln).
  set (env := stepEnv coastRun (time coastStart)).
  set (w := spread coastRun (weather env q)).
  assert (Hw : Particle.lat w = - (sqrt (3 / 4) * 0.001) /\ Particle.lng w = 0).
  { destruct (spread_position coastRun (weather env q)) as (El & En & _).
    unfold w. rewrite El, En, weather_lat, weather_lng. auto. }
  destruct Hw as [Hwla Hwln].
  assert (Hd : displacement 1 coastRun env w g1 = Some (0, 0, skip 4 g1)).
  { rewrite displacement_scalar; [| lia | exact Hacc | reflexivity].
    cbv zeta. unfold env. rewrite (coastRun_still _ _ g1 Hg0 Hg2). reflexivity. }
  assert (Hland : overLand coastMask (move 0 0 w) = true).
  { pose proof sqrt_three_quarters as [Hs0 Hs1].
    apply coastMask_land; simpl; rewrite ?Hwla, ?Hwln; lra. }
  assert (Hp : stepParticle 1 coastRun env q g1 =
               Some (grounded 0 0 (move 0 0 w), skip 4 g1)).
  { rewrite stepParticle_advected;
      [| exact Ha | apply crude_remainFrac; reflexivity].
    fold w. rewrite Hd. rewrite grounding_onLand.
    unfold onLand. cbn [landMask coastRun]. rewrite Hland. reflexivity. }
  eexists. eexists. eexists.
  split.
  { unfold step. rewrite Er. fold env. cbn [stepParticles]. rewrite Hp. reflexivity. }
  split; [reflexivity |]. split; [reflexivity |].
  split; [reflexivity |]. split; [reflexivity |].
  split; [reflexivity |]. split; [reflexivity |].
  split; [reflexivity |]. split; [reflexivity |].
  simpl. rewrite Hwla. ring.
Qed.

(** C4, as stated, fails: the particle released and grounded in the
    first step ends at its release point, not at the position it had
    when the step began. *)
Lemma released_particle_grounds_at_release_point :
  exists s' p p',
    step 1 coastRun (initialize coastRun alternatingDraws) = Some s' /\
    nth_error (particles (initialize coastRun alternatingDraws)) 0 = Some p /\
    nth_error (particles s') 0 = Some p' /\
    Particle.beached p = false /\
    Particle.beached p' = true /\
    Particle.lat p' <> Particle.lat p.
Proof.
  destruct coastRun_first_step
    as (s' & p0 & p' & E & Ep0 & Ep' & _ & _ & Hb0 & Hla0 & Hb' & _ & Hla').
  exists s', p0, p'. fold coastStart.
  split; [exact E |].
  split; [rewrite Ep0; reflexivity |].
  split; [rewrite Ep'; reflexivity |].
  split; [exact Hb0 |]. split; [exact Hb' |].
  rewrite Hla', Hla0. pose proof sqrt_three_quarters. lra.
Qed.

(** The first step of the run that drifts north onto the land. *)
Lemma shoreRun_initial :
  exists p0,
    initialize shoreRun alternatingDraws =
      mkState [p0] 0 1 (initialStats shoreRun) [] false
        (fun n => alternatingDraws (S (S n))) /\
    Particle.active p0 = true /\ Particle.beached p0 = false /\
    Particle.lat p0 = - (sqrt (3 / 4) * 0.002) /\ Particle.lng p0 = 0.
Proof.
  eexists. split; [reflexivity |]. split; [reflexivity |]. split; [reflexivity |].
  cbn [Particle.lat Particle.lng Particle.set_viscosity Particle.new
       spillLat spillLng shoreRun alternatingDraws Nat.even].
  replace (1 / 2 * 2 * PI) with PI by lra.
  rewrite cos_PI, sin_PI. split; unfold Rdiv; ring.
Qed.

Lemma shoreRun_northward la g :
  g 0%nat = 1 / 2 -> g 2%nat = 1 / 2 ->
  let sc := env_scalars (stepEnv shoreRun 0) in
  displacementOf (globalTotalU sc) (globalTotalV sc) (globalDiffCoeff sc)
    (env_dt (stepEnv shoreRun 0)) la g =
  (3600 / EARTH_RADIUS * RAD_TO_DEG, 0).
Proof.
  intros H0 H2. unfold displacementOf, gaussOf. rewrite H0, H2.
  replace (1 / 2 * 2 - 1) with 0 by lra.
  unfold stepEnv, scalarField.
  cbn [env_scalars env_dt useGridData hasGridData windGrid currentGrid tempGrid
       shoreRun present andb orb negb globalTotalU globalTotalV globalDiffCoeff
       windSpeed currentSpeed currentDir timeStep].
  rewrite !Rmult_0_l, sin_0, cos_0.
  replace ((-3 + 3 * 1) * DEG_TO_RAD) with 0 by ring.
  rewrite sin_0, cos_0.
  f_equal; unfold Rdiv; ring.
Qed.

Lemma shoreRun_displacement : 0 < 3600 / EARTH_RADIUS * RAD_TO_DEG <= 1.
Proof.
  unfold EARTH_RADIUS, RAD_TO_DEG. pose proof PI2_1 as HPI.
  assert (Hpos : 0 < / PI) by (apply Rinv_0_lt_compat; lra).
  assert (Hle : / PI <= 1).
  { rewrite <- Rinv_1. apply Rinv_le_contravar; lra. }
  unfold Rdiv. split; nra.
Qed.

Lemma shoreRun_first_step :
  exists s' p0 w g1,
    step 1 shoreRun (initialize shoreRun alternatingDraws) = Some s' /\
    particles (initialize shoreRun alternatingDraws) = [p0] /\
    rng (initialize shoreRun alternatingDraws) = g1 /\
    Particle.active p0 = true /\ Particle.beached p0 = false /\
    w = spread shoreRun (weather (stepEnv shoreRun 0) p0) /\
    displacement 1 shoreRun (stepEnv shoreRun 0) w g1 =
      Some (3600 / EARTH_RADIUS * RAD_TO_DEG, 0, skip 4 g1) /\
    particles s' = [grounded (3600 / EARTH_RADIUS * RAD_TO_DEG) 0
                      (move (3600 / EARTH_RADIUS * RAD_TO_DEG) 0 w)].
Proof.
  destruct shoreRun_initial as (p0 & E0 & Ha & Hb & Hla & Hln).
  set (g1 := fun n => alternatingDraws (S (S n))) in *.
  set (env := stepEnv shoreRun 0).
  set (w := spread shoreRun (weather env p0)).
  set (d := 3600 / EARTH_RADIUS * RAD_TO_DEG).
  assert (Hacc : accepting g1) by (intros n; exact (accepting_alternating (S (S n)))).
  assert (Hw : Particle.lat w = - (sqrt (3 / 4) * 0.002) /\ Particle.lng w = 0).
  { destruct (spread_position shoreRun (weather env p0)) as (El & En & _).
    unfold w. rewrite El, En, weather_lat, weather_lng. auto. }
  destruct Hw as [Hwla Hwln].
  assert (Hd : displacement 1 shoreRun env w g1 = Some (d, 0, skip 4 g1)).
  { rewrite displacement_scalar; [| lia | exact Hacc | reflexivity].
    cbv zeta. unfold env.
    rewrite (shoreRun_northward (Particle.lat w) g1 eq_refl eq_refl). reflexivity. }
  assert (Hland : overLand coastMask (move d 0 w) = true).
  { pose proof sqrt_three_quarters as [Hs0 Hs1].
    pose proof shoreRun_displacement as [Hd0 Hd1]. fold d in Hd0, Hd1.
    apply coastMask_land; simpl; rewrite ?Hwla, ?Hwln; lra. }
  assert (Hp : stepParticle 1 shoreRun env p0 g1 =
               Some (grounded d 0 (move d 0 w), skip 4 g1)).
  { rewrite stepParticle_advected;
      [| exact Ha | apply crude_remainFrac; reflexivity].
    fold w. rewrite Hd. rewrite grounding_onLand.
    unfold onLand. cbn [landMask shoreRun]. rewrite Hland. reflexivity. }
  exists (mkState [grounded d 0 (move d 0 w)] (0 + 3600) 1 (initialStats shoreRun)
            (sampleTrajectory 3600 (0 + 3600) [grounded d 0 (move d 0 w)] [])
            false (skip 4 g1)), p0, w, g1.
  rewrite E0. split.
  { unfold step. rewrite release_instant by reflexivity.
    cbn [particles time rng particlesReleased stats trajectory isRunning].
    fold env. cbn [stepParticles]. rewrite Hp. reflexivity. }
  split; [reflexivity |]. split; [reflexivity |]. split; [exact Ha |].
  split; [exact Hb |]. split; [reflexivity |]. split; [exact Hd | reflexivity].
Qed.

Lemma grounding_reverts_position_witness :
  exists s' p p' dLat dLng,
    step 1 shoreRun (initialize shoreRun alternatingDraws) = Some s' /\
    nth_error (particles (initialize shoreRun alternatingDraws)) 0 = Some p /\
    nth_error (particles s') 0 = Some p' /\
    Particle.beached p = false /\
    Particle.beached p' = true /\
    0 < dLat /\
    onLand shoreRun
      (move dLat dLng (spread shoreRun (weather (stepEnv shoreRun 0) p))) = true /\
    Particle.active p' = false /\
    Particle.lat p' = Particle.lat p /\ Particle.lng p' = Particle.lng p.
Proof.
  destruct shoreRun_first_step
    as (s' & p0 & w & g1 & E & Ep0 & Eg & Ha0 & Hb0 & Ew & Hd & Ep').
  set (s0 := initialize shoreRun alternatingDraws) in *.
  assert (Hn0 : nth_error (particles s0) 0 = Some p0) by (rewrite Ep0; reflexivity).
  assert (Hn' : nth_error (particles s') 0 =
                Some (grounded (3600 / EARTH_RADIUS * RAD_TO_DEG) 0
                        (move (3600 / EARTH_RADIUS * RAD_TO_DEG) 0 w)))
    by (rewrite Ep'; reflexivity).
  destruct (grounding_reverts_position 1 shoreRun s0 s' 0%nat p0 _ E Hn0 Hn' Hb0 eq_refl)
    as (ps1 & g1' & q & g0 & dLat & dLng & g2 & H).
  cbv zeta in H.
  destruct H as (Er & Hq & _ & Hout & _ & Hs & Hdisp & Hland & _ & Hact & Hla & Hln).
  assert (Hrel : release shoreRun s0 = Some (particles s0, particlesReleased s0, rng s0))
    by (apply release_instant; reflexivity).
  assert (Eps : ps1 = particles s0) by congruence.
  assert (Eg1 : g1' = g1) by congruence.
  assert (Eq : q = p0) by (rewrite Eps, Hn0 in Hq; congruence).
  assert (Eg0 : g0 = g1).
  { unfold streamAt in Hs. cbn [firstn stepParticles] in Hs. congruence. }
  subst ps1 g1' q g0.
  change (time s0) with 0 in Hdisp, Hland. rewrite <- Ew in Hdisp, Hland.
  assert (EdLat : dLat = 3600 / EARTH_RADIUS * RAD_TO_DEG) by congruence.
  exists s', p0, (grounded (3600 / EARTH_RADIUS * RAD_TO_DEG) 0
                    (move (3600 / EARTH_RADIUS * RAD_TO_DEG) 0 w)), dLat, dLng.
  split; [exact E |]. split; [exact Hn0 |]. split; [exact Hn' |].
  split; [exact Hb0 |]. split; [reflexivity |].
  split; [rewrite EdLat; exact (proj1 shoreRun_displacement) |].
  split; [rewrite <- Ew; exact Hland |].
  split; [exact Hact |]. split; [exact Hla | exact Hln].
Defined.

Lemma continuous_release_completes_witness :
  exists n s,
    frames 1 coastRun n (start (initialize coastRun alternatingDraws)) = Some s /\
    isRunning s = false /\
    maxTime coastRun <= time s /\
    particlesReleased s = particleCount coastRun.
Proof.
  assert (H1 : spillDuration coastRun * 3600 = maxTime coastRun) by (simpl; lra).
  assert (H2 : 0 < timeStep coastRun) by (simpl; lra).
  assert (H3 : 0 < maxTime coastRun) by (simpl; lra).
  exact (proj2 (continuous_release_completes 1 coastRun alternatingDraws
                  eq_refl H1 H2 H3)
           Nat.lt_0_1 coastRun_numeric Nat.lt_0_1 accepting_alternating).
Defined.

Lemma updateStats_without_active_witness :
  exists s,
    reachable 1 coastRun s /\
    activeParticles (particles s) = [] /\
    List.length (filter Particle.beached (particles s)) = 1%nat /\
    st_beached (stats s) = 0%nat /\
    st_beached (stats (updateStats coastRun s)) = 1%nat /\
    st_centerLat (stats (updateStats coastRun s)) = st_centerLat (stats s).
Proof.
  destruct coastRun_first_step
    as (s' & p0 & p' & E & _ & Ep' & _ & _ & _ & _ & Hb' & Ha' & _).
  assert (Hr : reachable 1 coastRun s')
    by (eapply reach_step; [apply reach_init | exact E]).
  assert (Ha : activeParticles (particles s') = [])
    by (rewrite Ep'; unfold activeParticles; simpl; rewrite Ha'; reflexivity).
  assert (Hn : List.length (filter Particle.beached (particles s')) = 1%nat)
    by (rewrite Ep'; simpl; rewrite Hb'; reflexivity).
  assert (Hst : stats s' = stats coastStart).
  { destruct (step_inv 1 _ _ _ E) as (_ & _ & _ & _ & _ & Hs & _). exact Hs. }
  pose proof (updateStats_without_active 1 coastRun s' Hr Ha) as H.
  cbv zeta in H. destruct H as (H1 & _ & _ & _ & H5 & _).
  exists s'. split; [exact Hr |]. split; [exact Ha |]. split; [exact Hn |].
  split; [rewrite Hst; reflexivity |].
  split; [rewrite H5; exact Hn | exact H1].
Defined.

Lemma shoreRun_remain tm : 0.05 <= scalarRemain shoreRun tm.
Proof.
  unfold scalarRemain. cbv zeta.
  change (volatileFrac (oilProps shoreRun)) with 0.25.
  match goal with
  | |- _ <= 1 - Rmin ?a 0.25 - Rmin ?b 0.3 =>
      pose proof (Rmin_r a 0.25); pose proof (Rmin_r b 0.3)
  end.
  lra.
Qed.

Lemma landMask_alone_keeps_scalar_mode_witness :
  hasGridData shoreRun = false /\
  (forall s, step 1 shoreRun s = step 1 (setUseGridData false shoreRun) s) /\
  exists s' q n1 n2 p',
    step 1 shoreRun (initialize shoreRun alternatingDraws) = Some s' /\
    nth_error (particles (initialize shoreRun alternatingDraws)) 0 = Some q /\
    nth_error (particles s') 0 = Some p' /\
    Particle.active q = true /\
    scalarOutcome shoreRun coastMask 0 q n1 n2 p'.
Proof.
  destruct (landMask_alone_keeps_scalar_mode 1 shoreRun coastMask
              eq_refl eq_refl eq_refl eq_refl eq_refl) as (H1 & _ & H3 & H4).
  split; [exact H1 |]. split; [exact H3 |].
  destruct shoreRun_first_step
    as (s' & p0 & w & g1 & E & Ep0 & Eg & Ha0 & Hb0 & Ew & Hd & Ep').
  set (s0 := initialize shoreRun alternatingDraws) in *.
  assert (Hn0 : nth_error (particles s0) 0 = Some p0) by (rewrite Ep0; reflexivity).
  assert (Hn' : nth_error (particles s') 0 =
                Some (grounded (3600 / EARTH_RADIUS * RAD_TO_DEG) 0
                        (move (3600 / EARTH_RADIUS * RAD_TO_DEG) 0 w)))
    by (rewrite Ep'; reflexivity).
  assert (HW : 0 <= windSpeed shoreRun) by (simpl; lra).
  assert (HT : 0 <= timeStep shoreRun) by (simpl; lra).
  destruct (H4 HW HT s0 s' 0%nat _ E Hn') as (ps1 & g1' & q & Er & Hq & _ & Hadv).
  assert (Hrel : release shoreRun s0 = Some (particles s0, particlesReleased s0, rng s0))
    by (apply release_instant; reflexivity).
  assert (Eps : ps1 = particles s0) by congruence.
  assert (Eq : q = p0) by (rewrite Eps, Hn0 in Hq; congruence).
  subst q.
  assert (Hcos : cos (Particle.lat p0 * DEG_TO_RAD) <> 0).
  { destruct shoreRun_initial as (p0' & E0 & _ & _ & Hla & _).
    assert (p0' = p0).
    { unfold s0 in Ep0. rewrite E0 in Ep0. simpl in Ep0. congruence. }
    subst p0'. rewrite Hla.
    pose proof sqrt_three_quarters as [Hs0 Hs1]. pose proof PI_RGT_0.
    apply Rgt_not_eq. apply cos_gt_0; unfold DEG_TO_RAD; nra. }
  destruct (Hadv Ha0 Hcos (shoreRun_remain (time s0)))
    as (g0 & n1 & ga & n2 & gb & _ & _ & _ & Hout).
  exists s', p0, n1, n2,
    (grounded (3600 / EARTH_RADIUS * RAD_TO_DEG) 0
       (move (3600 / EARTH_RADIUS * RAD_TO_DEG) 0 w)).
  split; [exact E |]. split; [exact Hn0 |]. split; [exact Hn' |].
  split; [exact Ha0 | exact Hout].
Defined.

(** * The grid interpolator *)

Lemma tget_negative data i : (i < 0)%Z -> Grid.tget data i = None.
Proof. intros H. unfold Grid.tget. apply Z.ltb_lt in H. rewrite H. reflexivity. Qed.

Lemma tget_in_range data i :
  (0 <= i < Z.of_nat (List.length data))%Z ->
  Grid.tget data i = Some (nth (Z.to_nat i) data 0).
Proof.
  intros [H0 H1]. unfold Grid.tget.
  destruct (i <? 0)%Z eqn:E; [apply Z.ltb_lt in E; lia |].
  apply nth_error_nth'. lia.
Qed.

Lemma cellIndex_upper x n : (cellIndex x n <= n - 2)%Z.
Proof. unfold cellIndex. apply Z.le_min_r. Qed.

Lemma cellIndex_single x : cellIndex x 1 = (-1)%Z.
Proof.
  unfold cellIndex. apply Z.min_r.
  assert (0 <= Zfloor (Rmax 0 (Rmin x (IZR (1 - 1)))))%Z
    by (apply Zfloor_lub; apply Rmax_l).
  lia.
Qed.

(** A static grid with a single latitude: every sample of a stored
    variable is [NaN]. *)
Lemma sample_single_row g var data la ln th :
  Grid.isTimeVarying g = false -> Grid.nLat g = 1%Z ->
  Grid.lookup var (Grid.vars g) = Some data ->
  Grid.sample g var la ln th = None.
Proof.
  intros Hs Hn Hl. unfold Grid.sample. rewrite Hl, Hs, Hn. cbn [negb].
  fold (cellIndex ((la - Grid.latMin g) / Grid.dLat g) 1).
  fold (cellIndex ((ln - Grid.lonMin g) / Grid.dLon g) (Grid.nLon g)).
  rewrite cellIndex_single.
  pose proof (cellIndex_upper ((ln - Grid.lonMin g) / Grid.dLon g) (Grid.nLon g)).
  rewrite tget_negative by lia. reflexivity.
Qed.

Lemma timeIndex_single_slice g th : Grid.nTime g = 1%Z -> Grid.timeIndex g th = 0.
Proof.
  intros Hn. unfold Grid.timeIndex. rewrite Hn.
  destruct (Js.leb th _); [reflexivity |].
  destruct (Js.leb _ th); reflexivity.
Qed.

(** A time-varying grid with a single time slice: every sample of a
    stored variable is [NaN]. *)
Lemma sample_single_slice g var data la ln th :
  Grid.isTimeVarying g = true -> Grid.nTime g = 1%Z ->
  (0 <= Grid.nLon g)%Z -> Grid.sliceSize g = (Grid.nLat g * Grid.nLon g)%Z ->
  Grid.lookup var (Grid.vars g) = Some data ->
  Grid.sample g var la ln th = None.
Proof.
  intros Hs Hn Hlon Hss Hl. unfold Grid.sample. rewrite Hl, Hs. cbn [negb].
  rewrite (timeIndex_single_slice g _ Hn), Hn, ZfloorZ.
  change (Z.min 0 (1 - 2)) with (-1)%Z.
  fold (cellIndex ((la - Grid.latMin g) / Grid.dLat g) (Grid.nLat g)).
  fold (cellIndex ((ln - Grid.lonMin g) / Grid.dLon g) (Grid.nLon g)).
  pose proof (cellIndex_upper ((la - Grid.latMin g) / Grid.dLat g) (Grid.nLat g)).
  pose proof (cellIndex_upper ((ln - Grid.lonMin g) / Grid.dLon g) (Grid.nLon g)).
  rewrite tget_negative; [reflexivity |]. rewrite Hss. nia.
Qed.

(** C2 (code defect): at the node (lat[0], lon[0]) of a static grid with
    a single latitude, and at the node (lat[0], lon[0]) and time
    times[0] of a time-varying grid with a single time slice, the stored
    value is the Float32 image of the first loaded value, but [sample]
    returns NaN. *)
Theorem sample_at_node_of_degenerate_grid (fround : R -> R) :
  let g1 := Grid.new fround singleRowJson in
  let g2 := Grid.new fround singleSliceJson in
  Grid.lookup "u10" (Grid.vars g1) = Some [fround 3; fround 4] /\
  Grid.sample g1 "u10" (Grid.axis (Grid.lat g1) 0) (Grid.axis (Grid.lon g1) 0) None = None /\
  Grid.lookup "u10" (Grid.vars g2) = Some [fround 1; fround 2; fround 3; fround 4] /\
  Grid.sample g2 "u10" (Grid.axis (Grid.lat g2) 0) (Grid.axis (Grid.lon g2) 0) (Some 0) = None.
Proof.
  intros g1 g2. split; [reflexivity |]. split; [| split; [reflexivity |]].
  - eapply sample_single_row; reflexivity.
  - eapply sample_single_slice; try reflexivity. simpl. lia.
Qed.

(** ** Samples at the nodes of a grid with at least two points per axis *)

Lemma clamp_node i n : (0 <= i < n)%Z -> Rmax 0 (Rmin (IZR i) (IZR (n - 1))) = IZR i.
Proof.
  intros [H0 H1].
  rewrite Rmin_left by (apply IZR_le; lia).
  apply Rmax_right. apply IZR_le. exact H0.
Qed.

Lemma cellIndex_range x n : (2 <= n)%Z -> (0 <= cellIndex x n <= n - 2)%Z.
Proof.
  intros H. unfold cellIndex.
  assert (0 <= Zfloor (Rmax 0 (Rmin x (IZR (n - 1)))))%Z
    by (apply Zfloor_lub; apply Rmax_l).
  lia.
Qed.

(** The cell of a node: the node is its lower corner (weight 0) or, on
    the last point of the axis, its upper corner (weight 1). *)
Lemma node_split i n :
  (2 <= n)%Z -> (0 <= i < n)%Z ->
  (Z.min i (n - 2) = i /\ IZR i - IZR (Z.min i (n - 2)) = 0) \/
  ((Z.min i (n - 2) + 1)%Z = i /\ IZR i - IZR (Z.min i (n - 2)) = 1).
Proof.
  intros Hn Hi. destruct (Z_le_gt_dec i (n - 2)) as [Hle | Hgt].
  - left. rewrite Z.min_l by exact Hle. split; [reflexivity | ring].
  - right. rewrite Z.min_r by lia. split; [lia |].
    replace i with (n - 2 + 1)%Z at 1 by lia. rewrite plus_IZR. ring.
Qed.

Lemma bilinear_corner data nLon off i0 j0 di dj i j :
  (0 <= off + i0 * nLon + j0)%Z ->
  (0 <= nLon)%Z -> (0 <= i0)%Z -> (0 <= j0)%Z ->
  (off + (i0 + 1) * nLon + (j0 + 1) < Z.of_nat (List.length data))%Z ->
  (i0 = i /\ di = 0) \/ ((i0 + 1)%Z = i /\ di = 1) ->
  (j0 = j /\ dj = 0) \/ ((j0 + 1)%Z = j /\ dj = 1) ->
  Grid.bilinear di dj
    (Grid.tget data (off + i0 * nLon + j0))
    (Grid.tget data (off + i0 * nLon + (j0 + 1)))
    (Grid.tget data (off + (i0 + 1) * nLon + j0))
    (Grid.tget data (off + (i0 + 1) * nLon + (j0 + 1))) =
  Grid.tget data (off + i * nLon + j).
Proof.
  intros Hlo Hn Hi0 Hj0 Hhi Hi Hj.
  rewrite (tget_in_range data (off + i0 * nLon + j0)) by nia.
  rewrite (tget_in_range data (off + i0 * nLon + (j0 + 1))) by nia.
  rewrite (tget_in_range data (off + (i0 + 1) * nLon + j0)) by nia.
  rewrite (tget_in_range data (off + (i0 + 1) * nLon + (j0 + 1))) by nia.
  unfold Grid.bilinear.
  destruct Hi as [[<- ->] | [<- ->]]; destruct Hj as [[<- ->] | [<- ->]];
    rewrite tget_in_range by nia; f_equal; ring.
Qed.

(** In exact arithmetic, the sample of a static grid at one of its
    nodes is the stored value. *)
Lemma sample_static_node g var data i j th :
  Grid.isTimeVarying g = false ->
  (2 <= Grid.nLat g)%Z -> (2 <= Grid.nLon g)%Z ->
  0 < Grid.dLat g -> 0 < Grid.dLon g ->
  Grid.lookup var (Grid.vars g) = Some data ->
  (Grid.nLat g * Grid.nLon g <= Z.of_nat (List.length data))%Z ->
  (0 <= i < Grid.nLat g)%Z -> (0 <= j < Grid.nLon g)%Z ->
  Grid.sample g var (Grid.latMin g + IZR i * Grid.dLat g)
    (Grid.lonMin g + IZR j * Grid.dLon g) th =
  Some (nth (Z.to_nat (i * Grid.nLon g + j)) data 0).
Proof.
  intros Hs HnLat HnLon HdLat HdLon Hl Hlen Hi Hj.
  unfold Grid.sample. rewrite Hl, Hs. cbn [negb].
  replace ((Grid.latMin g + IZR i * Grid.dLat g - Grid.latMin g) / Grid.dLat g)
    with (IZR i) by (field; lra).
  replace ((Grid.lonMin g + IZR j * Grid.dLon g - Grid.lonMin g) / Grid.dLon g)
    with (IZR j) by (field; lra).
  rewrite !clamp_node by assumption. rewrite !ZfloorZ.
  pose proof (node_split i (Grid.nLat g) HnLat Hi) as Si.
  pose proof (node_split j (Grid.nLon g) HnLon Hj) as Sj.
  rewrite <- (tget_in_range data (i * Grid.nLon g + j)) by nia.
  assert (Bi : (0 <= Z.min i (Grid.nLat g - 2) <= Grid.nLat g - 2)%Z) by lia.
  assert (Bj : (0 <= Z.min j (Grid.nLon g - 2) <= Grid.nLon g - 2)%Z) by lia.
  revert Si Sj Bi Bj.
  generalize (Z.min i (Grid.nLat g - 2)) (Z.min j (Grid.nLon g - 2)).
  intros i0 j0 Si Sj Bi Bj.
  apply (bilinear_corner data (Grid.nLon g) 0 i0 j0); try lia; try nia.
  - destruct Si as [[E Ed] | [E Ed]]; [left | right]; auto.
  - destruct Sj as [[E Ed] | [E Ed]]; [left | right]; auto.
Qed.

Lemma locate_node times k :
  ascending times -> (0 < k)%nat -> (k < List.length times)%nat ->
  forall todo k', (k' <= k - 1)%nat -> (k - 1 < k' + todo)%nat ->
  Grid.locate times (nth k times 0) k' todo = INR k.
Proof.
  intros Hasc Hk Hlen. induction todo as [| todo IH]; intros k' Hle Hlt; [lia |].
  cbn [Grid.locate].
  destruct (Nat.eq_dec k' (k - 1)) as [-> | Hne].
  - replace (S (k - 1)) with k by lia.
    assert (Hstep : nth (k - 1) times 0 < nth k times 0) by (apply Hasc; lia).
    rewrite !JsFacts.leb_true by lra. cbn [andb].
    assert (Hs : INR k = INR (k - 1) + 1) by (rewrite <- S_INR; f_equal; lia).
    rewrite Hs. field. lra.
  - assert (Hbefore : nth (S k') times 0 < nth k times 0) by (apply Hasc; lia).
    rewrite (JsFacts.leb_false (nth k times 0) (nth (S k') times 0)) by exact Hbefore.
    rewrite andb_false_r. apply IH; lia.
Qed.

Lemma timeIndex_node g times k :
  Grid.timeHours g = Some times ->
  Grid.nTime g = Z.of_nat (List.length times) ->
  ascending times -> (k < List.length times)%nat ->
  Grid.timeIndex g (nth k times 0) = INR k.
Proof.
  intros Ht Hn Hasc Hk. unfold Grid.timeIndex. rewrite Ht, Hn.
  unfold Grid.axis. change (Z.to_nat 0) with 0%nat.
  replace (Z.to_nat (Z.of_nat (List.length times) - 1))
    with (List.length times - 1)%nat by lia.
  destruct k as [| k].
  - rewrite JsFacts.leb_true by lra. reflexivity.
  - assert (H0 : nth 0 times 0 < nth (S k) times 0) by (apply Hasc; lia).
    rewrite JsFacts.leb_false by exact H0.
    destruct (Nat.eq_dec (S k) (List.length times - 1)) as [E | Hne].
    + rewrite <- E. rewrite JsFacts.leb_true by lra.
      rewrite INR_IZR_INZ. f_equal. lia.
    + assert (Hlast : nth (S k) times 0 < nth (List.length times - 1) times 0)
        by (apply Hasc; lia).
      rewrite JsFacts.leb_false by exact Hlast.
      apply locate_node; try assumption; lia.
Qed.

(** In exact arithmetic, the sample of a time-varying grid at one of
    its nodes and at one of its times is the stored value of that
    slice. *)
Lemma sample_varying_node g var data times i j k :
  Grid.isTimeVarying g = true ->
  Grid.timeHours g = Some times ->
  Grid.nTime g = Z.of_nat (List.length times) ->
  (2 <= List.length times)%nat -> ascending times ->
  Grid.sliceSize g = (Grid.nLat g * Grid.nLon g)%Z ->
  (2 <= Grid.nLat g)%Z -> (2 <= Grid.nLon g)%Z ->
  0 < Grid.dLat g -> 0 < Grid.dLon g ->
  Grid.lookup var (Grid.vars g) = Some data ->
  (Grid.nTime g * Grid.sliceSize g <= Z.of_nat (List.length data))%Z ->
  (0 <= i < Grid.nLat g)%Z -> (0 <= j < Grid.nLon g)%Z ->
  (k < List.length times)%nat ->
  Grid.sample g var (Grid.latMin g + IZR i * Grid.dLat g)
    (Grid.lonMin g + IZR j * Grid.dLon g) (Some (nth k times 0)) =
  Some (nth (Z.to_nat (Z.of_nat k * Grid.sliceSize g + i * Grid.nLon g + j)) data 0).
Proof.
  intros Hs Ht Hn Hn2 Hasc Hss HnLat HnLon HdLat HdLon Hl Hlen Hi Hj Hk.
  unfold Grid.sample. rewrite Hl, Hs. cbn [negb].
  replace ((Grid.latMin g + IZR i * Grid.dLat g - Grid.latMin g) / Grid.dLat g)
    with (IZR i) by (field; lra).
  replace ((Grid.lonMin g + IZR j * Grid.dLon g - Grid.lonMin g) / Grid.dLon g)
    with (IZR j) by (field; lra).
  rewrite !clamp_node by assumption.
  rewrite (timeIndex_node g times k Ht Hn Hasc Hk), INR_IZR_INZ, !ZfloorZ.
  assert (Hkz : (0 <= Z.of_nat k < Grid.nTime g)%Z) by lia.
  assert (HnT : (2 <= Grid.nTime g)%Z) by lia.
  pose proof (node_split i (Grid.nLat g) HnLat Hi) as Si.
  pose proof (node_split j (Grid.nLon g) HnLon Hj) as Sj.
  pose proof (node_split (Z.of_nat k) (Grid.nTime g) HnT Hkz) as Sk.
  assert (Bi : (0 <= Z.min i (Grid.nLat g - 2) <= Grid.nLat g - 2)%Z) by lia.
  assert (Bj : (0 <= Z.min j (Grid.nLon g - 2) <= Grid.nLon g - 2)%Z) by lia.
  assert (Bk : (0 <= Z.min (Z.of_nat k) (Grid.nTime g - 2) <= Grid.nTime g - 2)%Z) by lia.
  revert Si Sj Sk Bi Bj Bk.
  generalize (Z.min i (Grid.nLat g - 2)) (Z.min j (Grid.nLon g - 2))
             (Z.min (Z.of_nat k) (Grid.nTime g - 2)).
  intros i0 j0 t0 Si Sj Sk Bi Bj Bk.
  assert (Ci : (i0 = i /\ IZR i - IZR i0 = 0) \/ ((i0 + 1)%Z = i /\ IZR i - IZR i0 = 1))
    by (destruct Si as [[E Ed] | [E Ed]]; [left | right]; auto).
  assert (Cj : (j0 = j /\ IZR j - IZR j0 = 0) \/ ((j0 + 1)%Z = j /\ IZR j - IZR j0 = 1))
    by (destruct Sj as [[E Ed] | [E Ed]]; [left | right]; auto).
  rewrite Hss in *.
  set (S := (Grid.nLat g * Grid.nLon g)%Z) in *.
  assert (A1 : (0 <= i0 * Grid.nLon g)%Z) by nia.
  assert (A2 : ((i0 + 1) * Grid.nLon g + Grid.nLon g <= S)%Z) by (unfold S; nia).
  assert (A3 : (0 <= i * Grid.nLon g /\ i * Grid.nLon g + Grid.nLon g <= S)%Z)
    by (unfold S; nia).
  assert (A4 : (0 <= S)%Z) by lia.
  assert (A5 : (0 <= t0 * S)%Z) by nia.
  assert (A6 : ((t0 + 1) * S + S <= Grid.nTime g * S)%Z) by nia.
  assert (A7 : ((t0 + 1) * S = t0 * S + S)%Z) by ring.
  rewrite (bilinear_corner data (Grid.nLon g) (t0 * S) i0 j0 _ _ i j)
    by (try assumption; lia).
  rewrite (bilinear_corner data (Grid.nLon g) ((t0 + 1) * S) i0 j0 _ _ i j)
    by (try assumption; lia).
  rewrite !tget_in_range by lia.
  destruct Sk as [[E Ed] | [E Ed]]; rewrite Ed; subst; f_equal;
    [| replace (Z.of_nat k * S)%Z with ((t0 + 1) * S)%Z by (rewrite E; reflexivity)];
    ring.
Qed.

(** A static grid with at least two points per axis and full-length
    variables never returns [NaN]. *)
Lemma sample_static_numeric g :
  Grid.isTimeVarying g = false ->
  (2 <= Grid.nLat g)%Z -> (2 <= Grid.nLon g)%Z ->
  (forall var data, Grid.lookup var (Grid.vars g) = Some data ->
     (Grid.nLat g * Grid.nLon g <= Z.of_nat (List.length data))%Z) ->
  gridNumeric (Some g).
Proof.
  intros Hs HnLat HnLon Hlen g' E var la ln th. inversion E; subst g'.
  unfold Grid.sample.
  destruct (Grid.lookup var (Grid.vars g)) as [data |] eqn:Hl; [| discriminate].
  specialize (Hlen var data Hl). rewrite Hs. cbn [negb].
  fold (cellIndex ((la - Grid.latMin g) / Grid.dLat g) (Grid.nLat g)).
  fold (cellIndex ((ln - Grid.lonMin g) / Grid.dLon g) (Grid.nLon g)).
  pose proof (cellIndex_range ((la - Grid.latMin g) / Grid.dLat g) _ HnLat) as Bi.
  pose proof (cellIndex_range ((ln - Grid.lonMin g) / Grid.dLon g) _ HnLon) as Bj.
  revert Bi Bj.
  generalize (cellIndex ((la - Grid.latMin g) / Grid.dLat g) (Grid.nLat g))
             (cellIndex ((ln - Grid.lonMin g) / Grid.dLon g) (Grid.nLon g)).
  intros i0 j0 Bi Bj.
  rewrite !tget_in_range by nia. discriminate.
Qed.

(** ** Grids built by the constructor *)

Lemma storeVars_lookup fround entries var data :
  Grid.lookup var (Grid.storeVars fround entries) = Some data ->
  exists arr, In (var, arr) entries /\ data = map fround arr.
Proof.
  unfold Grid.storeVars.
  assert (G : forall acc,
             Grid.lookup var
               (fold_left
                  (fun acc kv =>
                     let '(key, arr) := kv in
                     if (0 <? List.length arr)%nat
                     then (key, map fround arr) :: acc else acc)
                  entries acc) = Some data ->
             Grid.lookup var acc = Some data \/
             exists arr, In (var, arr) entries /\ data = map fround arr).
  { induction entries as [| [key arr] rest IH]; intros acc E; simpl in E.
    - left. exact E.
    - apply IH in E. destruct E as [E | (a & Hin & Hd)].
      + destruct (0 <? List.length arr)%nat; [| left; exact E].
        simpl in E. destruct (String.eqb var key) eqn:Ek; [| left; exact E].
        apply String.eqb_eq in Ek. subst key. inversion E; subst data.
        right. exists arr. split; [left; reflexivity | reflexivity].
      + right. exists a. split; [right; exact Hin | exact Hd]. }
  intros E. destruct (G [] E) as [H | H]; [discriminate | exact H].
Qed.

Lemma new_axis_step l :
  uniformAxis l ->
  let n := Z.of_nat (List.length l) in
  let d := if (1 <? n)%Z
           then (Grid.axis l (n - 1) - Grid.axis l 0) / IZR (n - 1) else 1 in
  0 < d /\
  forall i : nat, (i < List.length l)%nat ->
    nth i l 0 = Grid.axis l 0 + IZR (Z.of_nat i) * d.
Proof.
  intros (Hlen & Hasc & Hstep). cbv zeta.
  assert (E1 : (1 <? Z.of_nat (List.length l))%Z = true) by (apply Z.ltb_lt; lia).
  rewrite E1. unfold Grid.axis. change (Z.to_nat 0) with 0%nat.
  replace (Z.to_nat (Z.of_nat (List.length l) - 1)) with (List.length l - 1)%nat by lia.
  assert (E2 : IZR (Z.of_nat (List.length l) - 1) = INR (List.length l - 1)).
  { rewrite INR_IZR_INZ. f_equal. lia. }
  rewrite E2.
  assert (Hpos : 0 < INR (List.length l - 1)) by (apply lt_0_INR; lia).
  split.
  - apply Rmult_lt_0_compat; [lra | apply Rinv_0_lt_compat; exact Hpos].
  - intros i Hi. rewrite <- INR_IZR_INZ. apply Hstep. exact Hi.
Qed.

(** X5: in exact arithmetic, on a static grid built from uniformly spaced
    axes of at least two points, the sample at the node (lat[i], lon[j])
    is the stored value [data[i·nLon + j]], which is the Float32 image
    of the loaded value. *)
Lemma new_static_node fround json var data (i j : nat) th :
  uniformAxis (Grid.json_lat json) -> uniformAxis (Grid.json_lon json) ->
  Grid.json_time_hours json = None ->
  Grid.lookup var (Grid.vars (Grid.new fround json)) = Some data ->
  (List.length (Grid.json_lat json) * List.length (Grid.json_lon json)
   <= List.length data)%nat ->
  (i < List.length (Grid.json_lat json))%nat ->
  (j < List.length (Grid.json_lon json))%nat ->
  Grid.sample (Grid.new fround json) var
    (nth i (Grid.json_lat json) 0) (nth j (Grid.json_lon json) 0) th =
  Some (nth (i * List.length (Grid.json_lon json) + j) data 0) /\
  exists arr, In (var, arr) (Grid.json_vars json) /\ data = map fround arr.
Proof.
  intros Hlat Hlon Ht Hl Hlen Hi Hj.
  split; [| apply (storeVars_lookup fround _ var data Hl)].
  destruct (new_axis_step _ Hlat) as [HdLat Hnlat].
  destruct (new_axis_step _ Hlon) as [HdLon Hnlon].
  destruct Hlat as (Hlat2 & _). destruct Hlon as (Hlon2 & _).
  rewrite (Hnlat i Hi), (Hnlon j Hj).
  replace (i * List.length (Grid.json_lon json) + j)%nat
    with (Z.to_nat (Z.of_nat i * Z.of_nat (List.length (Grid.json_lon json)) + Z.of_nat j))
    by lia.
  apply (sample_static_node (Grid.new fround json) var data
           (Z.of_nat i) (Z.of_nat j) th); cbn [Grid.new Grid.isTimeVarying Grid.nLat Grid.nLon
             Grid.dLat Grid.dLon Grid.nTime]; try rewrite Ht; try assumption;
    try reflexivity; try lia.
Qed.

(** X6: the same on a time-varying grid with at least two strictly
    ascending times, queried at time times[k]: the sample is the stored
    value of slice k. *)
Lemma new_varying_node fround json var data times (i j k : nat) :
  uniformAxis (Grid.json_lat json) -> uniformAxis (Grid.json_lon json) ->
  Grid.json_time_hours json = Some times ->
  (2 <= List.length times)%nat -> ascending times ->
  Grid.lookup var (Grid.vars (Grid.new fround json)) = Some data ->
  (List.length times *
   (List.length (Grid.json_lat json) * List.length (Grid.json_lon json))
   <= List.length data)%nat ->
  (i < List.length (Grid.json_lat json))%nat ->
  (j < List.length (Grid.json_lon json))%nat ->
  (k < List.length times)%nat ->
  Grid.sample (Grid.new fround json) var
    (nth i (Grid.json_lat json) 0) (nth j (Grid.json_lon json) 0)
    (Some (nth k times 0)) =
  Some (nth (k * (List.length (Grid.json_lat json) * List.length (Grid.json_lon json))
             + i * List.length (Grid.json_lon json) + j) data 0).
Proof.
  intros Hlat Hlon Ht Hn2 Hasc Hl Hlen Hi Hj Hk.
  destruct (new_axis_step _ Hlat) as [HdLat Hnlat].
  destruct (new_axis_step _ Hlon) as [HdLon Hnlon].
  destruct Hlat as (Hlat2 & _). destruct Hlon as (Hlon2 & _).
  rewrite (Hnlat i Hi), (Hnlon j Hj).
  replace (k * (List.length (Grid.json_lat json) * List.length (Grid.json_lon json))
           + i * List.length (Grid.json_lon json) + j)%nat
    with (Z.to_nat
            (Z.of_nat k *
             (Z.of_nat (List.length (Grid.json_lat json)) *
              Z.of_nat (List.length (Grid.json_lon json))) +
             Z.of_nat i * Z.of_nat (List.length (Grid.json_lon json)) + Z.of_nat j))
    by lia.
  apply (sample_varying_node (Grid.new fround json) var data times
           (Z.of_nat i) (Z.of_nat j) k);
    cbn [Grid.new Grid.isTimeVarying Grid.nLat Grid.nLon Grid.dLat Grid.dLon
         Grid.nTime Grid.timeHours Grid.sliceSize];
    try rewrite Ht; try assumption; try reflexivity; try lia.
Qed.

(** * Further properties of the grid interpolator *)



Lemma new_axis_span l :
  axisSpan l ->
  let n := Z.of_nat (List.length l) in
  let d := if (1 <? n)%Z
           then (Grid.axis l (n - 1) - Grid.axis l 0) / IZR (n - 1) else 1 in
  0 < d /\ (1 <= n)%Z /\ Grid.axis l (n - 1) - Grid.axis l 0 = IZR (n - 1) * d.
Proof.
  intros [Hne Hasc]. cbv zeta.
  destruct (1 <? Z.of_nat (List.length l))%Z eqn:E.
  - apply Z.ltb_lt in E. unfold Grid.axis. change (Z.to_nat 0) with 0%nat.
    replace (Z.to_nat (Z.of_nat (List.length l) - 1)) with (List.length l - 1)%nat by lia.
    assert (Hlt : nth 0 l 0 < nth (List.length l - 1) l 0) by (apply Hasc; lia).
    assert (Hpos : 0 < IZR (Z.of_nat (List.length l) - 1)) by (apply IZR_lt; lia).
    split; [| split; [lia |]].
    + apply Rmult_lt_0_compat; [lra | apply Rinv_0_lt_compat; exact Hpos].
    + field. lra.
  - apply Z.ltb_ge in E. assert (Hone : List.length l = 1%nat) by lia.
    rewrite Hone. simpl. split; [lra | split; [lia |]].
    unfold Grid.axis. simpl. ring.
Qed.


Lemma convex_between lo hi t x y :
  0 <= t <= 1 -> lo <= x <= hi -> lo <= y <= hi ->
  lo <= (1 - t) * x + t * y <= hi.
Proof. intros Ht Hx Hy. split; nra. Qed.

Lemma bilinear_between lo hi di dj a b c d :
  0 <= di <= 1 -> 0 <= dj <= 1 ->
  lo <= a <= hi -> lo <= b <= hi -> lo <= c <= hi -> lo <= d <= hi ->
  exists v, Grid.bilinear di dj (Some a) (Some b) (Some c) (Some d) = Some v /\
            lo <= v <= hi.
Proof.
  intros Hi Hj Ha Hb Hc Hd. eexists. split; [reflexivity |].
  pose proof (convex_between lo hi dj a b Hj Ha Hb) as H1.
  pose proof (convex_between lo hi dj c d Hj Hc Hd) as H2.
  pose proof (convex_between lo hi di _ _ Hi H1 H2) as H3.
  replace ((1 - di) * (1 - dj) * a + (1 - di) * dj * b +
           di * (1 - dj) * c + di * dj * d)
    with ((1 - di) * ((1 - dj) * a + dj * b) + di * ((1 - dj) * c + dj * d)) by ring.
  exact H3.
Qed.

(** The weight of the upper corner of the cell of a coordinate that
    lies on the axis. *)
Lemma cell_weight f n :
  (2 <= n)%Z -> 0 <= f <= IZR (n - 1) ->
  (0 <= Z.min (Zfloor f) (n - 2) <= n - 2)%Z /\
  0 <= f - IZR (Z.min (Zfloor f) (n - 2)) <= 1.
Proof.
  intros Hn [H0 H1]. pose proof (Zfloor_bound f) as [Hlo Hhi].
  assert (Hf0 : (0 <= Zfloor f)%Z) by (apply Zfloor_lub; exact H0).
  assert (Hf1 : (Zfloor f <= n - 1)%Z).
  { apply le_IZR. lra. }
  split; [lia |].
  destruct (Z_le_gt_dec (Zfloor f) (n - 2)) as [Hle | Hgt].
  - rewrite Z.min_l by exact Hle. lra.
  - rewrite Z.min_r by lia.
    assert (E : Zfloor f = (n - 1)%Z) by lia. rewrite E in Hlo.
    replace (n - 1)%Z with (n - 2 + 1)%Z in Hlo, H1 by lia.
    rewrite plus_IZR in Hlo, H1. lra.
Qed.

Lemma clamped_on_axis x n : (1 <= n)%Z -> 0 <= Rmax 0 (Rmin x (IZR (n - 1))) <= IZR (n - 1).
Proof.
  intros Hn. assert (0 <= IZR (n - 1)) by (apply IZR_le; lia).
  split; [apply Rmax_l |]. apply Rmax_lub; [assumption | apply Rmin_r].
Qed.

Lemma tget_between lo hi data i :
  Forall (fun v => lo <= v <= hi) data ->
  (0 <= i < Z.of_nat (List.length data))%Z ->
  exists v, Grid.tget data i = Some v /\ lo <= v <= hi.
Proof.
  intros F Hi. rewrite tget_in_range by exact Hi. eexists. split; [reflexivity |].
  rewrite Forall_forall in F. apply F. apply nth_In. lia.
Qed.

(** The bilinear value of a cell whose four corners are stored. *)
Lemma cell_between lo hi data nLon off i0 j0 di dj :
  Forall (fun v => lo <= v <= hi) data ->
  (0 <= off + i0 * nLon + j0)%Z -> (0 <= nLon)%Z -> (0 <= i0)%Z -> (0 <= j0)%Z ->
  (off + (i0 + 1) * nLon + (j0 + 1) < Z.of_nat (List.length data))%Z ->
  0 <= di <= 1 -> 0 <= dj <= 1 ->
  exists v,
    Grid.bilinear di dj
      (Grid.tget data (off + i0 * nLon + j0))
      (Grid.tget data (off + i0 * nLon + (j0 + 1)))
      (Grid.tget data (off + (i0 + 1) * nLon + j0))
      (Grid.tget data (off + (i0 + 1) * nLon + (j0 + 1))) = Some v /\
    lo <= v <= hi.
Proof.
  intros F Hlo Hn Hi0 Hj0 Hhi Hdi Hdj.
  destruct (tget_between lo hi data (off + i0 * nLon + j0) F) as (a & -> & Ha); [nia |].
  destruct (tget_between lo hi data (off + i0 * nLon + (j0 + 1)) F) as (b & -> & Hb); [nia |].
  destruct (tget_between lo hi data (off + (i0 + 1) * nLon + j0) F) as (c & -> & Hc); [nia |].
  destruct (tget_between lo hi data (off + (i0 + 1) * nLon + (j0 + 1)) F)
    as (d & -> & Hd); [nia |].
  apply bilinear_between; assumption.
Qed.

(** X2: in exact arithmetic, on a static grid with at least two points
    per axis and non-zero spacings dLat and dLon, a sample of a variable
    stored in full is a number between the least and the greatest
    stored value: interpolation never overshoots the data. *)
Theorem sample_static_between g var data lo hi la ln th :
  Grid.isTimeVarying g = false ->
  (2 <= Grid.nLat g)%Z -> (2 <= Grid.nLon g)%Z ->
  Grid.dLat g <> 0 -> Grid.dLon g <> 0 ->
  Grid.lookup var (Grid.vars g) = Some data ->
  (Grid.nLat g * Grid.nLon g <= Z.of_nat (List.length data))%Z ->
  Forall (fun v => lo <= v <= hi) data ->
  exists v, Grid.sample g var la ln th = Some v /\ lo <= v <= hi.
Proof.
  intros Hs HnLat HnLon _ _ Hl Hlen F. unfold Grid.sample. rewrite Hl, Hs. cbn [negb].
  pose proof (clamped_on_axis ((la - Grid.latMin g) / Grid.dLat g) (Grid.nLat g)
                ltac:(lia)) as Ci.
  pose proof (clamped_on_axis ((ln - Grid.lonMin g) / Grid.dLon g) (Grid.nLon g)
                ltac:(lia)) as Cj.
  destruct (cell_weight _ _ HnLat Ci) as [Bi Wi].
  destruct (cell_weight _ _ HnLon Cj) as [Bj Wj].
  revert Bi Wi Bj Wj.
  generalize (Rmax 0 (Rmin ((la - Grid.latMin g) / Grid.dLat g) (IZR (Grid.nLat g - 1))))
             (Rmax 0 (Rmin ((ln - Grid.lonMin g) / Grid.dLon g) (IZR (Grid.nLon g - 1)))).
  intros fi fj. generalize (Z.min (Zfloor fi) (Grid.nLat g - 2))
                           (Z.min (Zfloor fj) (Grid.nLon g - 2)).
  intros i0 j0 Bi Wi Bj Wj.
  apply (cell_between lo hi data (Grid.nLon g) 0 i0 j0); try assumption; try lia; nia.
Qed.

Lemma locate_range times th :
  ascending times ->
  forall todo k, (k + todo < List.length times)%nat ->
  0 <= Grid.locate times th k todo <= INR (k + todo).
Proof.
  intros Hasc. induction todo as [| todo IH]; intros k Hlen; cbn [Grid.locate].
  - split; [lra | apply pos_INR].
  - destruct (Js.leb (nth k times 0) th) eqn:E1;
      [destruct (Js.leb th (nth (S k) times 0)) eqn:E2 |]; cbn [andb].
    + apply JsFacts.leb_spec in E1. apply JsFacts.leb_spec in E2.
      assert (Hstep : nth k times 0 < nth (S k) times 0) by (apply Hasc; lia).
      assert (Hfrac : 0 <= (th - nth k times 0) / (nth (S k) times 0 - nth k times 0) <= 1).
      { split.
        - apply Rmult_le_pos; [lra | left; apply Rinv_0_lt_compat; lra].
        - apply (Rmult_le_reg_r (nth (S k) times 0 - nth k times 0)); [lra |].
          unfold Rdiv. rewrite Rmult_assoc, Rinv_l by lra. lra. }
      pose proof (pos_INR k).
      replace (k + S todo)%nat with (S (k + todo)) by lia.
      rewrite S_INR, plus_INR. pose proof (pos_INR todo). lra.
    + replace (k + S todo)%nat with (S k + todo)%nat by lia. apply IH. lia.
    + replace (k + S todo)%nat with (S k + todo)%nat by lia. apply IH. lia.
Qed.

Lemma timeIndex_range g times th :
  Grid.timeHours g = Some times ->
  Grid.nTime g = Z.of_nat (List.length times) ->
  (1 <= List.length times)%nat -> ascending times ->
  0 <= Grid.timeIndex g th <= IZR (Grid.nTime g - 1).
Proof.
  intros Ht Hn Hlen Hasc. unfold Grid.timeIndex. rewrite Ht, Hn.
  assert (E : IZR (Z.of_nat (List.length times) - 1) = INR (List.length times - 1)).
  { rewrite INR_IZR_INZ. f_equal. lia. }
  pose proof (pos_INR (List.length times - 1)) as Hpos.
  destruct (Js.leb th _); [rewrite E; lra |].
  destruct (Js.leb _ th); [rewrite E; lra |].
  replace (Z.to_nat (Z.of_nat (List.length times) - 1))
    with (List.length times - 1)%nat by lia.
  rewrite E. apply (locate_range times th Hasc (List.length times - 1) 0). lia.
Qed.

(** X3: the same, in exact arithmetic, for a time-varying grid with at
    least two strictly ascending times and non-zero spacings, at every
    query time. *)
Theorem sample_varying_between g var data times lo hi la ln th :
  Grid.isTimeVarying g = true ->
  Grid.timeHours g = Some times ->
  Grid.nTime g = Z.of_nat (List.length times) ->
  (2 <= List.length times)%nat -> ascending times ->
  Grid.sliceSize g = (Grid.nLat g * Grid.nLon g)%Z ->
  (2 <= Grid.nLat g)%Z -> (2 <= Grid.nLon g)%Z ->
  Grid.dLat g <> 0 -> Grid.dLon g <> 0 ->
  Grid.lookup var (Grid.vars g) = Some data ->
  (Grid.nTime g * Grid.sliceSize g <= Z.of_nat (List.length data))%Z ->
  Forall (fun v => lo <= v <= hi) data ->
  exists v, Grid.sample g var la ln th = Some v /\ lo <= v <= hi.
Proof.
  intros Hs Ht Hn Hn2 Hasc Hss HnLat HnLon _ _ Hl Hlen F.
  unfold Grid.sample. rewrite Hl, Hs. cbn [negb].
  pose proof (clamped_on_axis ((la - Grid.latMin g) / Grid.dLat g) (Grid.nLat g)
                ltac:(lia)) as Ci.
  pose proof (clamped_on_axis ((ln - Grid.lonMin g) / Grid.dLon g) (Grid.nLon g)
                ltac:(lia)) as Cj.
  assert (HnT : (2 <= Grid.nTime g)%Z) by lia.
  pose proof (timeIndex_range g times (match th with Some x => x | None => 0 end)
                Ht Hn ltac:(lia) Hasc) as Ck.
  destruct (cell_weight _ _ HnLat Ci) as [Bi Wi].
  destruct (cell_weight _ _ HnLon Cj) as [Bj Wj].
  destruct (cell_weight _ _ HnT Ck) as [Bk Wk].
  revert Bi Wi Bj Wj Bk Wk.
  generalize (Rmax 0 (Rmin ((la - Grid.latMin g) / Grid.dLat g) (IZR (Grid.nLat g - 1))))
             (Rmax 0 (Rmin ((ln - Grid.lonMin g) / Grid.dLon g) (IZR (Grid.nLon g - 1))))
             (Grid.timeIndex g (match th with Some x => x | None => 0 end)).
  intros fi fj ft. generalize (Z.min (Zfloor fi) (Grid.nLat g - 2))
                              (Z.min (Zfloor fj) (Grid.nLon g - 2))
                              (Z.min (Zfloor ft) (Grid.nTime g - 2)).
  intros i0 j0 t0 Bi Wi Bj Wj Bk Wk.
  rewrite Hss in *. set (S := (Grid.nLat g * Grid.nLon g)%Z) in *.
  assert (A1 : (0 <= i0 * Grid.nLon g)%Z) by nia.
  assert (A2 : ((i0 + 1) * Grid.nLon g + Grid.nLon g <= S)%Z) by (unfold S; nia).
  assert (A4 : (0 <= S)%Z) by lia.
  assert (A5 : (0 <= t0 * S)%Z) by nia.
  assert (A6 : ((t0 + 1) * S + S <= Grid.nTime g * S)%Z) by nia.
  assert (A7 : ((t0 + 1) * S = t0 * S + S)%Z) by ring.
  destruct (cell_between lo hi data (Grid.nLon g) (t0 * S) i0 j0 (fi - IZR i0) (fj - IZR j0) F)
    as (a & -> & Ha); try assumption; try lia.
  destruct (cell_between lo hi data (Grid.nLon g) ((t0 + 1) * S) i0 j0
              (fi - IZR i0) (fj - IZR j0) F)
    as (b & -> & Hb); try assumption; try lia.
  eexists. split; [reflexivity |].
  replace (a * (1 - (ft - IZR t0)) + b * (ft - IZR t0))
    with ((1 - (ft - IZR t0)) * a + (ft - IZR t0) * b) by ring.
  apply convex_between; assumption.
Qed.

Lemma storeVars_lookup_nonempty fround entries var data :
  Grid.lookup var (Grid.storeVars fround entries) = Some data ->
  exists arr, In (var, arr) entries /\ arr <> [] /\ data = map fround arr.
Proof.
  unfold Grid.storeVars.
  assert (G : forall acc,
             Grid.lookup var
               (fold_left
                  (fun acc kv =>
                     let '(key, arr) := kv in
                     if (0 <? List.length arr)%nat
                     then (key, map fround arr) :: acc else acc)
                  entries acc) = Some data ->
             Grid.lookup var acc = Some data \/
             exists arr, In (var, arr) entries /\ arr <> [] /\ data = map fround arr).
  { induction entries as [| [key arr] rest IH]; intros acc E; simpl in E.
    - left. exact E.
    - apply IH in E. destruct E as [E | (a & Hin & Hne & Hd)].
      + destruct (0 <? List.length arr)%nat eqn:El; [| left; exact E].
        simpl in E. destruct (String.eqb var key) eqn:Ek; [| left; exact E].
        apply String.eqb_eq in Ek. subst key. inversion E; subst data.
        right. exists arr. split; [left; reflexivity |]. split; [| reflexivity].
        intros ->. discriminate.
      + right. exists a. split; [right; exact Hin | auto]. }
  intros E. destruct (G [] E) as [H | H]; [discriminate | exact H].
Qed.

(** X4: when no key of the document is [__proto__], a variable whose
    name is not inherited from [Object.prototype] and for which the
    document holds no non-empty array is not stored by the constructor,
    and every sample of it is 0. *)
Theorem sample_of_unstored_variable fround json var la ln th :
  ~ In "__proto__"%string (map fst (Grid.json_vars json)) ->
  ~ In var objectPrototypeNames ->
  (forall arr, In (var, arr) (Grid.json_vars json) -> arr = []) ->
  Grid.sample (Grid.new fround json) var la ln th = Some 0.
Proof.
  intros _ _ Hempty. unfold Grid.sample.
  destruct (Grid.lookup var (Grid.vars (Grid.new fround json))) as [data |] eqn:E;
    [| reflexivity].
  apply storeVars_lookup_nonempty in E. destruct E as (arr & Hin & Hne & _).
  elim Hne. apply Hempty. exact Hin.
Qed.

(** X7: every sample of a stored variable is NaN on a static grid with
    a single latitude and on a time-varying grid with a single time
    slice, wherever and whenever it is queried. *)
Theorem degenerate_grid_samples_nan fround json var data la ln th :
  (Grid.json_time_hours json = None /\ List.length (Grid.json_lat json) = 1%nat) \/
  (exists t, Grid.json_time_hours json = Some [t]) ->
  Grid.lookup var (Grid.vars (Grid.new fround json)) = Some data ->
  Grid.sample (Grid.new fround json) var la ln th = None.
Proof.
  intros [[Ht Hlen] | [t Ht]] Hl.
  - apply (sample_single_row _ var data); [| | exact Hl].
    + cbn [Grid.new Grid.isTimeVarying]. rewrite Ht. reflexivity.
    + cbn [Grid.new Grid.nLat]. rewrite Hlen. reflexivity.
  - apply (sample_single_slice _ var data); try exact Hl;
      cbn [Grid.new Grid.isTimeVarying Grid.nTime Grid.nLon Grid.sliceSize Grid.nLat];
      try rewrite Ht; try reflexivity. lia.
Qed.

(** * Concrete grids *)

Lemma coastJson_span : axisSpan [-1; 1].
Proof. split; [simpl; lia | intros _; simpl; lra]. Qed.

Lemma coastJson_uniform : uniformAxis [-1; 1].
Proof.
  split; [simpl; lia |]. split; [simpl; lra |].
  intros i Hi. simpl in Hi.
  destruct i as [| [| i]]; [simpl; lra | simpl; lra | lia].
Qed.

Lemma unit_axis_uniform : uniformAxis [0; 1].
Proof.
  split; [simpl; lia |]. split; [simpl; lra |].
  intros i Hi. simpl in Hi.
  destruct i as [| [| i]]; [simpl; lra | simpl; lra | lia].
Qed.

Lemma tide_times_ascending : ascending [0; 6].
Proof.
  intros a b [Hab Hb]. simpl in Hb.
  destruct a as [| a]; destruct b as [| [| b]]; try lia. simpl. lra.
Qed.


Lemma sample_static_between_witness :
  exists v, Grid.sample coastMask "lsm" 0.3 0.2 None = Some v /\ 1 <= v <= 1.
Proof.
  apply (sample_static_between coastMask "lsm" [1; 1; 1; 1] 1 1 0.3 0.2 None).
  - reflexivity.
  - simpl. lia.
  - simpl. lia.
  - apply Rgt_not_eq. exact (proj1 (new_axis_span [-1; 1] coastJson_span)).
  - apply Rgt_not_eq. exact (proj1 (new_axis_span [-1; 1] coastJson_span)).
  - reflexivity.
  - simpl. lia.
  - repeat constructor; lra.
Defined.

Lemma sample_varying_between_witness :
  exists v,
    Grid.sample (Grid.new (fun x => x) tideJson) "uo" 0.5 0.5 (Some 2) = Some v /\
    0 <= v <= 10.
Proof.
  apply (sample_varying_between (Grid.new (fun x => x) tideJson) "uo"
           [0; 0; 0; 0; 10; 10; 10; 10] [0; 6] 0 10 0.5 0.5 (Some 2)).
  - reflexivity.
  - reflexivity.
  - reflexivity.
  - simpl. lia.
  - exact tide_times_ascending.
  - reflexivity.
  - simpl. lia.
  - simpl. lia.
  - apply Rgt_not_eq. exact (proj1 (new_axis_step [0; 1] unit_axis_uniform)).
  - apply Rgt_not_eq. exact (proj1 (new_axis_step [0; 1] unit_axis_uniform)).
  - reflexivity.
  - simpl. lia.
  - repeat constructor; lra.
Defined.

Lemma sample_of_unstored_variable_witness :
  Grid.sample coastMask "u10" 0.3 0.2 None = Some 0.
Proof.
  apply (sample_of_unstored_variable (fun x => x) coastJson "u10" 0.3 0.2 None).
  - simpl. intros [E | []]. discriminate.
  - unfold objectPrototypeNames. simpl. intuition discriminate.
  - intros arr [E | []]. inversion E.
Defined.

Lemma new_static_node_witness :
  Grid.sample coastMask "lsm" (nth 1 [-1; 1] 0) (nth 0 [-1; 1] 0) None =
  Some (nth (1 * 2 + 0) [1; 1; 1; 1] 0).
Proof.
  refine (proj1 (new_static_node (fun x => x) coastJson "lsm" [1; 1; 1; 1] 1 0 None
                   coastJson_uniform coastJson_uniform eq_refl eq_refl _ _ _));
    simpl; lia.
Defined.

Lemma new_varying_node_witness :
  Grid.sample (Grid.new (fun x => x) tideJson) "uo"
    (nth 1 [0; 1] 0) (nth 1 [0; 1] 0) (Some (nth 1 [0; 6] 0)) =
  Some (nth (1 * (2 * 2) + 1 * 2 + 1) [0; 0; 0; 0; 10; 10; 10; 10] 0).
Proof.
  refine (new_varying_node (fun x => x) tideJson "uo" [0; 0; 0; 0; 10; 10; 10; 10]
            [0; 6] 1 1 1 unit_axis_uniform unit_axis_uniform eq_refl _
            tide_times_ascending eq_refl _ _ _ _); simpl; lia.
Defined.

Lemma degenerate_grid_samples_nan_witness :
  Grid.sample (Grid.new (fun x => x) singleSliceJson) "u10" 0.5 0.5 (Some 3) = None.
Proof.
  apply (degenerate_grid_samples_nan (fun x => x) singleSliceJson "u10"
           [1; 2; 3; 4] 0.5 0.5 (Some 3)).
  - right. exists 0. reflexivity.
  - reflexivity.
Defined.

(** * Further properties of the weathering curves *)

Lemma exp_le x y : x <= y -> exp x <= exp y.
Proof. intros [H | ->]; [left; apply exp_increasing; exact H | lra]. Qed.

Lemma leb_false_gt a b : Js.leb a b = false -> b < a.
Proof.
  intros E. destruct (Rlt_dec b a) as [H | H]; [exact H |].
  rewrite JsFacts.leb_true in E by lra. discriminate.
Qed.

Lemma ltb_false_ge a b : Js.ltb a b = false -> b <= a.
Proof.
  intros E. destruct (Rle_dec b a) as [H | H]; [exact H |].
  rewrite JsFacts.ltb_true in E by lra. discriminate.
Qed.

Lemma calcEvaporation_monotone P h1 h2 T W :
  h1 <= h2 -> 0 <= evapRate P * (1 + 0.045 * (T - 15)) -> 0 <= 1 + 0.01 * W ->
  0 <= volatileFrac P ->
  calcEvaporation P h1 T W <= calcEvaporation P h2 T W.
Proof.
  intros Hh HK HW Hv. unfold calcEvaporation.
  destruct (Js.leb h1 0) eqn:E1; destruct (Js.leb h2 0) eqn:E2; try lra.
  - apply leb_false_gt in E2. apply Rmin_glb; [| exact Hv].
    apply Rmult_le_pos; [| exact HW]. apply Rmult_le_pos; [exact HK | apply sqrt_pos].
  - apply leb_false_gt in E1. apply JsFacts.leb_spec in E2. lra.
  - apply leb_false_gt in E1.
    apply Rle_min_compat_r.
    apply Rmult_le_compat_r; [exact HW |].
    apply Rmult_le_compat_l; [exact HK |].
    apply sqrt_le_1_alt. exact Hh.
Qed.

Lemma calcDispersion_monotone t W h1 h2 :
  h1 <= h2 ->
  calcDispersion (OIL_PROPERTIES t) W h1 <= calcDispersion (OIL_PROPERTIES t) W h2.
Proof.
  intros Hh. pose proof (calcDispersion_bounds t W h2) as [Hlo _].
  unfold calcDispersion in *.
  destruct (Js.leb h1 0) eqn:E1; [exact Hlo |].
  apply leb_false_gt in E1.
  rewrite (JsFacts.leb_false h2 0) in * by lra. cbn [orb] in *.
  destruct (Js.ltb W 5); [lra |].
  destruct (oil_table_positive t) as (_ & _ & Hd).
  apply Rle_min_compat_r. apply Rmult_le_compat_l; [| exact Hh].
  unfold Js.sqr. apply Rmult_le_pos; [lra |].
  apply Rmult_le_pos; [| lra]. nra.
Qed.

Lemma calcEmulsion_monotone W h1 h2 :
  h1 <= h2 -> calcEmulsion h1 W <= calcEmulsion h2 W.
Proof.
  intros Hh. pose proof (calcEmulsion_bounds h2 W) as [Hlo _].
  unfold calcEmulsion in *.
  destruct (Js.leb h1 0) eqn:E1; [exact Hlo |].
  apply leb_false_gt in E1.
  rewrite (JsFacts.leb_false h2 0) in * by lra. cbn [orb] in *.
  destruct (Js.ltb W 3); [lra |].
  apply Rle_min_compat_r.
  assert (Hk : 0 <= 2e-6 * Js.sqr (W + 1)).
  { pose proof (Rle_0_sqr (W + 1)) as Hs. unfold Rsqr in Hs. unfold Js.sqr.
    apply Rmult_le_pos; [lra | exact Hs]. }
  assert (He : exp (- (2e-6 * Js.sqr (W + 1)) * h2 * 3600) <=
               exp (- (2e-6 * Js.sqr (W + 1)) * h1 * 3600)).
  { apply exp_le. nra. }
  lra.
Qed.

(** X9: with a non-negative evaporation coefficient K and wind factor,
    the three weathering fractions never decrease as the elapsed hours
    grow. *)
Theorem weathering_never_recedes t h1 h2 T W :
  h1 <= h2 ->
  0 <= 1 + 0.045 * (T - 15) ->
  0 <= 1 + 0.01 * W ->
  calcEvaporation (OIL_PROPERTIES t) h1 T W <= calcEvaporation (OIL_PROPERTIES t) h2 T W /\
  calcDispersion (OIL_PROPERTIES t) W h1 <= calcDispersion (OIL_PROPERTIES t) W h2 /\
  calcEmulsion h1 W <= calcEmulsion h2 W.
Proof.
  intros Hh HT HW. destruct (oil_table_positive t) as (He & Hv & _).
  split; [| split].
  - apply calcEvaporation_monotone; try assumption; try lra.
    apply Rmult_le_pos; lra.
  - apply calcDispersion_monotone. exact Hh.
  - apply calcEmulsion_monotone. exact Hh.
Qed.

Lemma weathering_never_recedes_witness :
  calcEvaporation (OIL_PROPERTIES crude) 1 18 5 <= calcEvaporation (OIL_PROPERTIES crude) 2 18 5 /\
  calcDispersion (OIL_PROPERTIES crude) 5 1 <= calcDispersion (OIL_PROPERTIES crude) 5 2 /\
  calcEmulsion 1 5 <= calcEmulsion 2 5.
Proof.
  apply (weathering_never_recedes crude 1 2 18 5); lra.
Defined.

(** * Further properties of the integrator *)

Section Integrator.

Variable rounds : nat.

Lemma coherent_pristine cfg : coherent cfg (pristine cfg).
Proof. split; [reflexivity | intros [H | H]; discriminate]. Qed.

Lemma coherent_placed cfg la ln : coherent cfg (placed la ln (pristine cfg)).
Proof.
  split; [discriminate |]. intros _. unfold remainFrac. simpl. ring.
Qed.

Lemma coherent_fresh cfg la ln b :
  coherent cfg
    (Particle.set_active b
       (Particle.set_viscosity (oilViscosity (oilProps cfg))
          (Particle.new la ln (massPerParticle cfg)))).
Proof.
  split; [discriminate |]. intros _. unfold remainFrac. simpl. ring.
Qed.

Lemma spread_mass cfg p :
  Particle.mass (spread cfg p) = massPerParticle cfg * remainFrac p.
Proof. unfold spread. destruct (Js.ltb 0 _); reflexivity. Qed.

Lemma particleStep_coherent cfg env q p' :
  particleStep rounds cfg env q p' -> coherent cfg q -> coherent cfg p'.
Proof.
  intros H [Hb Hm]. destruct H as [Hq | Hq Hlow | g dLat dLng g' Hq Hrem Hd].
  - split; assumption.
  - split; [reflexivity |].
    intros [H | H]; [discriminate |]. simpl in H.
    specialize (Hb H). congruence.
  - assert (Hnb : Particle.beached q = false).
    { destruct (Particle.beached q) eqn:E; [| reflexivity].
      specialize (Hb eq_refl). congruence. }
    set (w := weather env q).
    destruct (spread_position cfg w) as (_ & _ & Eact & Ebe).
    destruct (spread_sameWeathering cfg w) as (Eev & Edi & _).
    rewrite grounding_onLand. destruct (onLand cfg _).
    + split; [reflexivity |]. intros _.
      unfold remainFrac. simpl. rewrite spread_mass, Eev, Edi. reflexivity.
    + split.
      * simpl. rewrite Ebe. unfold w. rewrite weather_beached. congruence.
      * intros _. unfold remainFrac. simpl. rewrite spread_mass, Eev, Edi. reflexivity.
Qed.

Lemma particleStep_inactive cfg env q p' :
  particleStep rounds cfg env q p' -> Particle.active q = false -> p' = q.
Proof. intros [Hq | Hq Hlow | g dLat dLng g' Hq Hrem Hd] Ha; congruence. Qed.

Lemma initContinuous_pristine cfg :
  initContinuous cfg (massPerParticle cfg) = repeat (pristine cfg) (particleCount cfg).
Proof. reflexivity. Qed.

Lemma initialize_arrayInv cfg g : arrayInv cfg (initialize cfg g).
Proof.
  unfold arrayInv. split; [apply initialize_length |].
  pose proof (initialize_length cfg g) as Hlen.
  pose proof (initInstant_Forall (coherent cfg) cfg (massPerParticle cfg)
                (fun la ln => coherent_fresh cfg la ln true)
                (particleCount cfg) g) as Fc.
  unfold initialize in *. fold (massPerParticle cfg) in *.
  destruct (spillMode cfg) eqn:Hmode.
  - destruct (initInstant cfg (massPerParticle cfg) (particleCount cfg) g) as [ps g'].
    simpl in *. split; [lia |]. split; [reflexivity |].
    intros i p Hi. split.
    + rewrite Forall_forall in Fc. apply Fc. eapply nth_error_In; eauto.
    + intros Hge. assert (nth_error ps i = None) by (apply nth_error_None; lia).
      congruence.
  - simpl in *. split; [lia |]. split; [discriminate |].
    intros i p Hi. rewrite initContinuous_pristine in Hi.
    apply nth_error_In in Hi. apply repeat_spec in Hi. subst p.
    split; [apply coherent_pristine | reflexivity].
Qed.

Lemma step_arrayInv cfg s s' :
  step rounds cfg s = Some s' -> arrayInv cfg s -> arrayInv cfg s'.
Proof.
  intros E (Hlen & Hle & Hinst & Hpart).
  pose proof (step_length rounds _ _ _ E) as Hlen'.
  destruct (step_inv rounds _ _ _ E) as (ps1 & g1 & Er & Eps & _).
  pose proof (release_outside _ _ _ _ _ Er) as Hout.
  pose proof (release_spec _ _ _ _ _ Er) as (F1 & _ & Hmono & Hbound).
  apply stepParticles_Forall2 in Eps.
  split; [congruence |]. split; [auto |]. split.
  - intros Hmode. rewrite (release_instant cfg s Hmode) in Er.
    inversion Er. auto.
  - intros i p' Hp'.
    destruct (Forall2_nth_error _ _ _ Eps i p' Hp') as (q & Hq & Hstep).
    destruct (Forall2_nth_error _ _ _ F1 i q Hq) as (p & Hp & Hrel).
    destruct (Hpart i p Hp) as [Hcoh Hpris].
    assert (Hcq : coherent cfg q).
    { destruct Hrel as [| la ln]; [exact Hcoh |].
      destruct (le_lt_dec (particlesReleased s) i) as [Hge | Hlt].
      - rewrite (Hpris Hge). apply coherent_placed.
      - assert (Hsame : nth_error ps1 i = nth_error (particles s) i)
          by (apply Hout; lia).
        assert (Heq : placed la ln p = p) by congruence.
        rewrite Heq. exact Hcoh. }
    split; [eapply particleStep_coherent; eauto |].
    intros Hge.
    assert (Hsame : nth_error ps1 i = nth_error (particles s) i)
      by (apply Hout; lia).
    assert (Heq : q = p) by congruence. subst q.
    assert (Hp0 : p = pristine cfg) by (apply Hpris; lia). subst p.
    apply (particleStep_inactive _ _ _ _ Hstep). reflexivity.
Qed.

Lemma reachable_arrayInv cfg s : reachable rounds cfg s -> arrayInv cfg s.
Proof.
  induction 1 as [g | b s H IH | s s' H IH E | s H IH]; try exact IH.
  - apply initialize_arrayInv.
  - eapply step_arrayInv; eauto.
Qed.

(** X10: in every reachable state the particle array has exactly
    particle_count entries and the release counter does not exceed that
    count; in instant mode the counter equals it. *)
Theorem particle_array_is_fixed cfg s :
  reachable rounds cfg s ->
  List.length (particles s) = particleCount cfg /\
  (particlesReleased s <= particleCount cfg)%nat /\
  (spillMode cfg = instant -> particlesReleased s = particleCount cfg).
Proof.
  intros H. destruct (reachable_arrayInv cfg s H) as (H1 & H2 & H3 & _). auto.
Qed.

(** X11: in every reachable state a beached particle is inactive (so an
    active particle is not beached), and every particle from index
    _particlesReleased on is still as [initialize] allocated it:
    inactive, not beached, of age 0, at the spill point. *)
Theorem beached_excludes_active cfg s i p :
  reachable rounds cfg s ->
  nth_error (particles s) i = Some p ->
  (Particle.beached p = true -> Particle.active p = false) /\
  ((particlesReleased s <= i)%nat ->
   Particle.active p = false /\ Particle.beached p = false /\
   Particle.age p = 0 /\
   Particle.lat p = spillLat cfg /\ Particle.lng p = spillLng cfg).
Proof.
  intros H Hp. destruct (reachable_arrayInv cfg s H) as (_ & _ & _ & Hpart).
  destruct (Hpart i p Hp) as [[Hb _] Hpris]. split; [exact Hb |].
  intros Hge. rewrite (Hpris Hge). repeat split.
Qed.

(** X12: in every reachable state the mass of a particle that is
    active or beached is the initial mass per particle times
    (1 - evaporated - dispersed). *)
Theorem mass_follows_fractions cfg s p :
  reachable rounds cfg s ->
  In p (particles s) ->
  Particle.active p = true \/ Particle.beached p = true ->
  Particle.mass p =
  oilVolume cfg * 1000 / INR (particleCount cfg) *
  (1 - Particle.evaporated p - Particle.dispersed p).
Proof.
  intros H Hin Hab. destruct (reachable_arrayInv cfg s H) as (_ & _ & _ & Hpart).
  apply In_nth_error in Hin. destruct Hin as [i Hi].
  destruct (Hpart i p Hi) as [[_ Hm] _]. exact (Hm Hab).
Qed.

(** X13: a step leaves untouched every particle that is inactive when
    the step begins and that the step does not release. *)
Theorem inactive_particles_are_frozen cfg s s' i p :
  step rounds cfg s = Some s' ->
  nth_error (particles s) i = Some p ->
  Particle.active p = false ->
  ~ (particlesReleased s <= i < particlesReleased s')%nat ->
  nth_error (particles s') i = Some p.
Proof.
  intros E Hp Ha Hi.
  pose proof (step_particles rounds _ _ _ E) as F.
  destruct (step_inv rounds _ _ _ E) as (ps1 & g1 & Er & Eps & _).
  pose proof (release_outside _ _ _ _ _ Er i Hi) as Hsame.
  apply stepParticles_Forall2 in Eps.
  assert (Hlen : List.length ps1 = List.length (particles s')) by
    (eapply Forall2_length_eq; eauto).
  rewrite <- Hsame in Hp.
  destruct (nth_error (particles s') i) as [p' |] eqn:Hp'.
  - destruct (Forall2_nth_error _ _ _ Eps i p' Hp') as (q & Hq & Hstep).
    assert (q = p) by congruence. subst q.
    rewrite (particleStep_inactive _ _ _ _ Hstep Ha). reflexivity.
  - apply nth_error_None in Hp'.
    assert (i < List.length ps1)%nat by (apply nth_error_Some; congruence). lia.
Qed.

Lemma Rpower_unit_interval x y : 0 < x <= 1 -> 0 <= y -> 0 < Rpower x y <= 1.
Proof.
  intros [Hx0 Hx1] Hy. unfold Rpower. split; [apply exp_pos |].
  rewrite <- exp_0. apply exp_le.
  assert (ln x <= 0).
  { destruct Hx1 as [Hlt | ->]; [| rewrite ln_1; lra].
    left. rewrite <- ln_1. apply ln_increasing; lra. }
  nra.
Qed.

Lemma viscosity_multiplier ev Y :
  0 <= ev -> 0 <= Y < 1 -> 1 <= exp (5 * ev) * (1 / Js.pow (1 - Y) 2.5).
Proof.
  intros Hev HY. unfold Js.pow.
  destruct (Rpower_unit_interval (1 - Y) 2.5 ltac:(lra) ltac:(lra)) as [Hp0 Hp1].
  assert (He : 1 <= exp (5 * ev)) by (rewrite <- exp_0; apply exp_le; lra).
  assert (Hi : 1 <= 1 / Rpower (1 - Y) 2.5).
  { apply (Rmult_le_reg_r (Rpower (1 - Y) 2.5)); [exact Hp0 |].
    unfold Rdiv. rewrite Rmult_assoc, Rinv_l by lra. lra. }
  nra.
Qed.

Lemma oil_viscosity_positive t : 0 < oilViscosity (OIL_PROPERTIES t).
Proof. destruct t; simpl; lra. Qed.

Lemma emulsion_under_ceiling cfg tm :
  0 <= env_emulsionWater (stepEnv cfg tm) < 1.
Proof.
  unfold stepEnv. cbn [env_emulsionWater].
  pose proof (calcEmulsion_bounds (tm / 3600)
                (if useGridData cfg && hasGridData cfg then 5.0
                 else globalWs (scalarField cfg tm (useGridData cfg && hasGridData cfg))))
    as [H0 H1].
  lra.
Qed.

Lemma weather_viscosity cfg tm p :
  mildConditions cfg ->
  oilViscosity (oilProps cfg) <= Particle.viscosity (weather (stepEnv cfg tm) p).
Proof.
  intros Hm. destruct (stepEnv_bounds cfg tm Hm) as ([Hev _] & _ & _).
  pose proof (emulsion_under_ceiling cfg tm) as HY.
  pose proof (oil_viscosity_positive (oilType cfg)) as Hb.
  change (Particle.viscosity (weather (stepEnv cfg tm) p))
    with (oilViscosity (oilProps cfg) *
          (exp (5 * Rmin (env_evapFraction (stepEnv cfg tm))
                        (volatileFrac (env_props (stepEnv cfg tm)))) *
           (1 / Js.pow (1 - env_emulsionWater (stepEnv cfg tm)) 2.5))).
  pose proof (viscosity_multiplier _ _ Hev HY) as Hmult.
  unfold oilProps in *. nra.
Qed.

Lemma particleStep_viscosity cfg tm q p' :
  mildConditions cfg ->
  particleStep rounds cfg (stepEnv cfg tm) q p' ->
  oilViscosity (oilProps cfg) <= Particle.viscosity q ->
  oilViscosity (oilProps cfg) <= Particle.viscosity p'.
Proof.
  intros Hm H Hq.
  pose proof (weather_viscosity cfg tm q Hm) as Hw.
  destruct H as [Ha | Ha Hlow | g dLat dLng g' Ha Hrem Hd]; [exact Hq | exact Hw |].
  rewrite grounding_onLand.
  assert (E : Particle.viscosity (spread cfg (weather (stepEnv cfg tm) q)) =
              Particle.viscosity (weather (stepEnv cfg tm) q)).
  { unfold spread. destruct (Js.ltb 0 _); reflexivity. }
  destruct (onLand cfg _); simpl; rewrite E; exact Hw.
Qed.

(** X14: when the water is not colder than −65/9 °C and the wind speed is
    not negative, the viscosity of every particle of every reachable
    state is at least the base viscosity of the oil: weathering only
    thickens. *)
Theorem viscosity_never_below_base cfg s p :
  mildConditions cfg ->
  reachable rounds cfg s ->
  In p (particles s) ->
  oilViscosity (oilProps cfg) <= Particle.viscosity p.
Proof.
  intros Hm Hr Hin.
  assert (F : Forall (fun p => oilViscosity (oilProps cfg) <= Particle.viscosity p)
                (particles s)).
  { apply (reachable_Forall rounds _ cfg); [| | exact Hr].
    - intros g. apply initialize_Forall. intros la ln m b. simpl. lra.
    - intros tm a b Ha (q & Hrel & Hstep).
      eapply particleStep_viscosity; eauto.
      destruct Hrel; [exact Ha | exact Ha]. }
  rewrite Forall_forall in F. auto.
Qed.

Lemma Rpower_negative_exponent x :
  0 < x ->
  (x < 1 -> 1 < Rpower x (-0.33)) /\
  (x = 1 -> Rpower x (-0.33) = 1) /\
  (1 < x -> Rpower x (-0.33) < 1).
Proof.
  intros Hx. unfold Rpower. split; [| split].
  - intros H. assert (ln x < 0) by (rewrite <- ln_1; apply ln_increasing; lra).
    rewrite <- exp_0. apply exp_increasing. nra.
  - intros ->. rewrite ln_1, Rmult_0_r. apply exp_0.
  - intros H. assert (0 < ln x) by (rewrite <- ln_1; apply ln_increasing; lra).
    rewrite <- exp_0. apply exp_increasing. nra.
Qed.

(** X15: after a step, the film of an active particle is thicker than
    the initial 0.01 m while the particle is younger than one hour,
    exactly 0.01 m at one hour, and thinner afterwards; it is always
    positive. *)
Theorem thickness_against_initial cfg s s' i p' :
  step rounds cfg s = Some s' ->
  nth_error (particles s') i = Some p' ->
  Particle.active p' = true ->
  0 < Particle.age p' ->
  0 < Particle.thickness p' /\
  (Particle.age p' < 3600 -> 0.01 < Particle.thickness p') /\
  (Particle.age p' = 3600 -> Particle.thickness p' = 0.01) /\
  (3600 < Particle.age p' -> Particle.thickness p' < 0.01).
Proof.
  intros E Hn Ha Hage.
  rewrite (step_active_thickness rounds cfg s s' i p' E Hn Ha Hage).
  assert (Hx : 0 < Particle.age p' / 3600) by (apply Rmult_lt_0_compat; lra).
  destruct (Rpower_negative_exponent _ Hx) as (H1 & H2 & H3).
  assert (Hpos : 0 < Rpower (Particle.age p' / 3600) (-0.33)) by apply exp_pos.
  split; [lra |]. split; [| split]; intros H.
  - assert (Particle.age p' / 3600 < 1) by lra. specialize (H1 H0). lra.
  - assert (Particle.age p' / 3600 = 1) by lra. specialize (H2 H0). lra.
  - assert (1 < Particle.age p' / 3600) by lra. specialize (H3 H0). lra.
Qed.

Lemma acrossStep_age cfg env p p' :
  0 <= env_dt env -> acrossStep rounds cfg env p p' -> 0 <= Particle.age p ->
  0 <= Particle.age p' /\
  (Particle.age p' <= Particle.age p + env_dt env).
Proof.
  intros Hdt (q & Hrel & Hstep) Hp.
  assert (Hq : 0 <= Particle.age q <= Particle.age p)
    by (destruct Hrel; simpl; lra).
  assert (Hc : Particle.age p' = Particle.age q \/
               Particle.age p' = Particle.age q + env_dt env).
  { destruct Hstep as [Ha | Ha Hlow | g dLat dLng g' Ha Hrem Hd].
    - left. reflexivity.
    - right. reflexivity.
    - right. destruct (grounding_sameWeathering cfg dLat dLng
                         (move dLat dLng (spread cfg (weather env q))))
        as [(_ & _ & _ & E) _].
      rewrite E. simpl.
      destruct (spread_sameWeathering cfg (weather env q)) as (_ & _ & _ & E').
      rewrite E'. reflexivity. }
  destruct Hc as [-> | ->]; lra.
Qed.

Lemma reachable_ages cfg s :
  0 <= timeStep cfg -> reachable rounds cfg s ->
  0 <= time s /\
  Forall (fun p => 0 <= Particle.age p <= time s /\
                   (spillMode cfg = instant -> Particle.active p = true ->
                    Particle.age p = time s)) (particles s).
Proof.
  intros Hdt. induction 1 as [g | b s H IH | s s' H IH E | s H IH]; try exact IH.
  - assert (Ht : time (initialize cfg g) = 0).
    { unfold initialize. destruct (spillMode cfg); [| reflexivity].
      destruct (initInstant cfg _ _ g). reflexivity. }
    rewrite Ht. split; [lra |].
    apply initialize_Forall. intros la ln m b. simpl. split; [lra | auto].
  - destruct IH as [Ht F].
    pose proof (step_particles rounds _ _ _ E) as F2.
    destruct (step_inv rounds _ _ _ E) as (ps1 & g1 & Er & Eps & Et & _).
    rewrite Et. split; [lra |].
    apply stepParticles_Forall2 in Eps.
    rewrite Forall_forall in F. apply Forall_forall. intros p' Hin'.
    apply In_nth_error in Hin'. destruct Hin' as [i Hi].
    destruct (Forall2_nth_error _ _ _ F2 i p' Hi) as (p & Hp & Hacross).
    destruct (F p (nth_error_In _ _ Hp)) as [[Hp0 Hp1] Hinst].
    destruct (acrossStep_age cfg (stepEnv cfg (time s)) p p' Hdt Hacross Hp0) as [H0 H1].
    change (env_dt (stepEnv cfg (time s))) with (timeStep cfg) in H1.
    split; [lra |].
    intros Hmode Hact'.
    rewrite (release_instant cfg s Hmode) in Er. inversion Er; subst ps1.
    destruct (Forall2_nth_error _ _ _ Eps i p' Hi) as (q & Hq & Hstep).
    assert (q = p) by congruence. subst q.
    destruct Hstep as [Ha | Ha Hlow | g dLat dLng g' Ha Hrem Hd].
    + congruence.
    + simpl in Hact'. discriminate.
    + rewrite (Hinst Hmode Ha) in *.
      destruct (grounding_sameWeathering cfg dLat dLng
                  (move dLat dLng (spread cfg (weather (stepEnv cfg (time s)) p))))
        as [(_ & _ & _ & Eg) _].
      rewrite Eg. simpl.
      destruct (spread_sameWeathering cfg (weather (stepEnv cfg (time s)) p))
        as (_ & _ & _ & E').
      rewrite E'. simpl. rewrite (Hinst Hmode Ha). reflexivity.
Qed.

(** X16: with a non-negative step size, in every reachable state the
    age of every particle lies between 0 and the simulation time, and
    in instant mode the age of every active particle is the simulation
    time. *)
Theorem particle_age_and_time cfg s p :
  0 <= timeStep cfg ->
  reachable rounds cfg s ->
  In p (particles s) ->
  0 <= Particle.age p <= time s /\
  (spillMode cfg = instant -> Particle.active p = true -> Particle.age p = time s).
Proof.
  intros Hdt Hr Hin. destruct (reachable_ages cfg s Hdt Hr) as [_ F].
  rewrite Forall_forall in F. auto.
Qed.

Lemma sumOf_shift f l : forall a,
  fold_left (fun s p => s + f p) l a = a + sumOf f l.
Proof.
  unfold sumOf. induction l as [| p l IH]; intros a; simpl; [ring |].
  rewrite (IH (a + f p)), (IH (0 + f p)). ring.
Qed.

Lemma sumOf_between f lo hi l :
  Forall (fun p : Particle.t => lo <= f p <= hi) l ->
  INR (List.length l) * lo <= sumOf f l <= INR (List.length l) * hi.
Proof.
  induction 1 as [| p l Hp F IH].
  - unfold sumOf. simpl. lra.
  - unfold sumOf. cbn [fold_left]. rewrite sumOf_shift.
    change (List.length (p :: l)) with (S (List.length l)). rewrite S_INR. lra.
Qed.

Lemma mean_between f lo hi l :
  l <> [] -> Forall (fun p : Particle.t => lo <= f p <= hi) l ->
  lo <= sumOf f l / INR (List.length l) <= hi.
Proof.
  intros Hne F. pose proof (sumOf_between f lo hi l F) as [H0 H1].
  assert (Hn : 0 < INR (List.length l)).
  { apply lt_0_INR. destruct l; [congruence | simpl; lia]. }
  split.
  - apply (Rmult_le_reg_r (INR (List.length l))); [exact Hn |].
    unfold Rdiv. rewrite Rmult_assoc, Rinv_l by lra. lra.
  - apply (Rmult_le_reg_r (INR (List.length l))); [exact Hn |].
    unfold Rdiv. rewrite Rmult_assoc, Rinv_l by lra. lra.
Qed.

Lemma updateStatsOf_active cfg ps st rep act :
  activeParticles ps = rep :: act ->
  updateStatsOf cfg ps st = fullStats cfg rep (rep :: act) (beachedCount ps).
Proof. intros E. unfold updateStatsOf. rewrite E. reflexivity. Qed.

(** X17: in exact arithmetic, when some particle is active, the centroid
    written by the statistics update lies within the range of latitudes
    and within the range of longitudes of the active particles. *)
Theorem centroid_within_active_range cfg s laLo laHi lnLo lnHi :
  activeParticles (particles s) <> [] ->
  Forall (fun p => laLo <= Particle.lat p <= laHi /\ lnLo <= Particle.lng p <= lnHi)
    (activeParticles (particles s)) ->
  laLo <= st_centerLat (stats (updateStats cfg s)) <= laHi /\
  lnLo <= st_centerLng (stats (updateStats cfg s)) <= lnHi.
Proof.
  intros Hne F. destruct (activeParticles (particles s)) as [| rep act] eqn:E;
    [congruence |].
  simpl. rewrite (updateStatsOf_active cfg _ _ rep act E). cbn [fullStats st_centerLat st_centerLng].
  split; apply mean_between; try discriminate;
    (eapply Forall_impl; [| exact F]); simpl; intros p [H1 H2]; assumption.
Qed.

(** X19: the statistics update is idempotent. *)
Theorem updateStats_idempotent cfg s :
  updateStats cfg (updateStats cfg s) = updateStats cfg s.
Proof.
  unfold updateStats. simpl. f_equal. unfold updateStatsOf.
  destruct ((List.length (activeParticles (particles s)) =? 0)%nat &&
            (beachedCount (particles s) =? 0)%nat) eqn:E.
  - reflexivity.
  - destruct (activeParticles (particles s)); reflexivity.
Qed.

(** The time has not passed the horizon by a full step, and a run that
    is no longer running has met the horizon. *)
Lemma tickLoop_horizon cfg todo : forall s s' fl,
  0 < timeStep cfg ->
  0 <= time s < maxTime cfg + timeStep cfg -> isRunning s = true ->
  tickLoop rounds cfg todo s = Some (s', fl) ->
  0 <= time s' < maxTime cfg + timeStep cfg /\
  time s <= time s' <= time s + INR todo * timeStep cfg /\
  (if fl then isRunning s' = false /\ maxTime cfg <= time s'
   else isRunning s' = true).
Proof.
  induction todo as [| todo IH]; intros s s' fl Hdt Ht Hrun E; cbn [tickLoop] in E.
  - inversion E; subst. simpl. repeat split; try lra; assumption.
  - unfold Js.leb in E. destruct (Rle_dec (maxTime cfg) (time s)) as [Hmet | Hnot].
    + inversion E; subst. cbn [setRunning time isRunning].
      assert (0 <= INR (S todo) * timeStep cfg)
        by (apply Rmult_le_pos; [apply pos_INR | lra]).
      split; [exact Ht |]. split; [lra |]. split; [reflexivity | exact Hmet].
    + destruct (step rounds cfg s) as [s1 |] eqn:E1; [| discriminate].
      destruct (step_inv rounds _ _ _ E1) as (_ & _ & _ & _ & Et & _ & Er & _).
      destruct (IH s1 s' fl Hdt) as (H1 & H2 & H3); [rewrite Et; lra | congruence | exact E |].
      split; [exact H1 |]. split; [| exact H3].
      rewrite Et in H2. rewrite S_INR. lra.
Qed.

Lemma frames_horizon cfg n : forall s s',
  0 < timeStep cfg ->
  0 <= time s < maxTime cfg + timeStep cfg ->
  (isRunning s = false -> maxTime cfg <= time s) ->
  frames rounds cfg n s = Some s' ->
  0 <= time s' < maxTime cfg + timeStep cfg /\
  time s <= time s' <= time s + INR (n * playbackSpeed cfg) * timeStep cfg /\
  (isRunning s' = false -> maxTime cfg <= time s').
Proof.
  induction n as [| n IH]; intros s s' Hdt Ht Hstop E; cbn [frames] in E.
  - inversion E; subst. simpl. repeat split; try lra; assumption.
  - unfold tick in E. destruct (isRunning s) eqn:Hrun; cbn [negb] in E.
    + destruct (tickLoop rounds cfg (playbackSpeed cfg) s) as [[s1 fl] |] eqn:E1;
        [| discriminate].
      destruct (tickLoop_horizon cfg _ s s1 fl Hdt Ht Hrun E1) as (H1 & H2 & H3).
      assert (Hadd : INR (S n * playbackSpeed cfg) =
                     INR (playbackSpeed cfg) + INR (n * playbackSpeed cfg)).
      { rewrite <- plus_INR. f_equal. }
      destruct fl.
      * destruct H3 as [H3 H4].
        destruct (IH s1 s' Hdt H1 (fun _ => H4) E) as (K1 & K2 & K3).
        split; [exact K1 |]. split; [| exact K3]. rewrite Hadd. lra.
      * destruct (IH (updateStats cfg s1) s' Hdt H1) as (K1 & K2 & K3);
          [simpl; congruence | exact E |].
        simpl in K2. split; [exact K1 |]. split; [| exact K3]. rewrite Hadd. lra.
    + destruct (IH s s' Hdt Ht (fun _ => Hstop eq_refl) E) as (K1 & K2 & K3).
      split; [exact K1 |]. split; [| exact K3].
      assert (INR (n * playbackSpeed cfg) <= INR (S n * playbackSpeed cfg))
        by (apply le_INR; lia).
      nra.
Qed.

(** X20: with a positive step size and horizon, after any number of
    frames of a started run the time is less than max_time + Δt and at
    most frames · playback_speed steps have been taken; once the run has
    stopped, max_time ≤ time < max_time + Δt. *)
Theorem run_overshoots_by_less_than_a_step cfg g n s :
  0 < timeStep cfg ->
  0 < maxTime cfg ->
  frames rounds cfg n (start (initialize cfg g)) = Some s ->
  0 <= time s < maxTime cfg + timeStep cfg /\
  time s <= INR (n * playbackSpeed cfg) * timeStep cfg /\
  (isRunning s = false -> maxTime cfg <= time s).
Proof.
  intros Hdt Hmax E.
  assert (Ht0 : time (start (initialize cfg g)) = 0).
  { unfold initialize. destruct (spillMode cfg); [| reflexivity].
    destruct (initInstant cfg _ _ g). reflexivity. }
  destruct (frames_horizon cfg n (start (initialize cfg g)) s Hdt) as (H1 & H2 & H3);
    [rewrite Ht0; lra | discriminate | exact E |].
  rewrite Ht0 in H2. split; [exact H1 |]. split; [lra | exact H3].
Qed.

Lemma gaussLoop_spec todo : forall g x g',
  gaussLoop todo g = Some (x, g') ->
  exists k : nat,
    (k < todo)%nat /\
    (forall j, (j < k)%nat -> ~ accepted (g (2 * j)%nat) (g (2 * j + 1)%nat)) /\
    accepted (g (2 * k)%nat) (g (2 * k + 1)%nat) /\
    x = gaussOf (g (2 * k)%nat) (g (2 * k + 1)%nat) /\
    forall n, g' n = g (2 * k + 2 + n)%nat.
Proof.
  induction todo as [| todo IH]; intros g x g' E; [discriminate |].
  cbn [gaussLoop Js.random] in E. cbv zeta in E.
  destruct (Js.leb 1 _) eqn:E1; cbn [orb] in E.
  - apply IH in E. destruct E as (k & Hk & Hrej & Hacc & Hx & Hg).
    exists (S k). split; [lia |]. split; [| split; [| split]].
    + intros j Hj. destruct j as [| j].
      * apply JsFacts.leb_spec in E1. intros [Hlt _]. simpl in Hlt. lra.
      * replace (2 * S j)%nat with (S (S (2 * j))) by lia.
        replace (S (S (2 * j)) + 1)%nat with (S (S (2 * j + 1))) by lia.
        apply Hrej. lia.
    + replace (2 * S k)%nat with (S (S (2 * k))) by lia.
      replace (S (S (2 * k)) + 1)%nat with (S (S (2 * k + 1))) by lia. exact Hacc.
    + replace (2 * S k)%nat with (S (S (2 * k))) by lia.
      replace (S (S (2 * k)) + 1)%nat with (S (S (2 * k + 1))) by lia. exact Hx.
    + intros n. rewrite Hg. f_equal. lia.
  - destruct (Js.eqb _ 0) eqn:E2.
    + apply IH in E. destruct E as (k & Hk & Hrej & Hacc & Hx & Hg).
      exists (S k). split; [lia |]. split; [| split; [| split]].
      * intros j Hj. destruct j as [| j].
        -- apply JsFacts.eqb_spec in E2. intros [_ Hne]. simpl in Hne. contradiction.
        -- replace (2 * S j)%nat with (S (S (2 * j))) by lia.
           replace (S (S (2 * j)) + 1)%nat with (S (S (2 * j + 1))) by lia.
           apply Hrej. lia.
      * replace (2 * S k)%nat with (S (S (2 * k))) by lia.
        replace (S (S (2 * k)) + 1)%nat with (S (S (2 * k + 1))) by lia. exact Hacc.
      * replace (2 * S k)%nat with (S (S (2 * k))) by lia.
        replace (S (S (2 * k)) + 1)%nat with (S (S (2 * k + 1))) by lia. exact Hx.
      * intros n. rewrite Hg. f_equal. lia.
    + inversion E; subst. exists 0%nat. split; [lia |].
      split; [intros j Hj; lia |]. split; [| split; [reflexivity | reflexivity]].
      apply leb_false_gt in E1. unfold accepted. cbn [Nat.mul Nat.add].
      split; [exact E1 |].
      intros H0. apply JsFacts.eqb_spec in H0. congruence.
Qed.

Lemma gaussLoop_rejects todo g :
  ~ accepted (g 0%nat) (g 1%nat) ->
  gaussLoop (S todo) g = gaussLoop todo (fun n => g (S (S n))).
Proof.
  intros Hrej. cbn [gaussLoop Js.random]. cbv zeta.
  destruct (Js.leb 1 _) eqn:E1; [reflexivity |].
  destruct (Js.eqb _ 0) eqn:E2; [reflexivity |].
  exfalso. apply Hrej. unfold accepted. split.
  - apply leb_false_gt in E1. exact E1.
  - intros H0. apply JsFacts.eqb_spec in H0. congruence.
Qed.

Lemma gaussLoop_accepts todo g :
  accepted (g 0%nat) (g 1%nat) ->
  gaussLoop (S todo) g = Some (gaussOf (g 0%nat) (g 1%nat), fun n => g (S (S n))).
Proof.
  intros [Hlt Hne]. cbn [gaussLoop Js.random]. cbv zeta.
  rewrite JsFacts.leb_false by exact Hlt. cbn [orb].
  destruct (Js.eqb _ 0) eqn:E2; [| reflexivity].
  apply JsFacts.eqb_spec in E2. contradiction.
Qed.

Lemma gaussLoop_first k : forall todo g,
  (k < todo)%nat ->
  (forall j, (j < k)%nat -> ~ accepted (g (2 * j)%nat) (g (2 * j + 1)%nat)) ->
  accepted (g (2 * k)%nat) (g (2 * k + 1)%nat) ->
  exists g',
    gaussLoop todo g = Some (gaussOf (g (2 * k)%nat) (g (2 * k + 1)%nat), g') /\
    forall n, g' n = g (2 * k + 2 + n)%nat.
Proof.
  induction k as [| k IH]; intros todo g Hk Hrej Hacc;
    (destruct todo as [| todo]; [lia |]).
  - rewrite gaussLoop_accepts by exact Hacc.
    eexists. split; [reflexivity | intros n; reflexivity].
  - rewrite gaussLoop_rejects by (apply (Hrej 0%nat); lia).
    destruct (IH todo (fun n => g (S (S n)))) as (g' & E & Hg); [lia | | |].
    + intros j Hj.
      replace (S (S (2 * j))) with (2 * S j)%nat by lia.
      replace (S (S (2 * j + 1))) with (2 * S j + 1)%nat by lia.
      apply Hrej. lia.
    + replace (S (S (2 * k))) with (2 * S k)%nat by lia.
      replace (S (S (2 * k + 1))) with (2 * S k + 1)%nat by lia. exact Hacc.
    + exists g'. split.
      * rewrite E.
        replace (S (S (2 * k))) with (2 * S k)%nat by lia.
        replace (S (S (2 * k + 1))) with (2 * S k + 1)%nat by lia. reflexivity.
      * intros n. rewrite Hg. f_equal. lia.
Qed.

(** X21: the Box-Muller loop consumes the draws two by two and returns
    at the first pair that falls strictly inside the unit disk and away
    from its centre, when that pair comes within the rounds followed:
    the value is the transform of that pair, and the stream continues
    right after it. *)
Theorem gaussRandom_takes_first_accepted_pair g k :
  (k < rounds)%nat ->
  (forall j, (j < k)%nat -> ~ accepted (g (2 * j)%nat) (g (2 * j + 1)%nat)) ->
  accepted (g (2 * k)%nat) (g (2 * k + 1)%nat) ->
  exists g',
    gaussRandom rounds g =
      Some (gaussOf (g (2 * k)%nat) (g (2 * k + 1)%nat), g') /\
    forall n, g' n = g (2 * k + 2 + n)%nat.
Proof. apply gaussLoop_first. Qed.

(** Conversely, a value returned stems from the first accepted pair. *)
Lemma gaussRandom_returns g x g' :
  gaussRandom rounds g = Some (x, g') ->
  exists k : nat,
    (k < rounds)%nat /\
    (forall j, (j < k)%nat -> ~ accepted (g (2 * j)%nat) (g (2 * j + 1)%nat)) /\
    accepted (g (2 * k)%nat) (g (2 * k + 1)%nat) /\
    x = gaussOf (g (2 * k)%nat) (g (2 * k + 1)%nat) /\
    forall n, g' n = g (2 * k + 2 + n)%nat.
Proof. apply gaussLoop_spec. Qed.

Lemma schedule_monotone D n t1 t2 :
  0 < D -> t1 <= t2 ->
  (Zfloor (t1 / D * INR n) <= Zfloor (t2 / D * INR n))%Z.
Proof.
  intros HD Ht. apply Zfloor_le.
  apply Rmult_le_compat_r; [apply pos_INR |].
  unfold Rdiv. apply Rmult_le_compat_r; [| exact Ht].
  left. apply Rinv_0_lt_compat. exact HD.
Qed.

Lemma schedule_full D n t :
  0 < D -> D <= t -> (Z.of_nat n <= Zfloor (t / D * INR n))%Z.
Proof.
  intros HD Ht. apply Zfloor_lub. rewrite <- INR_IZR_INZ.
  assert (1 <= t / D).
  { apply (Rmult_le_reg_r D); [exact HD |]. unfold Rdiv.
    rewrite Rmult_assoc, Rinv_l by lra. lra. }
  pose proof (pos_INR n). nra.
Qed.

(** X22: in exact arithmetic, in continuous mode with a positive spill
    duration and a non-negative step size, the release counter of every
    reachable state is min(⌊time / (spill_duration · 3600) ·
    particle_count⌋, particle_count). *)
Theorem release_counter_closed_form cfg s :
  spillMode cfg = continuous ->
  0 < spillDuration cfg ->
  0 <= timeStep cfg ->
  reachable rounds cfg s ->
  Z.of_nat (particlesReleased s) =
  Z.min (Zfloor (time s / (spillDuration cfg * 3600) * INR (particleCount cfg)))
        (Z.of_nat (particleCount cfg)).
Proof.
  intros Hmode Hdur Hdt Hreach.
  induction Hreach as [g | b s H IH | s s' H IH E | s H IH]; try exact IH.
  - unfold initialize. rewrite Hmode. cbn [particlesReleased time].
    unfold Rdiv. rewrite !Rmult_0_l. change 0 with (IZR 0). rewrite ZfloorZ. lia.
  - destruct (step_inv rounds _ _ _ E) as (ps1 & g1 & Er & _ & Et & _).
    rewrite Et.
    assert (HD : 0 < spillDuration cfg * 3600) by lra.
    pose proof (schedule_monotone (spillDuration cfg * 3600) (particleCount cfg)
                  (time s) (time s + timeStep cfg) HD ltac:(lra)) as Hmono.
    unfold release in Er. rewrite Hmode in Er. cbn [isContinuous andb] in Er.
    destruct (particlesReleased s <? particleCount cfg)%nat eqn:Elt.
    + apply Nat.ltb_lt in Elt.
      destruct (Js.ltb (time s) (spillDuration cfg * 3600)) eqn:Ewin.
      * apply releaseLoop_spec in Er. destruct Er as (_ & _ & Hr).
        specialize (Hr ltac:(lia)). unfold targetReleased in Hr.
        rewrite Hr. lia.
      * apply ltb_false_ge in Ewin.
        pose proof (schedule_full _ (particleCount cfg) _ HD Ewin). lia.
    + apply Nat.ltb_ge in Elt. inversion Er; subst. lia.
Qed.

End Integrator.

(** ** Placement of the particles *)

Lemma unitDraws_tail g : unitDraws g -> unitDraws (fun n => g (S n)).
Proof. intros H n. exact (H (S n)). Qed.






(** ** The drift vector *)

Lemma gridVector_uncovered og varU varV p th :
  covers og p = false -> gridVector og varU varV p th = Some (0, 0).
Proof.
  unfold covers, gridVector. destruct og as [g |]; [| reflexivity].
  intros E. rewrite E. reflexivity.
Qed.

(** X25: in grid mode a particle that neither the wind grid nor the
    current grid covers has no drift at all, and the diffusion
    coefficient 1: it moves by the random walk alone. *)
Theorem drift_outside_coverage cfg env p :
  env_useGrid env = true ->
  covers (windGrid cfg) p = false ->
  covers (currentGrid cfg) p = false ->
  drift cfg env p = Some (0, 0, 1).
Proof.
  intros Hg Hw Hc. unfold drift. rewrite Hg.
  rewrite (gridVector_uncovered _ _ _ _ _ Hw), (gridVector_uncovered _ _ _ _ _ Hc).
  replace (0 * 0 + 0 * 0) with 0 by ring. rewrite sqrt_0.
  f_equal. f_equal; [f_equal |]; lra.
Qed.







Lemma mixed_product_le_one s1 c1 s2 c2 :
  s1 * s1 + c1 * c1 = 1 -> s2 * s2 + c2 * c2 = 1 -> s1 * s2 + c1 * c2 <= 1.
Proof.
  intros H1 H2.
  pose proof (Rle_0_sqr (s1 - s2)) as A. pose proof (Rle_0_sqr (c1 - c2)) as B.
  unfold Rsqr in A, B. nra.
Qed.

Lemma unit_circle x : sin x * sin x + cos x * cos x = 1.
Proof. pose proof (sin2_cos2 x) as H. unfold Rsqr in H. exact H. Qed.

(** X27: in scalar mode with non-negative wind and current sliders, the
    speed of the drift vector of a step is at most 0.033 · wind_speed +
    1.05 · current_speed, the wind speed used for weathering lies within
    10 % of the slider and the diffusion coefficient is 1 plus half of
    it. *)
Theorem scalar_drift_bounded cfg tm :
  0 <= windSpeed cfg -> 0 <= currentSpeed cfg ->
  let sc := scalarField cfg tm false in
  Js.sqr (globalTotalU sc) + Js.sqr (globalTotalV sc) <=
    Js.sqr (0.033 * windSpeed cfg + 1.05 * currentSpeed cfg) /\
  0.9 * windSpeed cfg <= globalWs sc <= 1.1 * windSpeed cfg /\
  globalDiffCoeff sc = 1 + 0.5 * globalWs sc.
Proof.
  intros HW HC. unfold scalarField. cbn [negb globalTotalU globalTotalV globalWs globalDiffCoeff].
  set (ws := windSpeed cfg * (1 + sin (tm * 0.0002) * 0.1)).
  set (cs := currentSpeed cfg * (1 + 0.05 * sin (tm * 0.0005))).
  set (x1 := Js.rem (windDir cfg + 5 * sin (tm * 0.0003) + 180) 360 * DEG_TO_RAD
             + WIND_DEFLECTION).
  set (x2 := (currentDir cfg + 3 * cos (tm * 0.0004)) * DEG_TO_RAD).
  pose proof (SIN_bound (tm * 0.0002)) as [S1 S2].
  pose proof (SIN_bound (tm * 0.0005)) as [S3 S4].
  assert (Hws : 0.9 * windSpeed cfg <= ws <= 1.1 * windSpeed cfg) by (unfold ws; nra).
  assert (Hcs : 0 <= cs <= 1.05 * currentSpeed cfg) by (unfold cs; nra).
  split; [| split; [exact Hws | lra]].
  unfold Js.sqr, WIND_DRIFT_FACTOR.
  pose proof (mixed_product_le_one _ _ _ _ (unit_circle x1) (unit_circle x2)) as Hm.
  pose proof (unit_circle x1) as U1. pose proof (unit_circle x2) as U2.
  set (a := ws * 0.03). assert (Ha : 0 <= a <= 0.033 * windSpeed cfg) by (unfold a; lra).
  replace ((a * sin x1 + cs * sin x2) * (a * sin x1 + cs * sin x2) +
           (a * cos x1 + cs * cos x2) * (a * cos x1 + cs * cos x2))
    with (a * a * (sin x1 * sin x1 + cos x1 * cos x1) +
          cs * cs * (sin x2 * sin x2 + cos x2 * cos x2) +
          2 * (a * cs) * (sin x1 * sin x2 + cos x1 * cos x2)) by ring.
  rewrite U1, U2.
  assert (Hac : 0 <= a * cs) by (apply Rmult_le_pos; lra).
  assert (H2 : 2 * (a * cs) * (sin x1 * sin x2 + cos x1 * cos x2) <= 2 * (a * cs)) by nra.
  assert (H3 : (a + cs) * (a + cs) <=
               (0.033 * windSpeed cfg + 1.05 * currentSpeed cfg) *
               (0.033 * windSpeed cfg + 1.05 * currentSpeed cfg)).
  { apply Rmult_le_compat; lra. }
  nra.
Qed.

(** ** Distances and the statistics of the slick *)

Lemma atan2_quadrant y x : 0 <= y -> 0 <= x -> 0 <= Js.atan2 y x <= PI / 2.
Proof.
  intros Hy Hx. unfold Js.atan2. pose proof PI_RGT_0 as HPI.
  destruct (Rlt_dec 0 x) as [Hp | Hp].
  - split; [| left; apply atan_bound].
    destruct (Req_dec y 0) as [-> | Hne].
    + unfold Rdiv. rewrite Rmult_0_l, atan_0. lra.
    + left. rewrite <- atan_0. apply atan_increasing.
      apply Rdiv_lt_0_compat; lra.
  - destruct (Rlt_dec x 0); [lra |].
    destruct (Rlt_dec 0 y); [lra |].
    destruct (Rlt_dec y 0); lra.
Qed.

Lemma latitude_radians la :
  latitude la -> - (PI / 2) <= la * DEG_TO_RAD <= PI / 2.
Proof.
  unfold latitude, DEG_TO_RAD. intros [H1 H2]. pose proof PI_RGT_0. split; nra.
Qed.

Lemma haversineArg_range la1 ln1 la2 ln2 :
  latitude la1 -> latitude la2 -> 0 <= haversineArg la1 ln1 la2 ln2 <= 1.
Proof.
  intros H1 H2. unfold haversineArg, Js.sqr.
  apply latitude_radians in H1, H2.
  set (x := la1 * DEG_TO_RAD) in *. set (y := la2 * DEG_TO_RAD) in *.
  replace ((la2 - la1) * DEG_TO_RAD / 2) with ((y - x) / 2) by (unfold x, y; field).
  set (h := (y - x) / 2). set (k := (ln2 - ln1) * DEG_TO_RAD / 2).
  assert (Cx : 0 <= cos x) by (apply cos_ge_0; lra).
  assert (Cy : 0 <= cos y) by (apply cos_ge_0; lra).
  assert (Cxy : 0 <= cos x * cos y) by (apply Rmult_le_pos; assumption).
  pose proof (unit_circle h) as Uh. pose proof (unit_circle k) as Uk.
  pose proof (Rle_0_sqr (sin h)) as Sh. pose proof (Rle_0_sqr (sin k)) as Sk.
  pose proof (Rle_0_sqr (cos k)) as Ck. unfold Rsqr in Sh, Sk, Ck.
  assert (Sk1 : sin k * sin k <= 1) by lra.
  assert (P : 0 <= cos x * cos y * (sin k * sin k)) by (apply Rmult_le_pos; assumption).
  assert (Q : cos x * cos y * (sin k * sin k) <= cos x * cos y).
  { rewrite <- (Rmult_1_r (cos x * cos y)) at 2.
    apply Rmult_le_compat_l; assumption. }
  split; [lra |].
  pose proof (cos_2a_cos h) as D. replace (2 * h) with (y - x) in D by (unfold h; field).
  rewrite cos_minus in D.
  pose proof (COS_bound (x + y)) as [_ B]. rewrite cos_plus in B.
  lra.
Qed.

Lemma haversineDistance_arg la1 ln1 la2 ln2 :
  haversineDistance la1 ln1 la2 ln2 =
  2 * EARTH_RADIUS *
  Js.atan2 (sqrt (haversineArg la1 ln1 la2 ln2))
           (sqrt (1 - haversineArg la1 ln1 la2 ln2)).
Proof. reflexivity. Qed.

(** With [a] in [0, 1] both square roots are taken of non-negative
    numbers and the angle lies in the first quadrant. *)
Lemma haversineDistance_nonneg la1 ln1 la2 ln2 :
  0 <= haversineArg la1 ln1 la2 ln2 <= 1 ->
  0 <= haversineDistance la1 ln1 la2 ln2 <= PI * EARTH_RADIUS.
Proof.
  intros [Ha0 Ha1]. rewrite haversineDistance_arg.
  assert (Hy : 0 <= sqrt (haversineArg la1 ln1 la2 ln2))
    by (rewrite <- sqrt_0; apply sqrt_le_1_alt; exact Ha0).
  assert (Hx : 0 <= sqrt (1 - haversineArg la1 ln1 la2 ln2))
    by (rewrite <- sqrt_0; apply sqrt_le_1_alt; lra).
  pose proof (atan2_quadrant _ _ Hy Hx) as [A B].
  unfold EARTH_RADIUS. split; nra.
Qed.

Lemma sin_half_opp x y :
  Js.sqr (sin ((x - y) * DEG_TO_RAD / 2)) = Js.sqr (sin ((y - x) * DEG_TO_RAD / 2)).
Proof.
  replace ((x - y) * DEG_TO_RAD / 2) with (- ((y - x) * DEG_TO_RAD / 2)) by field.
  rewrite sin_neg. unfold Js.sqr. ring.
Qed.

(** X28: in exact arithmetic, for latitudes within ±90° the quantity a
    of the haversine formula lies in [0, 1], the distance lies between
    0 and half the circumference π · 6371000 m, it is symmetric in its
    two points, and it is 0 from a point to itself. *)
Theorem haversine_distance_range la1 ln1 la2 ln2 :
  latitude la1 -> latitude la2 ->
  0 <= haversineArg la1 ln1 la2 ln2 <= 1 /\
  0 <= haversineDistance la1 ln1 la2 ln2 <= PI * EARTH_RADIUS /\
  haversineDistance la1 ln1 la2 ln2 = haversineDistance la2 ln2 la1 ln1 /\
  haversineDistance la1 ln1 la1 ln1 = 0.
Proof.
  intros H1 H2. pose proof (haversineArg_range la1 ln1 la2 ln2 H1 H2) as Ha.
  split; [exact Ha |].
  split; [apply haversineDistance_nonneg; exact Ha |]. split.
  - rewrite !haversineDistance_arg.
    replace (haversineArg la2 ln2 la1 ln1) with (haversineArg la1 ln1 la2 ln2);
      [reflexivity |].
    unfold haversineArg. rewrite (sin_half_opp la1 la2), (sin_half_opp ln1 ln2). ring.
  - rewrite haversineDistance_arg.
    replace (haversineArg la1 ln1 la1 ln1) with 0.
    + rewrite Rminus_0_r, sqrt_0, sqrt_1. unfold Js.atan2.
      destruct (Rlt_dec 0 1); [| lra]. unfold Rdiv. rewrite Rmult_0_l, atan_0. ring.
    + unfold haversineArg, Js.sqr.
      replace ((la1 - la1) * DEG_TO_RAD / 2) with 0 by field.
      replace ((ln1 - ln1) * DEG_TO_RAD / 2) with 0 by field.
      rewrite sin_0. ring.
Qed.

Lemma fold_Rmax_spec (f : Particle.t -> R) l : forall m,
  let r := fold_left (fun m p => Rmax m (f p)) l m in
  m <= r /\ Forall (fun p => f p <= r) l /\ (r = m \/ exists p, In p l /\ r = f p).
Proof.
  induction l as [| q l IH]; intros m; cbn [fold_left].
  - split; [lra | split; [constructor | left; reflexivity]].
  - destruct (IH (Rmax m (f q))) as (A & B & C). cbv zeta in *.
    set (r := fold_left _ l (Rmax m (f q))) in *.
    pose proof (Rmax_l m (f q)). pose proof (Rmax_r m (f q)).
    split; [lra |]. split; [constructor; [lra | exact B] |].
    destruct C as [C | (p & Hp & C)].
    + unfold Rmax in C. destruct (Rle_dec m (f q)).
      * right. exists q. split; [left; reflexivity | exact C].
      * left. exact C.
    + right. exists p. split; [right; exact Hp | exact C].
Qed.

(** X29: in exact arithmetic, when some particle is active and the
    spill and the active particles have latitudes within ±90°, the
    quantity a of the haversine formula lies in [0, 1] for every active
    particle, and the maximal drift written by the statistics update is
    the distance in km from the spill to the farthest active particle:
    no active particle is farther, and one is exactly that far. *)
Theorem maxDrift_is_farthest_active cfg s rep act :
  activeParticles (particles s) = rep :: act ->
  latitude (spillLat cfg) ->
  Forall (fun p => latitude (Particle.lat p)) (rep :: act) ->
  let st := stats (updateStats cfg s) in
  Forall (fun p =>
            0 <= haversineArg (spillLat cfg) (spillLng cfg)
                   (Particle.lat p) (Particle.lng p) <= 1 /\
            0 <= driftKm cfg p <= st_maxDrift st) (rep :: act) /\
  exists p, In p (rep :: act) /\ st_maxDrift st = driftKm cfg p.
Proof.
  intros E Hs Hl. cbv zeta. unfold updateStats. cbn [stats].
  rewrite (updateStatsOf_active _ _ _ _ _ E). unfold fullStats. cbn [st_maxDrift].
  pose proof (fold_Rmax_spec
                (fun p => haversineDistance (spillLat cfg) (spillLng cfg)
                            (Particle.lat p) (Particle.lng p)) (rep :: act) 0)
    as (A & B & C).
  cbv zeta in A, B, C.
  set (r := fold_left _ (rep :: act) 0) in *.
  assert (Harg : forall p, In p (rep :: act) ->
            0 <= haversineArg (spillLat cfg) (spillLng cfg)
                   (Particle.lat p) (Particle.lng p) <= 1).
  { intros p Hp. rewrite Forall_forall in Hl.
    apply haversineArg_range; [exact Hs | exact (Hl p Hp)]. }
  split.
  - apply Forall_forall. intros p Hp. rewrite Forall_forall in B.
    specialize (B p Hp).
    pose proof (haversineDistance_nonneg _ _ _ _ (Harg p Hp)) as [D _].
    split; [exact (Harg p Hp) |]. unfold driftKm. lra.
  - destruct C as [C | (p & Hp & C)].
    + exists rep. split; [left; reflexivity |]. unfold driftKm.
      rewrite Forall_forall in B. specialize (B rep (or_introl eq_refl)).
      pose proof (haversineDistance_nonneg _ _ _ _ (Harg rep (or_introl eq_refl)))
        as [D _].
      assert (r = haversineDistance (spillLat cfg) (spillLng cfg)
                    (Particle.lat rep) (Particle.lng rep)) by lra.
      congruence.
    + exists p. split; [exact Hp |]. unfold driftKm. congruence.
Qed.

Lemma sumOf_const f c l :
  Forall (fun p : Particle.t => f p = c) l -> sumOf f l = INR (List.length l) * c.
Proof.
  induction 1 as [| p l Hp F IH].
  - unfold sumOf. simpl. ring.
  - unfold sumOf. cbn [fold_left]. rewrite sumOf_shift, IH, Hp.
    change (List.length (p :: l)) with (S (List.length l)). rewrite S_INR. ring.
Qed.

Lemma deviation_of_aligned f c l :
  l <> [] -> Forall (fun p : Particle.t => f p = c) l ->
  sqrt (sumOf (fun p => Js.sqr (f p - sumOf f l / INR (List.length l))) l
        / INR (List.length l)) = 0.
Proof.
  intros Hne F.
  assert (Hn : INR (List.length l) <> 0).
  { apply not_0_INR. destruct l; [congruence | discriminate]. }
  assert (Hmean : sumOf f l / INR (List.length l) = c).
  { rewrite (sumOf_const f c l F). field. exact Hn. }
  rewrite Hmean.
  rewrite (sumOf_const (fun p => Js.sqr (f p - c)) 0 l).
  - unfold Rdiv. rewrite Rmult_0_r, Rmult_0_l. apply sqrt_0.
  - eapply Forall_impl; [| exact F]. cbv beta. intros p Hp.
    rewrite Hp. unfold Js.sqr. ring.
Qed.

(** X30: in exact arithmetic, when all active particles share one
    latitude or share one longitude (a single active particle in
    particular), the statistics update reports the area 0. *)
Theorem area_of_aligned_slick cfg s rep act :
  activeParticles (particles s) = rep :: act ->
  Forall (fun p => Particle.lat p = Particle.lat rep) act \/
  Forall (fun p => Particle.lng p = Particle.lng rep) act ->
  st_area (stats (updateStats cfg s)) = 0.
Proof.
  intros E H. unfold updateStats. cbn [stats].
  rewrite (updateStatsOf_active _ _ _ _ _ E). unfold fullStats. cbn [st_area].
  destruct H as [H | H].
  - rewrite (deviation_of_aligned Particle.lat (Particle.lat rep) (rep :: act));
      [ring | discriminate | constructor; [reflexivity | exact H]].
  - rewrite (deviation_of_aligned Particle.lng (Particle.lng rep) (rep :: act));
      [ring | discriminate | constructor; [reflexivity | exact H]].
Qed.

(** ** Concrete cases *)

Lemma scalarRun_reachable :
  exists s1 s2 p1 p2,
    step 1 (scalarRun 7200 18) (initialize (scalarRun 7200 18) steadyDraws) = Some s1 /\
    reachable 1 (scalarRun 7200 18) s2 /\
    particles s1 = [p1] /\ particles s2 = [p2] /\
    Particle.active p1 = true /\ Particle.active p2 = true /\
    Particle.age p1 = 7200 /\ time s2 = 14400.
Proof.
  destruct (scalarRun_two_steps 7200 18)
    as (s1 & s2 & p1 & p2 & E1 & E2 & Ep1 & Ep2 & Ha1 & Ha2 & Hage1 & _ & _ & Ht2 & _).
  exists s1, s2, p1, p2.
  split; [exact E1 |]. split.
  { eapply reach_step; [| exact E2]. eapply reach_step; [| exact E1]. apply reach_init. }
  split; [exact Ep1 |]. split; [exact Ep2 |]. split; [exact Ha1 |].
  split; [exact Ha2 |]. split; lra.
Qed.

Lemma coastRun_two_steps :
  exists s1 s2 p1,
    step 1 coastRun coastStart = Some s1 /\ step 1 coastRun s1 = Some s2 /\
    particles s1 = [p1] /\ particlesReleased s1 = 1%nat /\
    Particle.beached p1 = true /\ Particle.active p1 = false.
Proof.
  destruct coastRun_first_step
    as (s1 & p0 & p1 & E & _ & Ep1 & _ & Hr1 & _ & _ & Hb1 & Ha1 & _).
  destruct (step_total 1 coastRun coastStart Nat.lt_0_1 coastRun_numeric
              accepting_alternating (Nat.le_refl 1)) as (s1' & E' & Hacc).
  assert (s1' = s1) by congruence. subst s1'.
  assert (Hlen : (particleCount coastRun <= List.length (particles s1))%nat)
    by (rewrite Ep1; apply Nat.le_refl).
  destruct (step_total 1 coastRun s1 Nat.lt_0_1 coastRun_numeric Hacc Hlen)
    as (s2 & E2 & _).
  exists s1, s2, p1. auto 10.
Qed.

Lemma particle_array_is_fixed_witness :
  exists s,
    reachable 1 (scalarRun 7200 18) s /\ time s = 14400 /\
    List.length (particles s) = 1%nat /\ particlesReleased s = 1%nat.
Proof.
  destruct scalarRun_reachable as (s1 & s2 & p1 & p2 & _ & Hr & _ & _ & _ & _ & _ & Ht).
  destruct (particle_array_is_fixed 1 (scalarRun 7200 18) s2 Hr) as (Hlen & _ & Hinst).
  exists s2. split; [exact Hr |]. split; [exact Ht |].
  split; [exact Hlen | exact (Hinst eq_refl)].
Defined.

Lemma beached_excludes_active_witness :
  exists s p,
    reachable 1 coastRun s /\ nth_error (particles s) 0 = Some p /\
    Particle.beached p = true /\ Particle.active p = false.
Proof.
  destruct coastRun_two_steps as (s1 & s2 & p1 & E1 & _ & Ep1 & _ & Hb1 & _).
  assert (Hr : reachable 1 coastRun s1)
    by (eapply reach_step; [apply reach_init | exact E1]).
  assert (Hn : nth_error (particles s1) 0 = Some p1) by (rewrite Ep1; reflexivity).
  exists s1, p1. split; [exact Hr |]. split; [exact Hn |]. split; [exact Hb1 |].
  exact (proj1 (beached_excludes_active 1 coastRun s1 0%nat p1 Hr Hn) Hb1).
Defined.

Lemma mass_follows_fractions_witness :
  exists s p,
    reachable 1 (scalarRun 7200 18) s /\ In p (particles s) /\
    Particle.active p = true /\
    Particle.mass p =
      500 * 1000 / INR 1 * (1 - Particle.evaporated p - Particle.dispersed p).
Proof.
  destruct scalarRun_reachable as (s1 & s2 & p1 & p2 & _ & Hr & _ & Ep2 & _ & Ha2 & _).
  assert (Hin : In p2 (particles s2)) by (rewrite Ep2; left; reflexivity).
  exists s2, p2. split; [exact Hr |]. split; [exact Hin |]. split; [exact Ha2 |].
  exact (mass_follows_fractions 1 (scalarRun 7200 18) s2 p2 Hr Hin (or_introl Ha2)).
Defined.

Lemma inactive_particles_are_frozen_witness :
  exists s s' p,
    step 1 coastRun s = Some s' /\
    nth_error (particles s) 0 = Some p /\ Particle.active p = false /\
    nth_error (particles s') 0 = Some p.
Proof.
  destruct coastRun_two_steps as (s1 & s2 & p1 & _ & E2 & Ep1 & Hr1 & _ & Ha1).
  assert (Hn : nth_error (particles s1) 0 = Some p1) by (rewrite Ep1; reflexivity).
  assert (Hout : ~ (particlesReleased s1 <= 0 < particlesReleased s2)%nat)
    by (rewrite Hr1; lia).
  exists s1, s2, p1. split; [exact E2 |]. split; [exact Hn |]. split; [exact Ha1 |].
  exact (inactive_particles_are_frozen 1 coastRun s1 s2 0%nat p1 E2 Hn Ha1 Hout).
Defined.

Lemma viscosity_never_below_base_witness :
  exists s p,
    mildConditions (scalarRun 7200 18) /\
    reachable 1 (scalarRun 7200 18) s /\ In p (particles s) /\
    12 <= Particle.viscosity p.
Proof.
  destruct scalarRun_reachable as (s1 & s2 & p1 & p2 & _ & Hr & _ & Ep2 & _).
  assert (Hin : In p2 (particles s2)) by (rewrite Ep2; left; reflexivity).
  exists s2, p2. split; [exact scalarRun_mild |]. split; [exact Hr |].
  split; [exact Hin |].
  exact (viscosity_never_below_base 1 (scalarRun 7200 18) s2 p2 scalarRun_mild Hr Hin).
Defined.

Lemma thickness_against_initial_witness :
  exists s' p',
    step 1 (scalarRun 7200 18) (initialize (scalarRun 7200 18) steadyDraws) = Some s' /\
    nth_error (particles s') 0 = Some p' /\
    Particle.active p' = true /\ 3600 < Particle.age p' /\
    Particle.thickness p' < 0.01.
Proof.
  destruct scalarRun_reachable
    as (s1 & s2 & p1 & p2 & E1 & _ & Ep1 & _ & Ha1 & _ & Hage1 & _).
  assert (Hn : nth_error (particles s1) 0 = Some p1) by (rewrite Ep1; reflexivity).
  assert (Hpos : 0 < Particle.age p1) by lra.
  assert (Hold : 3600 < Particle.age p1) by lra.
  exists s1, p1. split; [exact E1 |]. split; [exact Hn |]. split; [exact Ha1 |].
  split; [exact Hold |].
  exact (proj2 (proj2 (proj2
           (thickness_against_initial 1 _ _ s1 0%nat p1 E1 Hn Ha1 Hpos))) Hold).
Defined.

Lemma particle_age_and_time_witness :
  exists s p,
    reachable 1 (scalarRun 7200 18) s /\ In p (particles s) /\
    Particle.active p = true /\ Particle.age p = time s.
Proof.
  destruct scalarRun_reachable as (s1 & s2 & p1 & p2 & _ & Hr & _ & Ep2 & _ & Ha2 & _).
  assert (Hin : In p2 (particles s2)) by (rewrite Ep2; left; reflexivity).
  assert (Hdt : 0 <= timeStep (scalarRun 7200 18)) by (simpl; lra).
  exists s2, p2. split; [exact Hr |]. split; [exact Hin |]. split; [exact Ha2 |].
  exact (proj2 (particle_age_and_time 1 (scalarRun 7200 18) s2 p2 Hdt Hr Hin)
           eq_refl Ha2).
Defined.

Lemma pairState_active :
  activeParticles (particles pairState) =
  [Particle.new 1 2 250000; Particle.new 1 4 250000].
Proof. reflexivity. Qed.

Lemma pairState_box :
  Forall (fun p => 1 <= Particle.lat p <= 1 /\ 2 <= Particle.lng p <= 4)
    (activeParticles (particles pairState)).
Proof.
  rewrite pairState_active.
  constructor; [simpl; lra |]. constructor; [simpl; lra | constructor].
Qed.

Lemma centroid_within_active_range_witness :
  1 <= st_centerLat (stats (updateStats (scalarRun 7200 18) pairState)) <= 1 /\
  2 <= st_centerLng (stats (updateStats (scalarRun 7200 18) pairState)) <= 4.
Proof.
  apply (centroid_within_active_range (scalarRun 7200 18) pairState 1 1 2 4).
  - rewrite pairState_active. discriminate.
  - exact pairState_box.
Defined.

Lemma run_overshoots_by_less_than_a_step_witness :
  exists n s,
    frames 1 coastRun n (start (initialize coastRun alternatingDraws)) = Some s /\
    isRunning s = false /\
    maxTime coastRun <= time s < maxTime coastRun + timeStep coastRun.
Proof.
  assert (H1 : releaseOverHorizon coastRun) by (split; [reflexivity | simpl; lra]).
  assert (H2 : 0 < timeStep coastRun) by (simpl; lra).
  assert (H3 : 0 < maxTime coastRun) by (simpl; lra).
  destruct (proj2 (release_complete_at_horizon 1 coastRun alternatingDraws H1 H2 H3)
              Nat.lt_0_1 coastRun_numeric Nat.lt_0_1 accepting_alternating)
    as (n & s & E & Hstop & _).
  destruct (run_overshoots_by_less_than_a_step 1 coastRun alternatingDraws n s H2 H3 E)
    as ([_ Hlt] & _ & Hmet).
  exists n, s. split; [exact E |]. split; [exact Hstop |].
  split; [exact (Hmet Hstop) | exact Hlt].
Defined.

Lemma lateDraws_first_rejected :
  forall j, (j < 1)%nat ->
  ~ accepted (lateDraws (2 * j)%nat) (lateDraws (2 * j + 1)%nat).
Proof.
  intros j Hj. assert (j = 0%nat) by lia. subst j.
  unfold accepted, lateDraws. simpl. intros [H _]. lra.
Qed.

Lemma lateDraws_second_accepted :
  accepted (lateDraws (2 * 1)%nat) (lateDraws (2 * 1 + 1)%nat).
Proof. unfold accepted, lateDraws. simpl. split; lra. Qed.

Lemma gaussRandom_takes_first_accepted_pair_witness :
  exists g',
    gaussRandom 2 lateDraws = Some (gaussOf (3 / 4) (3 / 4), g') /\
    forall n, g' n = lateDraws (4 + n)%nat.
Proof.
  exact (gaussRandom_takes_first_accepted_pair 2 lateDraws 1%nat
           (Nat.lt_succ_diag_r 1) lateDraws_first_rejected lateDraws_second_accepted).
Defined.

Lemma release_counter_closed_form_witness :
  exists s,
    reachable 1 coastRun s /\ time s = 3600 /\
    Z.of_nat (particlesReleased s) =
    Z.min (Zfloor (time s / (1 * 3600) * INR 1)) (Z.of_nat 1).
Proof.
  destruct coastRun_two_steps as (s1 & s2 & p1 & E1 & _).
  assert (Hr : reachable 1 coastRun s1)
    by (eapply reach_step; [apply reach_init | exact E1]).
  assert (Ht : time s1 = 3600).
  { destruct (step_inv 1 _ _ _ E1) as (_ & _ & _ & _ & Et & _). rewrite Et. simpl. lra. }
  assert (Hdur : 0 < spillDuration coastRun) by (simpl; lra).
  assert (Hdt : 0 <= timeStep coastRun) by (simpl; lra).
  exists s1. split; [exact Hr |]. split; [exact Ht |].
  exact (release_counter_closed_form 1 coastRun s1 eq_refl Hdur Hdt Hr).
Defined.








Lemma galeGrid_contains la ln :
  Grid.contains galeGrid la ln =
  Js.leb (-1) la && Js.leb la 1 && Js.leb (-1) ln && Js.leb ln 1.
Proof. reflexivity. Qed.

Lemma drift_outside_coverage_witness :
  env_useGrid (stepEnv galeRun 0) = true /\
  drift galeRun (stepEnv galeRun 0) (Particle.new 5 0 250000) = Some (0, 0, 1).
Proof.
  split; [reflexivity |].
  apply drift_outside_coverage; [reflexivity | | reflexivity].
  unfold covers. cbn [windGrid galeRun Particle.lat Particle.lng Particle.new].
  rewrite galeGrid_contains.
  rewrite (JsFacts.leb_false 5 1) by lra. rewrite andb_false_r. reflexivity.
Defined.



Lemma scalar_drift_bounded_witness :
  Js.sqr (globalTotalU (scalarField (scalarRun 7200 18) 0 false)) +
  Js.sqr (globalTotalV (scalarField (scalarRun 7200 18) 0 false)) <=
  Js.sqr (0.033 * windSpeed (scalarRun 7200 18) +
          1.05 * currentSpeed (scalarRun 7200 18)).
Proof.
  assert (HW : 0 <= windSpeed (scalarRun 7200 18)) by (simpl; lra).
  assert (HC : 0 <= currentSpeed (scalarRun 7200 18)) by (simpl; lra).
  exact (proj1 (scalar_drift_bounded (scalarRun 7200 18) 0 HW HC)).
Defined.

Lemma haversine_distance_range_witness :
  0 <= haversineDistance 38.5 119 39 120 <= PI * EARTH_RADIUS /\
  haversineDistance 38.5 119 39 120 = haversineDistance 39 120 38.5 119.
Proof.
  assert (H1 : latitude 38.5) by (unfold latitude; lra).
  assert (H2 : latitude 39) by (unfold latitude; lra).
  destruct (haversine_distance_range 38.5 119 39 120 H1 H2) as (_ & Hb & Hs & _).
  exact (conj Hb Hs).
Defined.

Lemma maxDrift_is_farthest_active_witness :
  exists p,
    In p (activeParticles (particles pairState)) /\
    st_maxDrift (stats (updateStats (scalarRun 7200 18) pairState)) =
    driftKm (scalarRun 7200 18) p.
Proof.
  assert (Hs : latitude (spillLat (scalarRun 7200 18)))
    by (unfold latitude; simpl; lra).
  assert (Hl : Forall (fun p => latitude (Particle.lat p))
                 [Particle.new 1 2 250000; Particle.new 1 4 250000]).
  { constructor; [unfold latitude; simpl; lra |].
    constructor; [unfold latitude; simpl; lra | constructor]. }
  rewrite pairState_active.
  exact (proj2 (maxDrift_is_farthest_active (scalarRun 7200 18) pairState _ _
                  pairState_active Hs Hl)).
Defined.

Lemma area_of_aligned_slick_witness :
  st_area (stats (updateStats (scalarRun 7200 18) pairState)) = 0.
Proof.
  apply (area_of_aligned_slick (scalarRun 7200 18) pairState _ _ pairState_active).
  left. constructor; [reflexivity | constructor].
Defined.
